(** * The geometric image-fit engine of image-lora-prep

    A shallow embedding of [src/func/resize.py] and of [map_resample] from
    [src/func/io_utils.py], together with the Python arithmetic and the part
    of the imaging library (Pillow) that these functions call; and of the
    callers of the engine: [src/func/crop_auto.py], the per-image step of
    [cmd_scale] in [main.py], the geometry of the manual cropper
    [src/func/crop_manual_gui.py], and the arguments that
    [io_utils.save_image] passes to the library.

    - Python [int] is [Z]; Python [float] is IEEE-754 binary64, modelled by
      the rationals it denotes with every operation rounded to nearest, ties
      to even (module [Binary64]), plus the two infinities and NaN.
    - Image objects live in a heap (a list indexed by object identity), so
      that aliasing ("returns the same object") and in-place updates
      ([thumbnail], [paste]) are visible.
    - Pixel buffers are opaque: a symbolic term records how a buffer was
      obtained (cropped, resampled, pasted). *)

From Stdlib Require Import ZArith QArith Qround Qabs Qpower Qreduction.
From Stdlib Require Import Lia Lra Lqa Bool String Ascii.
From Stdlib Require Floats.
From stdpp Require Import base list gmap strings.

(** ** IEEE-754 binary64 arithmetic on rationals *)

Module Binary64.
Local Open Scope Q_scope.

Definition pow2 (e : Z) : Q := 2 ^ e.

(** [mag x] is the integer [m] with [2^(m-1) <= |x| < 2^m] (for [x <> 0]). *)
Definition mag (x : Q) : Z :=
  let k := (Z.log2 (Z.abs (Qnum x)) - Z.log2 (Zpos (Qden x)))%Z in
  if Qle_bool (pow2 k) (Qabs x) then (k + 1)%Z else k.

(** Round to the nearest integer, ties to the even one. *)
Definition rne (x : Q) : Z :=
  let f := Qfloor x in
  match Qcompare (x - inject_Z f) (1 # 2) with
  | Lt => f
  | Gt => (f + 1)%Z
  | Eq => if Z.even f then f else (f + 1)%Z
  end.

(** Exponent of the unit in the last place: 53 significant bits, and the
    gradual underflow of subnormal numbers below [2^-1022]. *)
Definition ulp_exp (x : Q) : Z := Z.max (mag x - 53) (-1074).

(** The binary64 number nearest to [x] (no exponent upper bound here; the
    overflow test is [overflows] below). The result is in lowest terms. *)
Definition rnd (x : Q) : Q :=
  let e := ulp_exp x in
  let m := rne (Qabs x * pow2 (- e)) in
  Qred (inject_Z (if Qle_bool 0 x then m else (- m)%Z) * pow2 e).

Definition overflows (r : Q) : bool := Qle_bool (pow2 1024) (Qabs r).

Definition Qlt_bool (x y : Q) : bool := negb (Qle_bool y x).

End Binary64.

(** ** Python values: exceptions, floats, the arithmetic the engine uses *)

Module Py.
Import Binary64.

Inductive exn := ZeroDivisionError | OverflowError | ValueError.

Inductive result (A : Type) := Ok (a : A) | Raise (e : exn).
Arguments Ok {A} a.
Arguments Raise {A} e.

#[export] Instance result_ret : MRet result := fun A a => Ok a.
#[export] Instance result_bind : MBind result := fun A B f r =>
  match r with Ok a => f a | Raise e => Raise e end.

(** A Python float. The sign of zero is not kept: no operation used here
    can observe it (division by either zero raises). *)
Inductive float := Finite (q : Q) | Infinite (negative : bool) | NaN.

Definition is_neg (q : Q) : bool := negb (Qle_bool 0 q).

(** The float nearest to the exact result [x] of a float operation. *)
Definition to_float (x : Q) : float :=
  let r := rnd x in
  if overflows r then Infinite (is_neg r) else Finite r.

(** [float(n)] for an int, as done implicitly by [int * float] and
    [int / float]. *)
Definition float_of_int (n : Z) : result float :=
  let r := rnd (inject_Z n) in
  if overflows r then Raise OverflowError else Ok (Finite r).

(** [a / b] on two ints: the correctly rounded quotient. *)
Definition int_truediv (a b : Z) : result float :=
  if (b =? 0)%Z then Raise ZeroDivisionError
  else let r := rnd (inject_Z a / inject_Z b)%Q in
       if overflows r then Raise OverflowError else Ok (Finite r).

Definition float_sub (a b : float) : float :=
  match a, b with
  | NaN, _ | _, NaN => NaN
  | Finite x, Finite y => to_float (x - y)%Q
  | Finite _, Infinite s => Infinite (negb s)
  | Infinite s, Finite _ => Infinite s
  | Infinite s, Infinite t => if Bool.eqb s t then NaN else Infinite s
  end.

Definition float_mul (a b : float) : float :=
  match a, b with
  | NaN, _ | _, NaN => NaN
  | Finite x, Finite y => to_float (x * y)%Q
  | Finite x, Infinite s | Infinite s, Finite x =>
      if Qeq_bool x 0 then NaN else Infinite (xorb s (is_neg x))
  | Infinite s, Infinite t => Infinite (xorb s t)
  end.

Definition float_truediv (a b : float) : result float :=
  match b with
  | Finite y =>
      if Qeq_bool y 0 then Raise ZeroDivisionError
      else match a with
           | Finite x => Ok (to_float (x / y)%Q)
           | Infinite s => Ok (Infinite (xorb s (is_neg y)))
           | NaN => Ok NaN
           end
  | Infinite _ =>
      match a with
      | Finite _ => Ok (Finite 0)
      | _ => Ok NaN
      end
  | NaN => Ok NaN
  end.

Definition float_abs (a : float) : float :=
  match a with
  | Finite x => Finite (Qabs x)
  | Infinite _ => Infinite false
  | NaN => NaN
  end.

Definition float_lt (a b : float) : bool :=
  match a, b with
  | NaN, _ | _, NaN => false
  | Finite x, Finite y => Qlt_bool x y
  | Finite _, Infinite s => negb s
  | Infinite s, Finite _ => s
  | Infinite s, Infinite t => s && negb t
  end.

Definition float_le (a b : float) : bool :=
  match a, b with
  | NaN, _ | _, NaN => false
  | Finite x, Finite y => Qle_bool x y
  | Finite _, Infinite s => negb s
  | Infinite s, Finite _ => s
  | Infinite s, Infinite t => s || negb t
  end.

Definition float_gt (a b : float) : bool := float_lt b a.
Definition float_ge (a b : float) : bool := float_le b a.

(** [min(a, b)] and [max(a, b)]: the first argument unless the second is
    strictly better. *)
Definition min (a b : float) : float := if float_lt b a then b else a.
Definition max (a b : float) : float := if float_gt b a then b else a.

(** [round(x)] with one argument: nearest int, ties to even. *)
Definition round (a : float) : result Z :=
  match a with
  | Finite x => Ok (rne x)
  | Infinite _ => Raise OverflowError
  | NaN => Raise ValueError
  end.

Definition floor (a : float) : result Z :=
  match a with
  | Finite x => Ok (Qfloor x)
  | Infinite _ => Raise OverflowError
  | NaN => Raise ValueError
  end.

Definition ceil (a : float) : result Z :=
  match a with
  | Finite x => Ok (Qceiling x)
  | Infinite _ => Raise OverflowError
  | NaN => Raise ValueError
  end.

(** [int * float] and [int / float]: the int is converted first. *)
Definition int_mul_float (n : Z) (a : float) : result float :=
  nf ← float_of_int n; Ok (float_mul nf a).

Definition int_div_float (n : Z) (a : float) : result float :=
  nf ← float_of_int n; float_truediv nf a.

(** Truthiness of an [int | None] and the value of [o or d]. *)
Definition truthy (o : option Z) : bool :=
  match o with Some n => negb (n =? 0)%Z | None => false end.

Definition or_else (o : option Z) (d : Z) : Z :=
  match o with Some n => if (n =? 0)%Z then d else n | None => d end.

(** [str.lower()] on strings of code points below 256. *)
Definition lower_char (c : ascii) : ascii :=
  let n := nat_of_ascii c in
  if ((65 <=? n) && (n <=? 90))%nat
     || ((192 <=? n) && (n <=? 222) && negb (n =? 215))%nat
  then ascii_of_nat (n + 32) else c.

Fixpoint lower (s : string) : string :=
  match s with
  | EmptyString => EmptyString
  | String c s' => String (lower_char c) (lower s')
  end.

End Py.

(** ** The imaging library, as far as the engine relies on it

    Pillow is not part of the repository. What follows is the behaviour of
    the calls the engine makes, after Pillow's [Image] module: sizes only,
    the pixels being opaque. [crop] refuses a box with [right < left] or
    [lower < upper] (Pillow 9.5 and later), [resize] refuses a target
    dimension below one, and [thumbnail] computes its size with
    [preserve_aspect_ratio] and [round_aspect] (Pillow 7.1 and later).

    Two things are outside the model. The memory that an image takes:
    Pillow raises [MemoryError] for a line of more than [INT_MAX / 4 - 1]
    pixels and whenever an allocation fails, where [new] and [resample]
    below return. And the mode of an image: [Resampled src size filter]
    records the filter that is passed to [Image.resize], which Pillow
    replaces by [NEAREST] on images of the modes "P" and "1". *)

Module PIL.
Import Binary64 Py.

(** [Image.NEAREST], [Image.LANCZOS], [Image.BILINEAR], [Image.BICUBIC]. *)
Inductive Resampling := NEAREST | LANCZOS | BILINEAR | BICUBIC.

Definition Resampling_value (f : Resampling) : Z :=
  match f with NEAREST => 0 | LANCZOS => 1 | BILINEAR => 2 | BICUBIC => 3 end.

(** Pixel buffers are opaque; the term records where the pixels come from. *)
Inductive pixels :=
| Raw (n : nat)
| Cropped (src : pixels) (box : Z * Z * Z * Z)
| Resampled (src : pixels) (size : Z * Z) (filter : Resampling)
| Solid (color : Z * Z * Z)
| Pasted (canvas im : pixels) (x y : Z).

Record image := Image { width : Z; height : Z; data : pixels }.

(** Object identity is the index in the heap; allocation appends. *)
Definition ref := nat.
Abbreviation heap := (list image).

(** [Invalid]: the handle names no object (no Python program gets there). *)
Inductive outcome (A : Type) :=
| Returns (a : A) (h : heap)
| Raises (e : exn)
| Invalid.
Arguments Returns {A} a h.
Arguments Raises {A} e.
Arguments Invalid {A}.

Definition M (A : Type) : Type := heap -> outcome A.

#[export] Instance M_ret : MRet M := fun A a h => Returns a h.
#[export] Instance M_bind : MBind M := fun A B f m h =>
  match m h with
  | Returns a h' => f a h'
  | Raises e => Raises e
  | Invalid => Invalid
  end.

Definition lift {A} (r : result A) : M A := fun h =>
  match r with Ok a => Returns a h | Raise e => Raises e end.

Definition get (r : ref) : M image := fun h =>
  match h !! r with Some i => Returns i h | None => Invalid end.

Definition alloc (i : image) : M ref := fun h => Returns (length h) (h ++ [i]).

Definition put (r : ref) (i : image) : M unit := fun h =>
  match h !! r with Some _ => Returns tt (<[r := i]> h) | None => Invalid end.

Definition size (r : ref) : M (Z * Z) :=
  i ← get r; mret (width i, height i).

(** [Image.copy]. *)
Definition copy (r : ref) : M ref := i ← get r; alloc i.

(** [Image.crop(box)]: a new image of the size of the box; a box whose right
    (lower) edge is before its left (upper) edge is refused. *)
Definition crop (r : ref) (box : Z * Z * Z * Z) : M ref :=
  i ← get r;
  let '(x0, y0, x1, y1) := box in
  if ((x1 <? x0) || (y1 <? y0))%Z then lift (Raise ValueError)
  else alloc (Image (x1 - x0) (y1 - y0) (Cropped (data i) box)).

(** The resampling core: "height and width must be > 0". The filter
    recorded is the one requested. *)
Definition resample (i : image) (sz : Z * Z) (f : Resampling) : result image :=
  if ((sz.1 <? 1) || (sz.2 <? 1))%Z then Raise ValueError
  else Ok (Image sz.1 sz.2 (Resampled (data i) sz f)).

Definition same_size (i : image) (sz : Z * Z) : bool :=
  ((width i =? sz.1) && (height i =? sz.2))%Z.

(** [Image.resize(size, resample)]: always a new object; a copy when the
    size is already the requested one. *)
Definition resize (r : ref) (sz : Z * Z) (f : Resampling) : M ref :=
  i ← get r;
  if same_size i sz then alloc i
  else i' ← lift (resample i sz f); alloc i'.

(** [Image.new("RGB", size, color)]: a negative dimension is refused; the
    allocation itself is taken to succeed. *)
Definition new (sz : Z * Z) (color : Z * Z * Z) : M ref :=
  if ((sz.1 <? 0) || (sz.2 <? 0))%Z then lift (Raise ValueError)
  else alloc (Image sz.1 sz.2 (Solid color)).

(** [canvas.paste(im, (x, y))]: updates [canvas] in place. *)
Definition paste (canvas im : ref) (at_ : Z * Z) : M unit :=
  c ← get canvas;
  i ← get im;
  put canvas (Image (width c) (height c) (Pasted (data c) (data i) at_.1 at_.2)).

(** [Image.thumbnail]: the size that preserves the aspect ratio. *)
Definition round_aspect (number : float) (key : Z -> result float) : result Z :=
  lo ← floor number;
  hi ← ceil number;
  klo ← key lo;
  khi ← key hi;
  Ok (Z.max (if float_lt khi klo then hi else lo) 1).

Definition preserve_aspect_ratio (i : image) (x y : Z) : result (option (Z * Z)) :=
  if ((width i <=? x) && (height i <=? y))%Z then Ok None
  else
    aspect ← int_truediv (width i) (height i);
    xy ← int_truediv x y;
    if float_ge xy aspect then
      number ← int_mul_float y aspect;
      x' ← round_aspect number
             (fun n => q ← int_truediv n y; Ok (float_abs (float_sub aspect q)));
      Ok (Some (x', y))
    else
      number ← int_div_float x aspect;
      y' ← round_aspect number
             (fun n => if (n =? 0)%Z then Ok (Finite 0)
                       else q ← int_truediv x n; Ok (float_abs (float_sub aspect q)));
      Ok (Some (x, y')).

(** [Image.thumbnail(size, resample)]: shrinks the image in place to fit
    [size]; an image that already fits is left alone (never enlarged). *)
Definition thumbnail (r : ref) (sz : Z * Z) (f : Resampling) : M unit :=
  i ← get r;
  final ← lift (preserve_aspect_ratio i sz.1 sz.2);
  match final with
  | None => mret tt
  | Some final_size =>
      if same_size i final_size then mret tt
      else i' ← lift (resample i final_size f); put r i'
  end.

End PIL.

(** ** io_utils.map_resample *)

Import Binary64 Py PIL.

Definition map_resample (name : option string) : Resampling :=
  let name_lower := lower (match name with Some s => s | None => "" end)%string in
  if String.eqb name_lower "nearest" then NEAREST
  else if String.eqb name_lower "bilinear" then BILINEAR
  else if String.eqb name_lower "bicubic" then BICUBIC
  else LANCZOS.

(** ** config.Constraints *)

Record Constraints := {
  min_width : option Z;
  min_height : option Z;
  max_width : option Z;
  max_height : option Z;
  allow_upscale : bool
}.

(** ** resize.py *)

(** The literals [1e-6] and [1.0]. *)
Definition tolerance : float := Finite (rnd (1 # 1000000)).
Definition one : float := Finite 1.

Definition within_tolerance (a b : float) : bool :=
  float_lt (float_abs (float_sub a b)) tolerance.

Definition center_crop_to_aspect (image : ref) (target_aspect : float) : M ref :=
  '(width, height) ← size image;
  current_aspect ← lift (int_truediv width height);
  if within_tolerance current_aspect target_aspect then mret image
  else if float_gt current_aspect target_aspect then
    new_width ← lift (v ← int_mul_float height target_aspect; round v);
    let x0 := ((width - new_width) / 2)%Z in
    crop image (x0, 0, x0 + new_width, height)%Z
  else
    new_height ← lift (v ← int_div_float width target_aspect; round v);
    let y0 := ((height - new_height) / 2)%Z in
    crop image (0, y0, width, y0 + new_height)%Z.

Definition resize_to_exact (image : ref) (size : Z * Z) (resample : option string)
  : M ref :=
  resize image size (map_resample resample).

(** Lines 107 and 114: the two candidate scales. *)
Definition scale_down (c : Constraints) (width height : Z) : result float :=
  let max_w := or_else (max_width c) width in
  let max_h := or_else (max_height c) height in
  a ← int_truediv max_w width; b ← int_truediv max_h height; Ok (min a b).

Definition scale_up (c : Constraints) (width height : Z) : result float :=
  let min_w := or_else (min_width c) width in
  let min_h := or_else (min_height c) height in
  a ← int_truediv min_w width; b ← int_truediv min_h height; Ok (max a b).

(** Lines 101-115: the scale that [resize_within_bounds] applies. *)
Definition bounds_scale (c : Constraints) (width height : Z) : result float :=
  let scale := one in
  scale ← (if truthy (max_width c) || truthy (max_height c)
           then sd ← scale_down c width height; Ok (min scale sd)
           else Ok scale);
  scale ← (if allow_upscale c && (truthy (min_width c) || truthy (min_height c))
           then su ← scale_up c width height; Ok (max scale su)
           else Ok scale);
  Ok scale.

Definition scaled (n : Z) (scale : float) : result Z :=
  v ← int_mul_float n scale; r ← round v; Ok (Z.max 1 r).

Definition resize_within_bounds (image : ref) (constraints : Constraints)
    (resample : option string) : M ref :=
  '(width, height) ← size image;
  scale ← lift (bounds_scale constraints width height);
  if within_tolerance scale one then mret image
  else
    new_w ← lift (scaled width scale);
    new_h ← lift (scaled height scale);
    resize image (new_w, new_h) (map_resample resample).

Definition letterbox_to_aspect (image : ref) (target_size : Z * Z)
    (fill : Z * Z * Z) (resample : option string) : M ref :=
  let '(target_w, target_h) := target_size in
  img ← copy image;
  _ ← thumbnail img (target_w, target_h) (map_resample resample);
  canvas ← new (target_w, target_h) fill;
  '(img_width, img_height) ← size img;
  let x := ((target_w - img_width) / 2)%Z in
  let y := ((target_h - img_height) / 2)%Z in
  _ ← paste canvas img (x, y);
  mret canvas.

(** ** config.ACCEPTED_SHAPES

    The table of canonical resolutions, in the order of the source, and the
    dict [CONFIG.accepted_shapes] built from it. *)

Definition ACCEPTED_SHAPES : list (string * (Z * Z)) :=
  [("1:1", (1024, 1024)); ("3:4", (896, 1152)); ("5:8", (832, 1216));
   ("9:16", (768, 1344)); ("9:21", (640, 1536)); ("4:3", (1152, 896));
   ("8:5", (1216, 832)); ("16:9", (1344, 768)); ("21:9", (1536, 640))]%string%Z.

Definition accepted_shapes : gmap string (Z * Z) := list_to_map ACCEPTED_SHAPES.

(** ** crop_auto.py *)

Definition auto_crop_image_to_shape (image : ref) (target_size : Z * Z)
    (resample : option string) : M ref :=
  target_aspect ← lift (int_truediv target_size.1 target_size.2);
  cropped ← center_crop_to_aspect image target_aspect;
  resize_to_exact cropped target_size resample.

(** [process_auto_crop_batch] for one loaded image: the check of the shape
    label (lines 72-75) and the call of line 85. Listing the directory,
    loading and saving are left out. *)
Definition process_auto_crop_batch (shape_label : string) (resample : option string)
    (image : ref) : M ref :=
  match accepted_shapes !! shape_label with
  | None => lift (Raise ValueError)
  | Some target_size => auto_crop_image_to_shape image target_size resample
  end.

(** ** main.cmd_scale

    Lines 117-125, what [cmd_scale] does to one loaded image; [target] is
    the resolution that [_resolve_shape] returned and [constraints] the
    bounds given on the command line. *)

Definition cmd_scale (target : Z * Z) (constraints : Constraints) (letterbox : bool)
    (resample : option string) (img : ref) : M ref :=
  let '(target_w, target_h) := target in
  img ← resize_within_bounds img constraints resample;
  if letterbox then
    letterbox_to_aspect img (target_w, target_h) (0, 0, 0)%Z resample
  else
    aspect ← lift (int_truediv target_w target_h);
    cropped ← center_crop_to_aspect img aspect;
    resize_to_exact cropped (target_w, target_h) resample.

(** ** io_utils.aspect_ratio and the keyword arguments of io_utils.save_image *)

Definition aspect_ratio (width height : Z) : result float :=
  w ← float_of_int width; h ← float_of_int height; float_truediv w h.

(** The values that [save_image] puts in [params]. *)
Inductive value := Bytes (b : list Byte.byte) | Int (n : Z) | Boolean (b : bool).

(** [params.update(d)]: the entries of [d] replace those of [params]. *)
Definition update (d params : gmap string value) : gmap string value := d ∪ params.

(** Lines 112-126: the keyword arguments passed to [Image.save]; [suffix] is
    [dest_path.suffix]. *)
Definition save_params (suffix : string) (keep_metadata : bool)
    (original_exif : option (list Byte.byte)) (quality : option Z)
  : gmap string value :=
  let params : gmap string value := ∅ in
  let params :=
    match original_exif with
    | Some (b :: bs) =>
        if keep_metadata then <["exif"%string := Bytes (b :: bs)]> params else params
    | _ => params
    end in
  let ext := lower suffix in
  if String.eqb ext ".jpg" || String.eqb ext ".jpeg" then
    update (list_to_map [("quality"%string, Int (or_else quality 95));
                         ("subsampling"%string, Int 0);
                         ("optimize"%string, Boolean true)]) params
  else if String.eqb ext ".png" then
    update (list_to_map [("optimize"%string, Boolean true)]) params
  else if String.eqb ext ".webp" then
    update (list_to_map [("quality"%string, Int (or_else quality 95))]) params
  else if String.eqb ext ".avif" then
    update (list_to_map [("quality"%string, Int (or_else quality 90))]) params
  else params.

(** ** crop_manual_gui.py

    The geometry of the manual cropper: the state of the session and the
    handlers that compute with it. Widgets, drawing and files are left
    out; the size of the canvas widget and the mouse events are inputs. *)

(** [int(x)] of a float: truncation toward zero. *)
Definition int_of_float (a : float) : result Z :=
  match a with
  | Finite x => Ok (Z.quot (Qnum x) (Zpos (Qden x)))
  | Infinite _ => Raise OverflowError
  | NaN => Raise ValueError
  end.

(** [CropState], without the path and the EXIF bytes. *)
Record CropState := {
  pil_image : ref;
  display_image : ref;
  display_scale : float;
  rect : Z * Z * Z * Z;
  shape_label : string
}.

(** The attributes of [ManualCropperApp] that the handlers read and write. *)
Record ManualCropperApp := {
  current : option CropState;
  drag_offset : option (Z * Z)
}.

Definition set_rect (cur : CropState) (r : Z * Z * Z * Z) : CropState :=
  {| pil_image := pil_image cur; display_image := display_image cur;
     display_scale := display_scale cur; rect := r; shape_label := shape_label cur |}.

(** [max(1, int(winfo) or default)]. *)
Definition canvas_extent (winfo default : Z) : Z :=
  Z.max 1 (if (winfo =? 0)%Z then default else winfo).

Definition _build_state (winfo_width winfo_height : Z) (label : string) (pil : ref)
  : M CropState :=
  let canvas_w := canvas_extent winfo_width 1024 in
  let canvas_h := canvas_extent winfo_height 768 in
  '(width, height) ← size pil;
  scale ← lift (a ← int_truediv canvas_w width;
                b ← int_truediv canvas_h height;
                Ok (min (min a b) one));
  disp_w ← lift (v ← int_mul_float width scale; round v);
  disp_h ← lift (v ← int_mul_float height scale; round v);
  display ← resize pil (disp_w, disp_h) LANCZOS;
  mret {| pil_image := pil; display_image := display; display_scale := scale;
          rect := (0, 0, disp_w, disp_h)%Z; shape_label := label |}.

(** [target] is [CONFIG.accepted_shapes[self.shape_label]] (line 250). *)
Definition _reset_rect_to_center (target : Z * Z) (self : ManualCropperApp)
  : M ManualCropperApp :=
  match current self with
  | None => mret self
  | Some cur =>
      '(disp_w, disp_h) ← size (display_image cur);
      let '(target_w, target_h) := target in
      target_aspect ← lift (int_truediv target_w target_h);
      disp_aspect ← lift (int_truediv disp_w disp_h);
      '(rect_w, rect_h) ←
        (if float_ge disp_aspect target_aspect then
           rect_w ← lift (v ← int_mul_float disp_h target_aspect; round v);
           mret (rect_w, disp_h)
         else
           rect_h ← lift (v ← int_div_float disp_w target_aspect; round v);
           mret (disp_w, rect_h));
      let x0 := ((disp_w - rect_w) / 2)%Z in
      let y0 := ((disp_h - rect_h) / 2)%Z in
      mret {| current := Some (set_rect cur (x0, y0, x0 + rect_w, y0 + rect_h)%Z);
              drag_offset := drag_offset self |}
  end.

(** [load_current], lines 222-223, for the image [pil] that was loaded. *)
Definition load_current (winfo_width winfo_height : Z) (label : string)
    (target : Z * Z) (pil : ref) (self : ManualCropperApp) : M ManualCropperApp :=
  state ← _build_state winfo_width winfo_height label pil;
  _reset_rect_to_center target
    {| current := Some state; drag_offset := drag_offset self |}.

Definition _move_rect_to (x y : Z) (self : ManualCropperApp) : M ManualCropperApp :=
  match current self with
  | None => mret self
  | Some cur =>
      '(disp_w, disp_h) ← size (display_image cur);
      let '(x0, y0, x1, y1) := rect cur in
      let rect_w := (x1 - x0)%Z in
      let rect_h := (y1 - y0)%Z in
      let nx0 := Z.max 0 (Z.min (disp_w - rect_w) x) in
      let ny0 := Z.max 0 (Z.min (disp_h - rect_h) y) in
      mret {| current := Some (set_rect cur (nx0, ny0, nx0 + rect_w, ny0 + rect_h)%Z);
              drag_offset := drag_offset self |}
  end.

(** The two mouse handlers; [event] is [(event.x, event.y)]. *)
Definition on_mouse_down (event : Z * Z) (self : ManualCropperApp)
  : M ManualCropperApp :=
  match current self with
  | None => mret self
  | Some cur =>
      let '(x0, y0, x1, y1) := rect cur in
      if ((x0 <=? event.1) && (event.1 <=? x1) && (y0 <=? event.2) && (event.2 <=? y1))%Z
      then mret {| current := current self;
                   drag_offset := Some (event.1 - x0, event.2 - y0)%Z |}
      else
        off_x ← lift (v ← int_truediv (x1 - x0) 2; int_of_float v);
        off_y ← lift (v ← int_truediv (y1 - y0) 2; int_of_float v);
        _move_rect_to (event.1 - off_x) (event.2 - off_y)
          {| current := current self; drag_offset := Some (off_x, off_y) |}
  end.

Definition on_mouse_drag (event : Z * Z) (self : ManualCropperApp)
  : M ManualCropperApp :=
  match current self, drag_offset self with
  | Some _, Some (off_x, off_y) =>
      _move_rect_to (event.1 - off_x) (event.2 - off_y) self
  | _, _ => mret self
  end.

(** The bindings of lines 119-120: what the canvas does with an event. *)
Inductive event := ButtonPress (x y : Z) | Motion (x y : Z).

Definition dispatch (e : event) (self : ManualCropperApp) : M ManualCropperApp :=
  match e with
  | ButtonPress x y => on_mouse_down (x, y) self
  | Motion x y => on_mouse_drag (x, y) self
  end.

Fixpoint mainloop (events : list event) (self : ManualCropperApp)
  : M ManualCropperApp :=
  match events with
  | [] => mret self
  | e :: events' => self' ← dispatch e self; mainloop events' self'
  end.

(** [on_save], lines 171-181: the rectangle mapped back to the source, the
    crop and the resize; [target_size] is
    [CONFIG.accepted_shapes[self.shape_label]]. *)
Definition on_save (target_size : Z * Z) (cur : CropState) : M ref :=
  let '(x0, y0, x1, y1) := rect cur in
  scale ← lift (float_truediv one (display_scale cur));
  crop_box ← lift (a ← (v ← int_mul_float x0 scale; round v);
                   b ← (v ← int_mul_float y0 scale; round v);
                   c ← (v ← int_mul_float x1 scale; round v);
                   d ← (v ← int_mul_float y1 scale; round v);
                   Ok (a, b, c, d));
  cropped ← crop (pil_image cur) crop_box;
  resize_to_exact cropped target_size (Some "lanczos"%string).

(** Unfolding of the two monads in a goal. *)
Ltac run_M := unfold mbind, M_bind, mret, M_ret.

(** ** Vocabulary of the statements *)

Section Vocabulary.
Local Open Scope Q_scope.

(** A dimension of an image the library can hold: positive, and below the
    [2^31] of the C [int] in which Pillow keeps sizes. *)
Definition dim (n : Z) : Prop := (0 < n < 2 ^ 31)%Z.

Definition valid_dims (i : image) : Prop := dim (width i) /\ dim (height i).

(** The relative rounding error of binary64, [2^-53]. *)
Definition eps : Q := 1 # 9007199254740992.

(** [fresh h h' r]: [r] names an object allocated between [h] and [h']. *)
Definition fresh (h h' : heap) (r : ref) : Prop := (length h <= r < length h')%nat.

(** The candidate that [round_aspect] picks between [floor v] and
    [ceil v], given the value [kv n] of the key at each candidate. *)
Definition chosen (v : Q) (kv : Z -> Q) : Z :=
  Z.max (if Qlt_bool (kv (Qceiling v)) (kv (Qfloor v)) then Qceiling v else Qfloor v) 1.

(** Keys of the two branches, as rationals. *)
Definition key_width (A : Q) (y n : Z) : Q :=
  Qabs (rnd (A - rnd (inject_Z n / inject_Z y))).

Definition key_height (A : Q) (x n : Z) : Q :=
  if (n =? 0)%Z then 0 else Qabs (rnd (A - rnd (inject_Z x / inject_Z n))).

(** The image that [thumbnail] leaves in place of [img], given the size
    computed by [preserve_aspect_ratio]. *)
Definition thumb (img : image) (res : option (Z * Z)) (f : Resampling) : image :=
  match res with
  | None => img
  | Some sz =>
      if same_size img sz then img else Image sz.1 sz.2 (Resampled (data img) sz f)
  end.

(** Values of the kernel's own binary64 floats, to compare [rnd] with. *)
Definition SF2Q (s : SpecFloat.spec_float) : option Q :=
  match s with
  | SpecFloat.S754_zero _ => Some 0
  | SpecFloat.S754_finite sg m e =>
      Some (Qred (inject_Z (if sg then Zneg m else Zpos m) * pow2 e))
  | _ => None
  end.

Definition hw (n : Z) : PrimFloat.float := PrimFloat.of_uint63 (Uint63.of_Z n).

Definition hw_value (f : PrimFloat.float) : option Q := SF2Q (FloatOps.Prim2SF f).

(** [rect_inside disp rc]: the rectangle lies within the displayed image. *)
Definition rect_inside (disp : image) (rc : Z * Z * Z * Z) : Prop :=
  let '(x0, y0, x1, y1) := rc in
  (0 <= x0 <= x1)%Z /\ (x1 <= width disp)%Z /\ (0 <= y0 <= y1)%Z /\ (y1 <= height disp)%Z.

(** Width and height of a rectangle. *)
Definition rect_size (rc : Z * Z * Z * Z) : Z * Z :=
  let '(x0, y0, x1, y1) := rc in ((x1 - x0)%Z, (y1 - y0)%Z).

(** The extensions for which [save_image] sets a quality. *)
Definition lossy (ext : string) : bool :=
  String.eqb ext ".jpg" || String.eqb ext ".jpeg" || String.eqb ext ".webp"
  || String.eqb ext ".avif".

End Vocabulary.

(** ** Facts about binary64 rounding *)

Section Binary64Facts.
Import Binary64.
Local Open Scope Q_scope.

Lemma pow2_pos e : 0 < pow2 e.
Proof. apply Qpower_0_lt. reflexivity. Qed.

Lemma pow2_add a b : pow2 (a + b) == pow2 a * pow2 b.
Proof. apply Qpower_plus. discriminate. Qed.

Lemma pow2_cancel a : pow2 a * pow2 (- a) == 1.
Proof. rewrite <- pow2_add, Z.add_opp_diag_r. reflexivity. Qed.

Lemma pow2_le a b : (a <= b)%Z -> pow2 a <= pow2 b.
Proof. intros H. apply Qpower_le_compat_l; [exact H | discriminate]. Qed.

Lemma pow2_lt a b : (a < b)%Z -> pow2 a < pow2 b.
Proof. intros H. apply Qpower_lt_compat_l; [exact H | reflexivity]. Qed.

Lemma pow2_lt_inv a b : pow2 a < pow2 b -> (a < b)%Z.
Proof. intros H. apply (Qpower_lt_compat_l_inv 2); [exact H | reflexivity]. Qed.

Lemma pow2_Z a : (0 <= a)%Z -> pow2 a == inject_Z (2 ^ a).
Proof. intros H. unfold pow2. rewrite Zpower_Qpower by exact H. reflexivity. Qed.

Lemma pow2_succ a : pow2 (a + 1) == 2 * pow2 a.
Proof. rewrite pow2_add. change (pow2 1) with 2. ring. Qed.

Lemma pow2_pred a : pow2 (a - 1) == (1 # 2) * pow2 a.
Proof.
  unfold Z.sub. rewrite pow2_add. change (pow2 (-1)) with (1 # 2). apply Qmult_comm.
Qed.

Lemma inject_Z_lt a b : (a < b)%Z -> inject_Z a < inject_Z b.
Proof. intros. rewrite <- Zlt_Qlt. assumption. Qed.
Lemma inject_Z_le a b : (a <= b)%Z -> inject_Z a <= inject_Z b.
Proof. intros. rewrite <- Zle_Qle. assumption. Qed.

Lemma Qabs_num_den x : Qabs x * inject_Z (Zpos (Qden x)) == inject_Z (Z.abs (Qnum x)).
Proof.
  destruct x as [n d]. unfold Qabs, Qeq, Qmult, inject_Z. simpl. lia.
Qed.

Lemma mag_spec x : ~ x == 0 -> pow2 (mag x - 1) <= Qabs x /\ Qabs x < pow2 (mag x).
Proof.
  intros Hx.
  assert (Hn : (0 < Z.abs (Qnum x))%Z).
  { destruct x as [n d]. unfold Qeq in Hx. simpl in *. lia. }
  pose proof (Qabs_num_den x) as HX.
  pose proof (Z.log2_spec _ Hn) as [Ha1 Ha2].
  pose proof (Z.log2_spec (Zpos (Qden x)) ltac:(lia)) as [Hb1 Hb2].
  pose proof (Z.log2_nonneg (Z.abs (Qnum x))) as Ha0.
  pose proof (Z.log2_nonneg (Zpos (Qden x))) as Hb0.
  apply inject_Z_le in Ha1, Hb1. apply inject_Z_lt in Ha2, Hb2.
  rewrite <- pow2_Z in Ha1, Ha2, Hb1, Hb2 by lia.
  unfold mag.
  set (a := Z.log2 (Z.abs (Qnum x))) in *. set (b := Z.log2 (Zpos (Qden x))) in *.
  set (N := inject_Z (Z.abs (Qnum x))) in *. set (D := inject_Z (Zpos (Qden x))) in *.
  set (X := Qabs x) in *.
  assert (HD : 0 < D) by (pose proof (pow2_pos b); lra).
  assert (HX0 : 0 <= X) by apply Qabs_nonneg.
  assert (Hk : pow2 (a - b) * pow2 b == pow2 a).
  { rewrite <- pow2_add. replace (a - b + b)%Z with a by lia. reflexivity. }
  pose proof (pow2_pos (a - b)) as Hkp. pose proof (pow2_pos b) as Hbp.
  assert (Hsa : pow2 (Z.succ a) == 2 * pow2 a) by (unfold Z.succ; apply pow2_succ).
  assert (Hsb : pow2 (Z.succ b) == 2 * pow2 b) by (unfold Z.succ; apply pow2_succ).
  rewrite Hsa in Ha2. rewrite Hsb in Hb2.
  destruct (Qle_bool (pow2 (a - b)) X) eqn:E.
  - apply Qle_bool_iff in E. replace (a - b + 1 - 1)%Z with (a - b)%Z by lia.
    split; [exact E|]. rewrite pow2_succ. 
    apply Qnot_le_lt. intros Hc.
    assert (2 * pow2 (a - b) * pow2 b <= X * D) by nra. nra.
  - assert (E' : X < pow2 (a - b)).
    { apply Qnot_le_lt. intros Hc. apply Qle_bool_iff in Hc. congruence. }
    split; [|exact E']. rewrite pow2_pred.
    apply Qnot_lt_le. intros Hc.
    assert (Hc' : 2 * X < pow2 (a - b)) by lra.
    assert (H1 : 2 * X * D < pow2 (a - b) * D) by (apply Qmult_lt_compat_r; assumption).
    assert (H2 : pow2 (a - b) * D < pow2 (a - b) * (2 * pow2 b)) by (apply Qmult_lt_l; assumption).
    lra.
Qed.

Lemma mag_unique x k : pow2 (k - 1) <= Qabs x -> Qabs x < pow2 k -> mag x = k.
Proof.
  intros H1 H2.
  assert (Hx : ~ x == 0).
  { intros E. rewrite E in H1. pose proof (pow2_pos (k - 1)). 
    change (Qabs 0) with 0 in H1. lra. }
  destruct (mag_spec x Hx) as [H3 H4].
  assert (k - 1 < mag x)%Z by (apply pow2_lt_inv; lra).
  assert (mag x - 1 < k)%Z by (apply pow2_lt_inv; lra).
  lia.
Qed.

Lemma mag_comp x y : x == y -> ~ x == 0 -> mag x = mag y.
Proof.
  intros E Hx. symmetry. destruct (mag_spec x Hx) as [H1 H2].
  apply mag_unique; rewrite <- E; assumption.
Qed.

Lemma mag_le x y : ~ x == 0 -> Qabs x <= Qabs y -> (mag x <= mag y)%Z.
Proof.
  intros Hx Hxy.
  assert (Hy : ~ y == 0).
  { intros E. rewrite E in Hxy. change (Qabs 0) with 0 in Hxy.
    pose proof (Qabs_nonneg x) as Hn. assert (Hz : Qabs x == 0) by lra.
    apply Hx. revert Hz. apply Qabs_case; intros; lra. }
  destruct (mag_spec x Hx) as [H1 H2]. destruct (mag_spec y Hy) as [H3 H4].
  assert (mag x - 1 < mag y)%Z by (apply pow2_lt_inv; lra). lia.
Qed.

(** Rounding to the nearest integer, ties to even. *)

Lemma rne_cases x :
  let f := Qfloor x in
  inject_Z f <= x /\ x < inject_Z f + 1 /\
  ((x - inject_Z f < 1 # 2 /\ rne x = f) \/
   (x - inject_Z f == 1 # 2 /\ rne x = if Z.even f then f else (f + 1)%Z) \/
   (1 # 2 < x - inject_Z f /\ rne x = (f + 1)%Z)).
Proof.
  intros f. pose proof (Qfloor_le x) as H1. pose proof (Qlt_floor x) as H2.
  fold f in H1, H2. rewrite inject_Z_plus in H2. change (inject_Z 1) with 1 in H2.
  split; [exact H1|]. split; [exact H2|].
  unfold rne. fold f.
  destruct (Qcompare (x - inject_Z f) (1 # 2)) eqn:E.
  - right; left. split; [apply Qeq_alt; exact E | reflexivity].
  - left. split; [apply Qlt_alt; exact E | reflexivity].
  - right; right. split; [apply Qgt_alt; exact E | reflexivity].
Qed.

Lemma rne_error x : x - (1 # 2) <= inject_Z (rne x) /\ inject_Z (rne x) <= x + (1 # 2).
Proof.
  destruct (rne_cases x) as (H1 & H2 & [[H3 ->] | [[H3 ->] | [H3 ->]]]).
  - lra.
  - destruct (Z.even (Qfloor x)); rewrite ?inject_Z_plus; change (inject_Z 1) with 1; lra.
  - rewrite inject_Z_plus; change (inject_Z 1) with 1; lra.
Qed.

Lemma rne_Z n : rne (inject_Z n) = n.
Proof.
  destruct (rne_cases (inject_Z n)) as (H1 & H2 & [[H3 ->] | [[H3 E] | [H3 E]]]);
    rewrite Qfloor_Z in *; [reflexivity | lra | lra].
Qed.

Lemma rne_comp x y : x == y -> rne x = rne y.
Proof. intros E. unfold rne. rewrite (Qfloor_comp _ _ E), E. reflexivity. Qed.

Lemma rne_le x y : x <= y -> (rne x <= rne y)%Z.
Proof.
  intros Hxy. pose proof (Qfloor_resp_le _ _ Hxy) as Hf.
  destruct (rne_cases x) as (X1 & X2 & HX). destruct (rne_cases y) as (Y1 & Y2 & HY).
  destruct (Z.eq_dec (Qfloor x) (Qfloor y)) as [E | NE].
  - rewrite <- E in *. 
    destruct HX as [[H3 ->] | [[H3 ->] | [H3 ->]]];
    destruct HY as [[H4 ->] | [[H4 ->] | [H4 ->]]];
    try destruct (Z.even (Qfloor x)); try lia; try lra.
  - assert (rne x <= Qfloor x + 1)%Z.
    { destruct HX as [[H3 ->] | [[H3 ->] | [H3 ->]]]; try destruct (Z.even (Qfloor x)); lia. }
    assert (Qfloor y <= rne y)%Z.
    { destruct HY as [[H3 ->] | [[H3 ->] | [H3 ->]]]; try destruct (Z.even (Qfloor y)); lia. }
    lia.
Qed.

Lemma rne_nonneg x : 0 <= x -> (0 <= rne x)%Z.
Proof. intros H. change 0%Z with (rne (inject_Z 0)). apply rne_le. exact H. Qed.

Lemma rne_le_Z x n : x <= inject_Z n -> (rne x <= n)%Z.
Proof. intros H. rewrite <- (rne_Z n). apply rne_le, H. Qed.

Lemma rne_ge_Z x n : inject_Z n <= x -> (n <= rne x)%Z.
Proof. intros H. rewrite <- (rne_Z n) at 1. apply rne_le, H. Qed.

(** Rounding to binary64. *)

Lemma ulp_exp_comp x y : x == y -> ~ x == 0 -> ulp_exp x = ulp_exp y.
Proof. intros E Hx. unfold ulp_exp. rewrite (mag_comp x y E Hx). reflexivity. Qed.

Lemma rnd_eq x :
  rnd x == inject_Z (if Qle_bool 0 x then rne (Qabs x * pow2 (- ulp_exp x))
                     else (- rne (Qabs x * pow2 (- ulp_exp x)))%Z) * pow2 (ulp_exp x).
Proof. unfold rnd. apply Qred_correct. Qed.

Lemma rnd_eq_nonneg x :
  0 <= x -> rnd x == inject_Z (rne (x * pow2 (- ulp_exp x))) * pow2 (ulp_exp x).
Proof.
  intros H. rewrite rnd_eq. apply Qle_bool_iff in H as Hb. rewrite Hb.
  rewrite (rne_comp (Qabs x * _) (x * pow2 (- ulp_exp x))); [reflexivity|].
  rewrite Qabs_pos by exact H. reflexivity.
Qed.

Lemma rnd_0 x : x == 0 -> rnd x == 0.
Proof.
  intros E. rewrite rnd_eq_nonneg by lra.
  rewrite (rne_comp _ (inject_Z 0)); [rewrite rne_Z; ring|].
  change (inject_Z 0) with 0. generalize (pow2 (- ulp_exp x)). intros p.
  rewrite E. ring.
Qed.

Lemma rnd_comp x y : x == y -> rnd x = rnd y.
Proof.
  intros E.
  assert (H : rnd x == rnd y).
  { destruct (Qeq_dec x 0) as [Hx | Hx].
    - rewrite (rnd_0 x Hx), (rnd_0 y); [reflexivity | rewrite <- E; exact Hx].
    - rewrite !rnd_eq, <- (ulp_exp_comp x y E Hx).
      replace (Qle_bool 0 y) with (Qle_bool 0 x)
        by (apply Qleb_comp; [reflexivity | exact E]).
      replace (rne (Qabs y * pow2 (- ulp_exp x))) with (rne (Qabs x * pow2 (- ulp_exp x)));
        [reflexivity|].
      apply rne_comp, Qmult_comp; [apply Qabs_wd, E | reflexivity]. }
  unfold rnd. apply Qred_complete. rewrite <- !rnd_eq. exact H.
Qed.

Lemma mag_opp x : mag (- x) = mag x.
Proof.
  unfold mag. destruct x as [n d]. simpl Qnum. simpl Qden.
  rewrite Z.abs_opp. 
  rewrite (Qleb_comp _ _ (reflexivity _) (Qabs (- (n # d))) (Qabs (n # d)) (Qabs_opp _)).
  reflexivity.
Qed.

Lemma rnd_opp x : rnd (- x) == - rnd x.
Proof.
  destruct (Qeq_dec x 0) as [Hx | Hx].
  - rewrite (rnd_0 x Hx), (rnd_0 (- x)); [reflexivity | rewrite Hx; reflexivity].
  - rewrite !rnd_eq. unfold ulp_exp. rewrite mag_opp.
    rewrite (rne_comp (Qabs (- x) * _) (Qabs x * pow2 (- Z.max (mag x - 53) (-1074))))
      by (apply Qmult_comp; [apply Qabs_opp | reflexivity]).
    set (m := rne _). 
    destruct (Qle_bool 0 x) eqn:E1; destruct (Qle_bool 0 (- x)) eqn:E2.
    + apply Qle_bool_iff in E1, E2. exfalso. apply Hx. lra.
    + rewrite inject_Z_opp. ring.
    + rewrite inject_Z_opp. ring.
    + exfalso. destruct (Qlt_le_dec x 0) as [H | H].
      * assert (H' : 0 <= - x) by lra. apply Qle_bool_iff in H'. congruence.
      * apply Qle_bool_iff in H. congruence.
Qed.

Lemma rnd_nonneg x : 0 <= x -> 0 <= rnd x.
Proof.
  intros H. rewrite rnd_eq_nonneg by exact H.
  apply Qmult_le_0_compat; [|apply Qlt_le_weak, pow2_pos].
  change 0 with (inject_Z 0). apply inject_Z_le, rne_nonneg.
  apply Qmult_le_0_compat; [exact H | apply Qlt_le_weak, pow2_pos].
Qed.

Lemma scale_unscale x e : x * pow2 (- e) * pow2 e == x.
Proof. rewrite <- Qmult_assoc, (Qmult_comm (pow2 (- e))), pow2_cancel. ring. Qed.

Lemma rnd_le_nonneg x y : 0 <= x -> x <= y -> rnd x <= rnd y.
Proof.
  intros Hx Hxy.
  assert (Hy : 0 <= y) by lra.
  destruct (Qeq_dec x 0) as [Hx0 | Hx0].
  { rewrite (rnd_0 x Hx0). apply rnd_nonneg, Hy. }
  assert (Hy0 : ~ y == 0) by (intros E; apply Hx0; lra).
  assert (Hm : (mag x <= mag y)%Z).
  { apply mag_le; [exact Hx0 | rewrite !Qabs_pos by assumption; exact Hxy]. }
  destruct (mag_spec x Hx0) as [X1 X2]. destruct (mag_spec y Hy0) as [Y1 Y2].
  rewrite Qabs_pos in X1, X2, Y1, Y2 by assumption.
  rewrite (rnd_eq_nonneg x Hx), (rnd_eq_nonneg y Hy).
  pose proof (pow2_pos (ulp_exp x)) as Px. pose proof (pow2_pos (ulp_exp y)) as Py.
  pose proof (pow2_pos (- ulp_exp x)) as Px'. pose proof (pow2_pos (- ulp_exp y)) as Py'.
  destruct (Z.eq_dec (ulp_exp x) (ulp_exp y)) as [E | NE].
  - rewrite <- E. apply Qmult_le_compat_r; [|lra].
    apply inject_Z_le, rne_le. apply Qmult_le_compat_r; lra.
  - assert (Hlt : (ulp_exp x < ulp_exp y)%Z) by (unfold ulp_exp in *; lia).
    assert (Ey : ulp_exp y = (mag y - 53)%Z) by (unfold ulp_exp in *; lia).
    assert (Hmm : (mag x < mag y)%Z) by (unfold ulp_exp in *; lia).
    apply Qle_trans with (pow2 (mag y - 1)).
    + apply Qle_trans with (pow2 (mag x)); [|apply pow2_le; lia].
      destruct (Z_le_gt_dec (ulp_exp x) (mag x)) as [Hge | Hgt].
      * assert (Hb : x * pow2 (- ulp_exp x) <= inject_Z (2 ^ (mag x - ulp_exp x))).
        { rewrite <- pow2_Z by lia. 
          replace (mag x - ulp_exp x)%Z with (mag x + - ulp_exp x)%Z by lia.
          rewrite pow2_add. apply Qmult_le_compat_r; lra. }
        apply rne_le_Z, inject_Z_le in Hb. 
        rewrite <- pow2_Z in Hb by lia.
        apply Qle_trans with (pow2 (mag x - ulp_exp x) * pow2 (ulp_exp x)).
        -- apply Qmult_le_compat_r; lra.
        -- rewrite <- pow2_add. replace (mag x - ulp_exp x + ulp_exp x)%Z with (mag x) by lia.
           apply Qle_refl.
      * assert (Hb : x * pow2 (- ulp_exp x) <= 1 # 2).
        { apply Qle_trans with (pow2 (mag x) * pow2 (- ulp_exp x)).
          - apply Qmult_le_compat_r; lra.
          - rewrite <- pow2_add. change (1 # 2) with (pow2 (-1)). apply pow2_le. lia. }
        apply rne_le in Hb. change (rne (1 # 2)) with 0%Z in Hb.
        assert (H0 : (0 <= rne (x * pow2 (- ulp_exp x)))%Z).
        { apply rne_nonneg. apply Qmult_le_0_compat; lra. }
        replace (rne (x * pow2 (- ulp_exp x))) with 0%Z by lia.
        pose proof (pow2_pos (mag x)). change (inject_Z 0) with 0. lra.
    + assert (Hb : inject_Z (2 ^ 52) <= y * pow2 (- ulp_exp y)).
      { rewrite <- pow2_Z by lia. rewrite Ey.
        replace 52%Z with (mag y - 1 + - (mag y - 53))%Z at 1 by lia.
        rewrite pow2_add. apply Qmult_le_compat_r; [lra|].
        apply Qlt_le_weak, pow2_pos. }
      apply rne_ge_Z, inject_Z_le in Hb. rewrite <- pow2_Z in Hb by lia.
      apply Qle_trans with (pow2 52 * pow2 (ulp_exp y)).
      * rewrite <- pow2_add. apply pow2_le. lia.
      * apply Qmult_le_compat_r; lra.
Qed.

Lemma rnd_le x y : x <= y -> rnd x <= rnd y.
Proof.
  intros Hxy. destruct (Qlt_le_dec x 0) as [Hx | Hx]; destruct (Qlt_le_dec y 0) as [Hy | Hy].
  - assert (H : rnd (- y) <= rnd (- x)) by (apply rnd_le_nonneg; lra).
    rewrite !rnd_opp in H. lra.
  - assert (H : 0 <= rnd (- x)) by (apply rnd_nonneg; lra).
    rewrite rnd_opp in H. pose proof (rnd_nonneg y Hy). lra.
  - lra.
  - apply rnd_le_nonneg; assumption.
Qed.

Lemma rnd_repr_nonneg k j :
  (0 <= k < 2 ^ 53)%Z -> (-1074 <= j)%Z ->
  rnd (inject_Z k * pow2 j) == inject_Z k * pow2 j.
Proof.
  intros Hk Hj. set (x := inject_Z k * pow2 j).
  pose proof (pow2_pos j) as Pj.
  assert (Hk0 : 0 <= inject_Z k) by (change 0 with (inject_Z 0); apply inject_Z_le; lia).
  assert (Hx : 0 <= x) by (apply Qmult_le_0_compat; lra).
  destruct (Qeq_dec x 0) as [E | NE]; [rewrite (rnd_0 x E); symmetry; exact E|].
  destruct (mag_spec x NE) as [M1 M2]. rewrite Qabs_pos in M1, M2 by exact Hx.
  assert (Hlt : x < pow2 (53 + j)).
  { rewrite pow2_add. unfold x. apply Qmult_lt_compat_r; [exact Pj|].
    rewrite pow2_Z by lia. apply inject_Z_lt. lia. }
  assert (Hm : (mag x - 1 < 53 + j)%Z) by (apply pow2_lt_inv; lra).
  assert (He : (ulp_exp x <= j)%Z) by (unfold ulp_exp; lia).
  rewrite (rnd_eq_nonneg x Hx).
  assert (Hs : x * pow2 (- ulp_exp x) == inject_Z (k * 2 ^ (j - ulp_exp x))).
  { rewrite inject_Z_mult, <- pow2_Z by lia.
    replace (j - ulp_exp x)%Z with (j + - ulp_exp x)%Z by lia.
    rewrite pow2_add. unfold x. ring. }
  rewrite (rne_comp _ _ Hs), rne_Z, <- Hs. apply scale_unscale.
Qed.

Lemma rnd_repr k j :
  (Z.abs k < 2 ^ 53)%Z -> (-1074 <= j)%Z ->
  rnd (inject_Z k * pow2 j) == inject_Z k * pow2 j.
Proof.
  intros Hk Hj. destruct (Z_le_gt_dec 0 k) as [H | H].
  - apply rnd_repr_nonneg; lia.
  - assert (E : inject_Z k * pow2 j == - (inject_Z (- k) * pow2 j))
      by (rewrite inject_Z_opp; ring).
    rewrite (rnd_comp _ _ E), rnd_opp, rnd_repr_nonneg by lia.
    symmetry. exact E.
Qed.

Lemma rnd_Z n : (Z.abs n < 2 ^ 53)%Z -> rnd (inject_Z n) == inject_Z n.
Proof.
  intros H. assert (E : inject_Z n == inject_Z n * pow2 0) by (change (pow2 0) with 1; ring).
  rewrite (rnd_comp _ _ E), rnd_repr by lia. symmetry. exact E.
Qed.

Lemma rnd_abs_error x :
  Qabs (rnd x - x) <= (1 # 2) * pow2 (ulp_exp x).
Proof.
  assert (P : forall y, 0 <= y -> Qabs (rnd y - y) <= (1 # 2) * pow2 (ulp_exp y)).
  { intros y Hy. rewrite (rnd_eq_nonneg y Hy).
    pose proof (rne_error (y * pow2 (- ulp_exp y))) as [E1 E2].
    pose proof (pow2_pos (ulp_exp y)) as Pe.
    set (m := inject_Z (rne (y * pow2 (- ulp_exp y)))) in *.
    pose proof (scale_unscale y (ulp_exp y)) as Hs.
    set (s := y * pow2 (- ulp_exp y)) in *.
    apply Qabs_Qle_condition. split.
    - assert (H : (s - (1 # 2)) * pow2 (ulp_exp y) <= m * pow2 (ulp_exp y))
        by (apply Qmult_le_compat_r; lra). lra.
    - assert (H : m * pow2 (ulp_exp y) <= (s + (1 # 2)) * pow2 (ulp_exp y))
        by (apply Qmult_le_compat_r; lra). lra. }
  destruct (Qlt_le_dec x 0) as [Hx | Hx]; [|apply P, Hx].
  specialize (P (- x) ltac:(lra)). rewrite rnd_opp in P.
  unfold ulp_exp in *. rewrite mag_opp in P.
  assert (E : - rnd x - - x == - (rnd x - x)) by ring.
  rewrite E, Qabs_opp in P. exact P.
Qed.

Lemma rnd_rel_error x :
  pow2 (-1022) <= Qabs x -> Qabs (rnd x - x) <= Qabs x * pow2 (-53).
Proof.
  intros Hx.
  assert (NE : ~ x == 0).
  { intros E. rewrite E in Hx. change (Qabs 0) with 0 in Hx.
    pose proof (pow2_pos (-1022)). lra. }
  destruct (mag_spec x NE) as [M1 M2].
  assert (Hm : (-1022 < mag x)%Z) by (apply pow2_lt_inv; lra).
  eapply Qle_trans; [apply rnd_abs_error|].
  replace (ulp_exp x) with (mag x - 1 + -52)%Z by (unfold ulp_exp; lia).
  rewrite pow2_add. change (pow2 (-53)) with ((1 # 2) * pow2 (-52)).
  pose proof (pow2_pos (-52)). 
  assert (pow2 (mag x - 1) * pow2 (-52) <= Qabs x * pow2 (-52))
    by (apply Qmult_le_compat_r; lra).
  lra.
Qed.

End Binary64Facts.

(** [rnd] computes what the hardware computes: the same quotients,
    products and differences, evaluated by the kernel's binary64 floats. *)
Example rnd_agrees_with_hardware :
  hw_value (PrimFloat.div (hw 1) (hw 1000000)) = Some (rnd (1 # 1000000)) /\
  hw_value (PrimFloat.div (hw 1) (hw 49)) = Some (rnd (1 # 49)) /\
  hw_value (PrimFloat.mul (hw 49) (PrimFloat.div (hw 1) (hw 49)))
    = Some (rnd (49 * rnd (1 # 49))) /\
  hw_value (PrimFloat.div (hw 2000000) (hw 2000001)) = Some (rnd (2000000 # 2000001)) /\
  hw_value (PrimFloat.sub (PrimFloat.div (hw 2000000) (hw 2000001)) (hw 1))
    = Some (rnd (rnd (2000000 # 2000001) - 1)).
Proof. vm_compute. repeat split. Qed.

(** ** Facts about Python arithmetic *)

Section PyFacts.
Local Open Scope Q_scope.

Lemma Qred_inject_Z n : Qred (inject_Z n) = inject_Z n.
Proof.
  unfold Qred, inject_Z.
  pose proof (Z.ggcd_gcd n 1) as Hg. pose proof (Z.ggcd_correct_divisors n 1) as Hd.
  destruct (Z.ggcd n 1) as [g [n' d']]. simpl in *.
  rewrite Z.gcd_1_r in Hg. subst g. destruct Hd as [-> Hd].
  assert (d' = 1%Z) by lia. subst d'. f_equal. lia.
Qed.

Lemma rnd_Z_eq n : (Z.abs n < 2 ^ 53)%Z -> rnd (inject_Z n) = inject_Z n.
Proof.
  intros H. rewrite <- (Qred_inject_Z n) at 2. unfold rnd.
  apply Qred_complete. rewrite <- rnd_eq. apply rnd_Z, H.
Qed.

Lemma Qlt_bool_iff x y : Qlt_bool x y = true <-> x < y.
Proof.
  unfold Qlt_bool. rewrite negb_true_iff. split.
  - intros H. apply Qnot_le_lt. intros Hc. apply Qle_bool_iff in Hc. congruence.
  - intros H. destruct (Qle_bool y x) eqn:E; [|reflexivity].
    apply Qle_bool_iff in E. lra.
Qed.

Lemma Qlt_bool_false x y : Qlt_bool x y = false <-> y <= x.
Proof.
  unfold Qlt_bool. rewrite negb_false_iff. apply Qle_bool_iff.
Qed.

Lemma Qle_bool_false x y : Qle_bool x y = false <-> y < x.
Proof.
  split.
  - intros H. apply Qnot_le_lt. intros Hc. apply Qle_bool_iff in Hc. congruence.
  - intros H. destruct (Qle_bool x y) eqn:E; [|reflexivity].
    apply Qle_bool_iff in E. lra.
Qed.

Lemma rnd_abs_le x n :
  (0 <= n < 2 ^ 53)%Z -> Qabs x <= inject_Z n -> Qabs (rnd x) <= inject_Z n.
Proof.
  intros Hn Hx. apply Qabs_Qle_condition in Hx as [H1 H2].
  apply Qabs_Qle_condition. split.
  - rewrite <- (rnd_Z n) by lia. rewrite <- rnd_opp. apply rnd_le. exact H1.
  - rewrite <- (rnd_Z n) by lia. apply rnd_le. exact H2.
Qed.

Lemma no_overflow r n :
  (0 <= n < 2 ^ 53)%Z -> Qabs r <= inject_Z n -> overflows r = false.
Proof.
  intros Hn Hr. unfold overflows. apply Qle_bool_false.
  eapply Qle_lt_trans; [exact Hr|].
  apply Qlt_le_trans with (pow2 53); [|apply pow2_le; lia].
  rewrite pow2_Z by lia. apply inject_Z_lt. lia.
Qed.

Lemma to_float_finite x n :
  (0 <= n < 2 ^ 53)%Z -> Qabs x <= inject_Z n -> to_float x = Finite (rnd x).
Proof.
  intros Hn Hx. unfold to_float.
  rewrite (no_overflow (rnd x) n Hn (rnd_abs_le x n Hn Hx)). reflexivity.
Qed.

Lemma to_float_comp x y : x == y -> to_float x = to_float y.
Proof. intros E. unfold to_float. rewrite (rnd_comp x y E). reflexivity. Qed.

Lemma Qabs_div_le a b :
  b <> 0%Z -> Qabs (inject_Z a / inject_Z b) <= inject_Z (Z.abs a).
Proof.
  intros Hb. unfold Qdiv. rewrite Qabs_Qmult, Qabs_Qinv.
  assert (H1 : 1 <= Qabs (inject_Z b)).
  { unfold inject_Z. rewrite <- Zabs_Qabs. change 1 with (inject_Z 1).
    apply inject_Z_le. lia. }
  assert (H0 : 0 <= Qabs (inject_Z a)) by apply Qabs_nonneg.
  assert (E : Qabs (inject_Z a) == inject_Z (Z.abs a)).
  { unfold inject_Z. rewrite <- Zabs_Qabs. reflexivity. }
  rewrite <- E.
  assert (Hi : / Qabs (inject_Z b) <= 1).
  { apply Qle_shift_inv_r; lra. }
  assert (Hp : 0 < / Qabs (inject_Z b)) by (apply Qinv_lt_0_compat; lra).
  nra.
Qed.

Lemma int_truediv_ok a b :
  b <> 0%Z -> (Z.abs a < 2 ^ 53)%Z ->
  int_truediv a b = Ok (Finite (rnd (inject_Z a / inject_Z b))).
Proof.
  intros Hb Ha. unfold int_truediv.
  destruct (Z.eqb_spec b 0) as [E | _]; [contradiction|].
  rewrite (no_overflow _ (Z.abs a)); [reflexivity | lia |].
  apply rnd_abs_le; [lia | apply Qabs_div_le, Hb].
Qed.

Lemma float_of_int_ok n :
  (Z.abs n < 2 ^ 53)%Z -> float_of_int n = Ok (Finite (inject_Z n)).
Proof.
  intros H. unfold float_of_int. rewrite (rnd_Z_eq n H).
  rewrite (no_overflow _ (Z.abs n)); [reflexivity | lia |].
  unfold inject_Z. rewrite <- Zabs_Qabs. apply Qle_refl.
Qed.

End PyFacts.

(** ** Rounded aspect ratios of images of valid size *)

Section Geometry.
Local Open Scope Q_scope.

Lemma eps_pow2 : pow2 (-53) == eps.
Proof. reflexivity. Qed.

Lemma dim_Q n : dim n -> 1 <= inject_Z n /\ inject_Z n <= 2147483647.
Proof.
  intros [H1 H2]. split.
  - change 1 with (inject_Z 1). apply inject_Z_le. lia.
  - change 2147483647 with (inject_Z 2147483647). apply inject_Z_le. lia.
Qed.

Lemma rne_near x n : Qabs (x - inject_Z n) < 1 # 2 -> rne x = n.
Proof.
  intros H. apply Qabs_Qlt_condition in H as [H1 H2].
  destruct (rne_error x) as [E1 E2].
  assert (A : inject_Z (n - 1) < inject_Z (rne x)).
  { replace (n - 1)%Z with (n + -1)%Z by lia. rewrite inject_Z_plus. change (inject_Z (-1)) with (-1). lra. }
  assert (B : inject_Z (rne x) < inject_Z (n + 1)).
  { rewrite inject_Z_plus. change (inject_Z 1) with 1. lra. }
  rewrite <- Zlt_Qlt in A, B. lia.
Qed.

Lemma quarter_repr n :
  (Z.abs n < 2 ^ 50)%Z -> rnd (inject_Z n + (1 # 4)) == inject_Z n + (1 # 4).
Proof.
  intros H.
  assert (E : inject_Z n + (1 # 4) == inject_Z (4 * n + 1) * pow2 (-2)).
  { rewrite inject_Z_plus, inject_Z_mult. change (pow2 (-2)) with (1 # 4).
    change (inject_Z 4) with 4. change (inject_Z 1) with 1. ring. }
  rewrite (rnd_comp _ _ E), rnd_repr by lia. symmetry. exact E.
Qed.

Lemma quarter_below_repr n :
  (Z.abs n < 2 ^ 50)%Z -> rnd (inject_Z n - (1 # 4)) == inject_Z n - (1 # 4).
Proof.
  intros H.
  assert (E : inject_Z n - (1 # 4) == inject_Z (4 * n - 1) * pow2 (-2)).
  { replace (4 * n - 1)%Z with (4 * n + -1)%Z by lia.
    rewrite inject_Z_plus, inject_Z_mult. change (pow2 (-2)) with (1 # 4).
    change (inject_Z 4) with 4. change (inject_Z (-1)) with (-1). ring. }
  rewrite (rnd_comp _ _ E), rnd_repr by lia. symmetry. exact E.
Qed.

(** A value at most a quarter above an integer rounds (as a float, then
    as an int) to at most that integer. *)
Lemma round_le_of_quarter x n :
  (Z.abs n < 2 ^ 50)%Z -> x <= inject_Z n + (1 # 4) -> (rne (rnd x) <= n)%Z.
Proof.
  intros Hn Hx. apply rnd_le in Hx. rewrite quarter_repr in Hx by exact Hn.
  apply rne_le in Hx. rewrite (rne_near (inject_Z n + (1 # 4)) n) in Hx; [exact Hx|].
  assert (E : inject_Z n + (1 # 4) - inject_Z n == 1 # 4) by ring.
  rewrite E. reflexivity.
Qed.

Lemma quotient_normal w h :
  dim w -> dim h -> pow2 (-1022) <= Qabs (inject_Z w / inject_Z h).
Proof.
  intros Hw Hh. apply dim_Q in Hw as [W1 W2], Hh as [H1 H2].
  assert (Hq : pow2 (-31) <= inject_Z w / inject_Z h).
  { apply Qle_shift_div_l; [lra|]. change (pow2 (-31)) with (1 # 2147483648). lra. }
  rewrite Qabs_pos by (pose proof (pow2_pos (-31)); lra).
  eapply Qle_trans; [|exact Hq]. apply pow2_le. lia.
Qed.

(** The rounded aspect ratio, multiplied back by the height, misses the
    width by a relative [2^-53] at most. *)
Lemma aspect_times_height w h :
  dim w -> dim h ->
  let c := rnd (inject_Z w / inject_Z h) in
  inject_Z w - inject_Z w * eps <= inject_Z h * c /\
  inject_Z h * c <= inject_Z w + inject_Z w * eps.
Proof.
  intros Hw Hh c. pose proof (rnd_rel_error _ (quotient_normal w h Hw Hh)) as He.
  fold c in He. apply dim_Q in Hw as [W1 W2], Hh as [H1 H2].
  set (W := inject_Z w) in *. set (H := inject_Z h) in *.
  assert (Hq : H * (W / H) == W) by (field; lra).
  assert (Hq0 : 0 < W / H) by (apply Qlt_shift_div_l; lra).
  rewrite (Qabs_pos (W / H)) in He by lra.
  rewrite eps_pow2 in He. apply Qabs_Qle_condition in He as [E1 E2].
  set (q := W / H) in *. unfold eps in *.
  split.
  - assert (H * (q - q * (1 # 9007199254740992)) <= H * c) by (apply Qmult_le_l; lra).
    nra.
  - assert (H * c <= H * (q + q * (1 # 9007199254740992))) by (apply Qmult_le_l; lra).
    nra.
Qed.

Lemma aspect_pos w h : dim w -> dim h -> 0 < rnd (inject_Z w / inject_Z h).
Proof.
  intros Hw Hh. destruct (aspect_times_height w h Hw Hh) as [A _].
  apply dim_Q in Hw as [W1 W2], Hh as [H1 H2]. unfold eps in A.
  apply Qnot_le_lt. intros Hc.
  assert (inject_Z h * rnd (inject_Z w / inject_Z h) <= 0) by nra.
  lra.
Qed.

End Geometry.

(** ** center_crop_to_aspect: the two crop branches *)

Section Crop.
Local Open Scope Q_scope.

Lemma round_within_one x :
  Qabs x <= pow2 52 -> Qabs (inject_Z (rne (rnd x)) - x) <= 1.
Proof.
  intros Hx.
  assert (He : Qabs (rnd x - x) <= 1 # 2).
  { destruct (Qeq_dec x 0) as [E | NE].
    - rewrite (rnd_0 x E), E. discriminate.
    - eapply Qle_trans; [apply rnd_abs_error|].
      destruct (mag_spec x NE) as [M1 _].
      assert (mag x - 1 < 53)%Z.
      { apply pow2_lt_inv. eapply Qle_lt_trans; [exact M1|].
        eapply Qle_lt_trans; [exact Hx|]. apply pow2_lt. lia. }
      assert (Hu : pow2 (ulp_exp x) <= pow2 0) by (apply pow2_le; unfold ulp_exp; lia).
      change (pow2 0) with 1 in Hu. lra. }
  destruct (rne_error (rnd x)) as [R1 R2].
  apply Qabs_Qle_condition in He as [E1 E2].
  apply Qabs_Qle_condition. split; lra.
Qed.

Lemma too_wide_width w h a :
  dim w -> dim h -> 0 < a -> a <= rnd (inject_Z w / inject_Z h) ->
  int_mul_float h (Finite a) = Ok (Finite (rnd (inject_Z h * a))) /\
  (0 <= rne (rnd (inject_Z h * a)) <= w)%Z /\
  0 <= inject_Z h * a <= inject_Z w + (1 # 4).
Proof.
  intros Hw Hh Ha Hlt.
  destruct (aspect_times_height w h Hw Hh) as [_ B].
  pose proof Hw as [W0 W3]. pose proof Hh as [H0 H3].
  apply dim_Q in Hw as [W1 W2], Hh as [H1 H2].
  set (c := rnd (inject_Z w / inject_Z h)) in *. unfold eps in B.
  assert (Hp : 0 <= inject_Z h * a) by nra.
  assert (Hb : inject_Z h * a <= inject_Z w + (1 # 4)).
  { assert (inject_Z h * a <= inject_Z h * c) by (apply Qmult_le_l; lra). lra. }
  split; [|split].
  - unfold int_mul_float. rewrite float_of_int_ok by lia. cbn.
    f_equal. apply (to_float_finite _ (2 ^ 31)); [lia|].
    rewrite Qabs_pos by exact Hp. change (inject_Z (2 ^ 31)) with 2147483648. lra.
  - split.
    + apply rne_nonneg, rnd_nonneg, Hp.
    + apply round_le_of_quarter; [lia | exact Hb].
  - split; assumption.
Qed.

Lemma too_tall_height w h a :
  dim w -> dim h -> 0 < a -> rnd (inject_Z w / inject_Z h) <= a ->
  int_div_float w (Finite a) = Ok (Finite (rnd (inject_Z w / a))) /\
  (0 <= rne (rnd (inject_Z w / a)) <= h)%Z /\
  0 <= inject_Z w / a <= inject_Z h + (1 # 4).
Proof.
  intros Hw Hh Ha Hle.
  destruct (aspect_times_height w h Hw Hh) as [A _].
  pose proof (aspect_pos w h Hw Hh) as Hc.
  pose proof Hw as [W0 W3]. pose proof Hh as [H0 H3].
  apply dim_Q in Hw as [W1 W2], Hh as [H1 H2].
  set (c := rnd (inject_Z w / inject_Z h)) in *. unfold eps in A.
  assert (Hp : 0 <= inject_Z w / a) by (apply Qle_shift_div_l; lra).
  assert (Hb : inject_Z w / a <= inject_Z h + (1 # 4)).
  { apply Qle_shift_div_r; [exact Ha|].
    assert (Hhc : inject_Z h * c <= 2147483647 * c) by (apply Qmult_le_compat_r; lra).
    assert ((inject_Z h + (1 # 4)) * c <= (inject_Z h + (1 # 4)) * a)
      by (apply Qmult_le_l; lra).
    lra. }
  split; [|split].
  - unfold int_div_float. rewrite float_of_int_ok by lia. cbn.
    destruct (Qeq_bool a 0) eqn:E; [apply Qeq_bool_iff in E; lra|].
    f_equal. apply (to_float_finite _ (2 ^ 31)); [lia|].
    rewrite Qabs_pos by exact Hp. change (inject_Z (2 ^ 31)) with 2147483648. lra.
  - split.
    + apply rne_nonneg, rnd_nonneg, Hp.
    + apply round_le_of_quarter; [lia | exact Hb].
  - split; assumption.
Qed.

(** What [center_crop_to_aspect] does on an image of valid size, for a
    positive finite target aspect: the three branches of the source. *)
Lemma center_crop_cases (h : heap) (r : ref) (img : image) (a : Q) :
  h !! r = Some img -> valid_dims img -> 0 < a ->
  let w := width img in
  let ht := height img in
  let c := rnd (inject_Z w / inject_Z ht) in
  center_crop_to_aspect r (Finite a) h =
    if within_tolerance (Finite c) (Finite a) then Returns r h
    else if Qlt_bool a c then
      let new_width := rne (rnd (inject_Z ht * a)) in
      let x0 := ((w - new_width) / 2)%Z in
      Returns (length h)
        (h ++ [Image new_width ht (Cropped (data img) (x0, 0, x0 + new_width, ht)%Z)])
    else
      let new_height := rne (rnd (inject_Z w / a)) in
      let y0 := ((ht - new_height) / 2)%Z in
      Returns (length h)
        (h ++ [Image w new_height (Cropped (data img) (0, y0, w, y0 + new_height)%Z)]).
Proof.
  intros Hr [Hw Hh] Ha w ht c.
  unfold center_crop_to_aspect, size, get. run_M.
  rewrite Hr. unfold lift at 1.
  rewrite int_truediv_ok by (unfold dim in *; lia). fold w ht c.
  destruct (within_tolerance (Finite c) (Finite a)); [reflexivity|].
  unfold float_gt, float_lt.
  destruct (Qlt_bool a c) eqn:E.
  - apply Qlt_bool_iff in E.
    destruct (too_wide_width w ht a Hw Hh Ha (Qlt_le_weak _ _ E)) as (E1 & [N0 N1] & _).
    unfold lift, result_bind. fold ht. rewrite E1. unfold round.
    unfold crop, get, mbind, M_bind. rewrite Hr.
    destruct (Z.ltb_spec ((w - rne (rnd (inject_Z ht * a))) / 2 + rne (rnd (inject_Z ht * a)))
                ((w - rne (rnd (inject_Z ht * a))) / 2)) as [L | L]; [lia|].
    destruct (Z.ltb_spec ht 0) as [L' | L']; [unfold dim in *; lia|].
    cbn. unfold alloc. rewrite Z.add_simpl_l, Z.sub_0_r. reflexivity.
  - apply Qlt_bool_false in E.
    destruct (too_tall_height w ht a Hw Hh Ha E) as (E1 & [N0 N1] & _).
    unfold lift, result_bind. fold w. rewrite E1. unfold round.
    unfold crop, get, mbind, M_bind. rewrite Hr.
    destruct (Z.ltb_spec w 0) as [L' | L']; [unfold dim in *; lia|].
    destruct (Z.ltb_spec ((ht - rne (rnd (inject_Z w / a))) / 2 + rne (rnd (inject_Z w / a)))
                ((ht - rne (rnd (inject_Z w / a))) / 2)) as [L | L]; [lia|].
    cbn. unfold alloc. rewrite Z.add_simpl_l, Z.sub_0_r. reflexivity.
Qed.

End Crop.

(** ** center_crop_to_aspect: claims C4, C5, C6 and C8 *)

Section CropClaims.
Local Open Scope Q_scope.

Lemma tolerance_pos : 0 < rnd (1 # 1000000).
Proof. vm_compute. reflexivity. Qed.

Lemma to_float_nonpos x :
  x <= 0 ->
  (exists r, to_float x = Finite r /\ r <= 0) \/ to_float x = Infinite true.
Proof.
  intros Hx. unfold to_float.
  assert (Hr : rnd x <= 0).
  { assert (E : x == - (- x)) by ring.
    rewrite (rnd_comp _ _ E), rnd_opp.
    pose proof (rnd_nonneg (- x) ltac:(lra)). lra. }
  destruct (overflows (rnd x)) eqn:E.
  - right. f_equal. unfold is_neg. apply negb_true_iff, Qle_bool_false.
    unfold overflows in E. apply Qle_bool_iff in E.
    pose proof (pow2_pos 1024).
    apply Qnot_le_lt. intros Hc.
    assert (Hz : rnd x == 0) by lra. rewrite Hz in E. change (Qabs 0) with 0 in E. lra.
  - left. exists (rnd x). split; [reflexivity | exact Hr].
Qed.

(** C6. When the source aspect exceeds the target aspect by at least the
    tolerance, the crop keeps the full height and the [new_width] columns
    around the horizontal centre, with [new_width = round(height *
    target_aspect)] and [x0 = floor((width - new_width) / 2)]. *)
Theorem center_crop_too_wide (h : heap) (r : ref) (img : image) (a : Q) :
  h !! r = Some img -> valid_dims img -> 0 < a ->
  float_le tolerance
    (float_sub (Finite (rnd (inject_Z (width img) / inject_Z (height img)))) (Finite a))
    = true ->
  let new_width := rne (rnd (inject_Z (height img) * a)) in
  let x0 := ((width img - new_width) / 2)%Z in
  center_crop_to_aspect r (Finite a) h =
    Returns (length h)
      (h ++ [Image new_width (height img)
               (Cropped (data img) (x0, 0, x0 + new_width, height img)%Z)]).
Proof.
  intros Hr Hv Ha Hd nw x0.
  rewrite (center_crop_cases h r img a Hr Hv Ha). cbv zeta.
  set (c := rnd (inject_Z (width img) / inject_Z (height img))) in *.
  assert (Hlt : a < c).
  { apply Qnot_le_lt. intros Hc. cbn in Hd.
    destruct (to_float_nonpos (c - a) ltac:(lra)) as [(x & E & Hx) | E];
      rewrite E in Hd; cbn in Hd; [|discriminate].
    apply Qle_bool_iff in Hd. pose proof tolerance_pos. lra. }
  assert (Ht : within_tolerance (Finite c) (Finite a) = false).
  { unfold within_tolerance. cbn in *.
    destruct (to_float (c - a)) as [x | s |]; cbn in *; [| |discriminate].
    - apply Qle_bool_iff in Hd. apply Qlt_bool_false.
      pose proof tolerance_pos. rewrite Qabs_pos by lra. exact Hd.
    - reflexivity. }
  rewrite Ht. apply Qlt_bool_iff in Hlt. rewrite Hlt. reflexivity.
Qed.

(** The theorem above at a concrete input, where its hypotheses hold. *)
Lemma center_crop_too_wide_witness :
  center_crop_to_aspect 0%nat (Finite 1) [Image 2000 1000 (Raw 0)] =
    Returns 1%nat
      [Image 2000 1000 (Raw 0);
       Image 1000 1000 (Cropped (Raw 0) (500, 0, 1500, 1000)%Z)].
Proof.
  refine (center_crop_too_wide [Image 2000 1000 (Raw 0)] 0%nat
            (Image 2000 1000 (Raw 0)) 1 eq_refl _ _ _).
  - vm_compute. repeat split; reflexivity.
  - reflexivity.
  - vm_compute. reflexivity.
Defined.

Lemma round_ge_one x : 1 <= x -> (1 <= rne (rnd x))%Z.
Proof.
  intros H. apply rne_ge_Z. change (inject_Z 1) with 1.
  rewrite <- (rnd_Z 1) by (cbn; lia). apply rnd_le. exact H.
Qed.

(** The tolerance test on two finite floats, in plain arithmetic. *)
Lemma within_tolerance_finite (c a : Q) :
  within_tolerance (Finite c) (Finite a) =
    Qlt_bool (Qabs (rnd (c - a))) (rnd (1 # 1000000)).
Proof.
  unfold within_tolerance, tolerance, float_sub, to_float.
  destruct (overflows (rnd (c - a))) eqn:E; [|reflexivity].
  cbn. symmetry. apply Qlt_bool_false.
  unfold overflows in E. apply Qle_bool_iff in E.
  eapply Qle_trans; [|exact E].
  apply Qle_trans with (pow2 0); [vm_compute; discriminate | apply pow2_le; lia].
Qed.

(** C5 (amended). For a positive target aspect [a] and the source aspect
    [c = width / height]: when [abs(c - a) < 1e-6] the source itself is
    returned; otherwise a new image is returned, the crop of a box that
    never leaves the source. For [a < c] the box has the full height and is
    horizontally centred, for [c <= a] it has the full width and is
    vertically centred; the cropped dimension is within one pixel of the
    exact value; the box is non-empty when the target aspect lies between
    [1 / height] and [width]. *)
Theorem center_crop_box_within_source (h : heap) (r : ref) (img : image) (a : Q) :
  h !! r = Some img -> valid_dims img -> 0 < a ->
  let c := rnd (inject_Z (width img) / inject_Z (height img)) in
  (Qabs (rnd (c - a)) < rnd (1 # 1000000) /\
   center_crop_to_aspect r (Finite a) h = Returns r h) \/
  (rnd (1 # 1000000) <= Qabs (rnd (c - a)) /\
   exists x0 y0 x1 y1 : Z,
    center_crop_to_aspect r (Finite a) h =
      Returns (length h)
        (h ++ [Image (x1 - x0) (y1 - y0) (Cropped (data img) (x0, y0, x1, y1))]) /\
    (0 <= x0 <= x1 /\ x1 <= width img)%Z /\
    (0 <= y0 <= y1 /\ y1 <= height img)%Z /\
    ((a < c /\ y0 = 0%Z /\ y1 = height img /\
      x0 = ((width img - (x1 - x0)) / 2)%Z /\
      Qabs (inject_Z (x1 - x0) - inject_Z (height img) * a) <= 1) \/
     (c <= a /\ x0 = 0%Z /\ x1 = width img /\
      y0 = ((height img - (y1 - y0)) / 2)%Z /\
      Qabs (inject_Z (y1 - y0) - inject_Z (width img) / a) <= 1)) /\
    (1 <= inject_Z (height img) * a -> a <= inject_Z (width img) ->
     (x0 < x1)%Z /\ (y0 < y1)%Z)).
Proof.
  intros Hr Hv Ha. pose proof Hv as [Hw Hh].
  rewrite (center_crop_cases h r img a Hr Hv Ha). cbv zeta.
  set (w := width img) in *. set (ht := height img) in *.
  set (c := rnd (inject_Z w / inject_Z ht)).
  rewrite within_tolerance_finite.
  destruct (Qlt_bool (Qabs (rnd (c - a))) (rnd (1 # 1000000))) eqn:Et.
  { left. apply Qlt_bool_iff in Et. split; [exact Et | reflexivity]. }
  apply Qlt_bool_false in Et.
  right. split; [exact Et|]. destruct (Qlt_bool a c) eqn:E.
  - apply Qlt_bool_iff in E.
    destruct (too_wide_width w ht a Hw Hh Ha (Qlt_le_weak _ _ E)) as (_ & [N0 N1] & Hb0 & Hb).
    set (nw := rne (rnd (inject_Z ht * a))) in *.
    exists ((w - nw) / 2)%Z, 0%Z, ((w - nw) / 2 + nw)%Z, ht.
    rewrite Z.add_simpl_l, Z.sub_0_r.
    split; [reflexivity|].
    assert (Hx0 : (0 <= (w - nw) / 2 /\ (w - nw) / 2 + nw <= w)%Z).
    { pose proof (Z.div_pos (w - nw) 2 ltac:(lia) ltac:(lia)).
      pose proof (Z.mul_div_le (w - nw) 2 ltac:(lia)). lia. }
    split; [lia|]. split; [unfold dim in Hh; lia|]. split.
    + left. split; [exact E|]. repeat split. apply round_within_one.
      rewrite Qabs_pos by exact Hb0. apply dim_Q in Hw.
      change (pow2 52) with 4503599627370496. lra.
    + intros L1 L2.
      assert (1 <= nw)%Z by (apply round_ge_one; assumption).
      unfold dim in Hh. lia.
  - apply Qlt_bool_false in E.
    destruct (too_tall_height w ht a Hw Hh Ha E) as (_ & [N0 N1] & Hq & Hb).
    set (nh := rne (rnd (inject_Z w / a))) in *.
    exists 0%Z, ((ht - nh) / 2)%Z, w, ((ht - nh) / 2 + nh)%Z.
    rewrite Z.add_simpl_l, Z.sub_0_r.
    split; [reflexivity|].
    assert (Hy0 : (0 <= (ht - nh) / 2 /\ (ht - nh) / 2 + nh <= ht)%Z).
    { pose proof (Z.div_pos (ht - nh) 2 ltac:(lia) ltac:(lia)).
      pose proof (Z.mul_div_le (ht - nh) 2 ltac:(lia)). lia. }
    split; [unfold dim in Hw; lia|]. split; [lia|]. split.
    + right. split; [exact E|]. repeat split. apply round_within_one.
      rewrite Qabs_pos by exact Hq. apply dim_Q in Hh.
      change (pow2 52) with 4503599627370496. lra.
    + intros L1 L2.
      assert (1 <= nh)%Z.
      { apply round_ge_one. apply Qle_shift_div_l; lra. }
      unfold dim in Hw. lia.
Qed.

(** The theorem above at a concrete input, where its hypotheses hold. *)
Lemma center_crop_box_within_source_witness :
  let c := rnd (inject_Z 2000 / inject_Z 1000) in
  (Qabs (rnd (c - 1)) < rnd (1 # 1000000) /\
   center_crop_to_aspect 0%nat (Finite 1) [Image 2000 1000 (Raw 0)] =
     Returns 0%nat [Image 2000 1000 (Raw 0)]) \/
  (rnd (1 # 1000000) <= Qabs (rnd (c - 1)) /\
   exists x0 y0 x1 y1 : Z,
    center_crop_to_aspect 0%nat (Finite 1) [Image 2000 1000 (Raw 0)] =
      Returns 1%nat
        ([Image 2000 1000 (Raw 0)] ++
         [Image (x1 - x0) (y1 - y0) (Cropped (Raw 0) (x0, y0, x1, y1))]) /\
    (0 <= x0 <= x1 /\ x1 <= 2000)%Z /\
    (0 <= y0 <= y1 /\ y1 <= 1000)%Z /\
    ((1 < c /\ y0 = 0%Z /\ y1 = 1000%Z /\
      x0 = ((2000 - (x1 - x0)) / 2)%Z /\
      Qabs (inject_Z (x1 - x0) - inject_Z 1000 * 1) <= 1) \/
     (c <= 1 /\ x0 = 0%Z /\ x1 = 2000%Z /\
      y0 = ((1000 - (y1 - y0)) / 2)%Z /\
      Qabs (inject_Z (y1 - y0) - inject_Z 2000 / 1) <= 1)) /\
    (1 <= inject_Z 1000 * 1 -> 1 <= inject_Z 2000 -> (x0 < x1)%Z /\ (y0 < y1)%Z)).
Proof.
  refine (center_crop_box_within_source [Image 2000 1000 (Raw 0)] 0%nat
            (Image 2000 1000 (Raw 0)) 1 eq_refl _ _).
  - vm_compute. repeat split; reflexivity.
  - reflexivity.
Defined.

(** C5, as stated, fails: a 100x100 source cropped to the aspect 0.001
    gets the empty box (50, 0, 50, 100). *)
Lemma center_crop_box_counterexample :
  center_crop_to_aspect 0%nat (to_float (1 # 1000)) [Image 100 100 (Raw 0)] =
    Returns 1%nat
      [Image 100 100 (Raw 0); Image 0 100 (Cropped (Raw 0) (50, 0, 50, 100)%Z)]
  /\ ~ (50 < 50)%Z.
Proof. split; [vm_compute; reflexivity | lia]. Qed.

(** C4 (amended). Neither function checks its numeric argument. With a
    target aspect [a <= 0], [center_crop_to_aspect] goes on to compute the
    crop box: an exception comes only out of rounding an overflowed product
    or out of the library's [crop] when the box has a negative width, and
    when [height * a] rounds to zero (in particular for [a = 0]) the empty
    box is cropped. [resize_to_exact] hands the size to the library's
    [resize], which refuses a dimension below one. *)
Theorem parameters_are_not_validated (h : heap) (r : ref) (img : image) :
  h !! r = Some img -> valid_dims img ->
  (forall a : Q, a <= 0 ->
     center_crop_to_aspect r (Finite a) h =
       if within_tolerance
            (Finite (rnd (inject_Z (width img) / inject_Z (height img)))) (Finite a)
       then Returns r h
       else match to_float (inject_Z (height img) * a) with
            | Finite v =>
                if (rne v <? 0)%Z then Raises ValueError
                else Returns (length h)
                       (h ++ [Image 0 (height img)
                                (Cropped (data img)
                                   (width img / 2, 0, width img / 2, height img)%Z)])
            | Infinite _ => Raises OverflowError
            | NaN => Raises ValueError
            end) /\
  (forall (size : Z * Z) (resample : option string),
     (size.1 <= 0 \/ size.2 <= 0)%Z ->
     resize_to_exact r size resample h = Raises ValueError).
Proof.
  intros Hr [Hw Hh]. split.
  - intros a Ha.
    unfold center_crop_to_aspect, PIL.size, get. run_M.
    rewrite Hr. unfold lift at 1.
    rewrite int_truediv_ok by (unfold dim in *; lia).
    set (w := width img) in *. set (ht := height img) in *.
    set (c := rnd (inject_Z w / inject_Z ht)).
    destruct (within_tolerance (Finite c) (Finite a)); [reflexivity|].
    pose proof (aspect_pos w ht Hw Hh) as Hc. fold c in Hc.
    unfold float_gt, float_lt.
    assert (E : Qlt_bool a c = true) by (apply Qlt_bool_iff; lra). rewrite E.
    unfold lift, int_mul_float. unfold mbind, result_bind.
    rewrite float_of_int_ok by (unfold dim in *; lia). cbn [float_mul].
    assert (Hx : inject_Z ht * a <= 0) by (apply dim_Q in Hh; nra).
    destruct (to_float_nonpos _ Hx) as [(v & Ev & Hv) | Ev]; rewrite Ev; [|reflexivity].
    cbn [round].
    assert (Hn : (rne v <= 0)%Z) by (apply rne_le_Z; exact Hv).
    unfold crop, get, mbind, M_bind. rewrite Hr.
    destruct (Z.ltb_spec (rne v) 0) as [L | L].
    + destruct (Z.ltb_spec ((w - rne v) / 2 + rne v) ((w - rne v) / 2)) as [L2 | L2];
        [reflexivity | lia].
    + assert (E0 : rne v = 0%Z) by lia. rewrite E0.
      rewrite Z.sub_0_r, Z.add_0_r, Z.ltb_irrefl.
      destruct (Z.ltb_spec ht 0) as [L' | L']; [unfold dim in *; lia|].
      cbn. unfold alloc. rewrite Z.sub_diag, Z.sub_0_r. reflexivity.
  - intros [sw sh] name Hs. cbn in Hs.
    unfold resize_to_exact, resize, get. unfold mbind, M_bind. rewrite Hr.
    assert (E : same_size img (sw, sh) = false).
    { unfold same_size. cbn. unfold dim in *.
      destruct (Z.eqb_spec (width img) sw); destruct (Z.eqb_spec (height img) sh);
        cbn; try reflexivity; lia. }
    rewrite E. unfold lift, resample. cbn.
    destruct (Z.ltb_spec sw 1); destruct (Z.ltb_spec sh 1); cbn; try reflexivity; lia.
Qed.

(** The theorem above at a concrete input, where its hypotheses hold. *)
Lemma parameters_are_not_validated_witness :
  (forall a : Q, a <= 0 ->
     center_crop_to_aspect 0%nat (Finite a) [Image 100 100 (Raw 0)] =
       if within_tolerance (Finite (rnd (inject_Z 100 / inject_Z 100))) (Finite a)
       then Returns 0%nat [Image 100 100 (Raw 0)]
       else match to_float (inject_Z 100 * a) with
            | Finite v =>
                if (rne v <? 0)%Z then Raises ValueError
                else Returns 1%nat
                       ([Image 100 100 (Raw 0)] ++
                        [Image 0 100 (Cropped (Raw 0) (100 / 2, 0, 100 / 2, 100)%Z)])
            | Infinite _ => Raises OverflowError
            | NaN => Raises ValueError
            end) /\
  (forall (size : Z * Z) (resample : option string),
     (size.1 <= 0 \/ size.2 <= 0)%Z ->
     resize_to_exact 0%nat size resample [Image 100 100 (Raw 0)] = Raises ValueError).
Proof.
  refine (parameters_are_not_validated [Image 100 100 (Raw 0)] 0%nat
            (Image 100 100 (Raw 0)) eq_refl _).
  vm_compute. repeat split; reflexivity.
Defined.

(** C4, as stated, fails: with [target_aspect = 0] nothing is raised; the
    empty box (50, 0, 50, 100) is computed and cropped. *)
Lemma zero_aspect_counterexample :
  center_crop_to_aspect 0%nat (Finite 0) [Image 100 100 (Raw 0)] =
    Returns 1%nat
      [Image 100 100 (Raw 0); Image 0 100 (Cropped (Raw 0) (50, 0, 50, 100)%Z)].
Proof. vm_compute. reflexivity. Qed.

(** C8. An image whose aspect is within the tolerance of the target is
    returned as it is (the same object, the heap untouched), so cropping
    it a second time changes nothing. *)
Theorem center_crop_idempotent (h : heap) (r : ref) (img : image) (a cur : float) :
  h !! r = Some img ->
  int_truediv (width img) (height img) = Ok cur ->
  within_tolerance cur a = true ->
  center_crop_to_aspect r a h = Returns r h /\
  (center_crop_to_aspect r a ≫= fun r' => center_crop_to_aspect r' a) h =
    center_crop_to_aspect r a h.
Proof.
  intros Hr Hc Ht.
  assert (E : center_crop_to_aspect r a h = Returns r h).
  { unfold center_crop_to_aspect, PIL.size, get. run_M.
    rewrite Hr. unfold lift. rewrite Hc, Ht. reflexivity. }
  split; [exact E|].
  unfold mbind at 1. unfold M_bind. rewrite E. exact E.
Qed.

(** The theorem above at a concrete input, where its hypotheses hold. *)
Lemma center_crop_idempotent_witness :
  center_crop_to_aspect 0%nat (Finite 1) [Image 1000 1000 (Raw 0)] =
    Returns 0%nat [Image 1000 1000 (Raw 0)] /\
  (center_crop_to_aspect 0%nat (Finite 1) ≫=
     fun r' => center_crop_to_aspect r' (Finite 1)) [Image 1000 1000 (Raw 0)] =
    center_crop_to_aspect 0%nat (Finite 1) [Image 1000 1000 (Raw 0)].
Proof.
  refine (center_crop_idempotent [Image 1000 1000 (Raw 0)] 0%nat
            (Image 1000 1000 (Raw 0)) (Finite 1) (Finite 1) eq_refl _ _).
  - vm_compute. reflexivity.
  - vm_compute. reflexivity.
Defined.

End CropClaims.

(** ** resize_within_bounds: claims C1 and C2 *)

Section BoundsClaims.
Local Open Scope Q_scope.

Lemma int_truediv_finite a b f :
  int_truediv a b = Ok f -> exists q, f = Finite q.
Proof.
  unfold int_truediv. destruct (b =? 0)%Z; [discriminate|].
  destruct (overflows _); [discriminate|]. intros [= <-]. eauto.
Qed.

Lemma min_finite x y :
  exists z, min (Finite x) (Finite y) = Finite z /\ z <= x /\ z <= y.
Proof.
  unfold min, float_lt. destruct (Qlt_bool y x) eqn:E.
  - apply Qlt_bool_iff in E. exists y. repeat split; lra.
  - apply Qlt_bool_false in E. exists x. repeat split; lra.
Qed.

Lemma max_finite x y :
  exists z, max (Finite x) (Finite y) = Finite z /\ x <= z /\ y <= z.
Proof.
  unfold max, float_gt, float_lt. destruct (Qlt_bool x y) eqn:E.
  - apply Qlt_bool_iff in E. exists y. repeat split; lra.
  - apply Qlt_bool_false in E. exists x. repeat split; lra.
Qed.

(** A larger numerator gives a strictly larger rounded quotient. *)
Lemma quotient_lt m n w :
  dim m -> dim n -> dim w -> (m < n)%Z ->
  rnd (inject_Z m / inject_Z w) < rnd (inject_Z n / inject_Z w).
Proof.
  intros Hm Hn Hw Hlt.
  destruct (aspect_times_height m w Hm Hw) as [_ A].
  destruct (aspect_times_height n w Hn Hw) as [B _].
  pose proof (dim_Q _ Hw) as [W1 W2]. pose proof (dim_Q _ Hm) as [M1 M2].
  pose proof (dim_Q _ Hn) as [N1 N2]. unfold eps in *.
  assert (L : inject_Z m + 1 <= inject_Z n).
  { change 1 with (inject_Z 1). rewrite <- inject_Z_plus. apply inject_Z_le. lia. }
  set (p := rnd (inject_Z m / inject_Z w)) in *.
  set (q := rnd (inject_Z n / inject_Z w)) in *.
  apply Qnot_le_lt. intros Hc.
  assert (inject_Z w * q <= inject_Z w * p) by (apply Qmult_le_l; lra).
  lra.
Qed.

Lemma rnd_pow2 j : (-1074 <= j)%Z -> rnd (pow2 j) == pow2 j.
Proof.
  intros Hj.
  assert (E : pow2 j == inject_Z 1 * pow2 j) by (change (inject_Z 1) with 1; ring).
  rewrite (rnd_comp _ _ E), rnd_repr by (cbn; lia). symmetry. exact E.
Qed.

(** No overflow below [2^1024]. *)
Lemma to_float_bounded x j :
  (0 <= j < 1024)%Z -> Qabs x <= pow2 j -> to_float x = Finite (rnd x).
Proof.
  intros Hj Hx. unfold to_float.
  assert (B : Qabs (rnd x) <= pow2 j).
  { apply Qabs_Qle_condition in Hx as [H1 H2]. apply Qabs_Qle_condition. split.
    - rewrite <- (rnd_pow2 j) by lia. rewrite <- rnd_opp. apply rnd_le. exact H1.
    - rewrite <- (rnd_pow2 j) by lia. apply rnd_le. exact H2. }
  replace (overflows (rnd x)) with false; [reflexivity|].
  symmetry. unfold overflows. apply Qle_bool_false.
  eapply Qle_lt_trans; [exact B|]. apply pow2_lt. lia.
Qed.

Lemma min_float x y :
  min (Finite x) (Finite y) = Finite (if Qlt_bool y x then y else x).
Proof. unfold min, float_lt. destruct (Qlt_bool y x); reflexivity. Qed.

Lemma max_float x y :
  max (Finite x) (Finite y) = Finite (if Qlt_bool x y then y else x).
Proof. unfold max, float_gt, float_lt. destruct (Qlt_bool x y); reflexivity. Qed.

(** The value of [o or d] and of the test [if o], by cases on [o]. *)
Lemma or_else_value (o : option Z) (d v : Z) :
  (o = Some v /\ v <> 0%Z) \/ ((o = None \/ o = Some 0%Z) /\ v = d) ->
  or_else o d = v.
Proof.
  intros [[-> Hv] | [[-> | ->] ->]]; cbn; try reflexivity.
  destruct (Z.eqb_spec v 0); [contradiction | reflexivity].
Qed.

Lemma truthy_nonzero (v : Z) : v <> 0%Z -> truthy (Some v) = true.
Proof. intros Hv. cbn. destruct (Z.eqb_spec v 0); [contradiction | reflexivity]. Qed.

Lemma quotient_abs a b :
  b <> 0%Z -> (Z.abs a < 2 ^ 53)%Z -> Qabs (rnd (inject_Z a / inject_Z b)) <= pow2 53.
Proof.
  intros Hb Ha.
  apply Qle_trans with (inject_Z (Z.abs a)).
  - apply rnd_abs_le; [lia | apply Qabs_div_le, Hb].
  - rewrite pow2_Z by lia. apply inject_Z_le. lia.
Qed.

(** The test [abs(scale - 1.0) < 1e-6] on a scale of moderate size. *)
Lemma within_tolerance_one q :
  Qabs q <= pow2 53 ->
  within_tolerance (Finite q) one = Qlt_bool (Qabs (rnd (q - 1))) (rnd (1 # 1000000)).
Proof.
  intros Hq. unfold within_tolerance, one, tolerance, float_sub.
  rewrite (to_float_bounded _ 54); [reflexivity | lia |].
  apply Qabs_Qle_condition in Hq as [H1 H2]. apply Qabs_Qle_condition.
  change (pow2 53) with 9007199254740992 in *.
  change (pow2 54) with 18014398509481984. split; lra.
Qed.

(** [max(1, round(n * scale))] on a scale of moderate size. *)
Lemma scaled_value (n : Z) (q : Q) :
  dim n -> Qabs q <= pow2 53 ->
  scaled n (Finite q) = Ok (Z.max 1 (rne (rnd (inject_Z n * q)))).
Proof.
  intros Hn Hq. unfold scaled, int_mul_float, mbind, result_bind.
  rewrite float_of_int_ok by (unfold dim in Hn; lia). cbn [float_mul].
  rewrite (to_float_bounded _ 84); [reflexivity | lia |].
  rewrite Qabs_Qmult. pose proof (dim_Q n Hn) as [N1 N2].
  rewrite (Qabs_pos (inject_Z n)) by lra.
  pose proof (Qabs_nonneg q) as Q0. set (a := Qabs q) in *.
  change (pow2 53) with 9007199254740992 in Hq.
  change (pow2 84) with 19342813113834066795298816.
  assert (inject_Z n * a <= 2147483647 * a) by (apply Qmult_le_compat_r; lra).
  lra.
Qed.

Lemma round_ge_of_quarter x n :
  (Z.abs n < 2 ^ 50)%Z -> inject_Z n - (1 # 4) <= x -> (n <= rne (rnd x))%Z.
Proof.
  intros Hn Hx.
  pose proof (rnd_le _ _ Hx) as H1. rewrite quarter_below_repr in H1 by exact Hn.
  pose proof (rne_error (rnd x)) as [H2 _].
  assert (H3 : inject_Z (n - 1) < inject_Z (rne (rnd x))).
  { replace (n - 1)%Z with (n + -1)%Z by lia. rewrite inject_Z_plus.
    change (inject_Z (-1)) with (-1). lra. }
  rewrite <- Zlt_Qlt in H3. lia.
Qed.

(** The product of a size with the rounded quotient [m / size] is within a
    quarter of [m]. *)
Lemma quotient_times_size m n :
  dim m -> dim n ->
  inject_Z m - (1 # 4) <= inject_Z n * rnd (inject_Z m / inject_Z n) /\
  inject_Z n * rnd (inject_Z m / inject_Z n) <= inject_Z m + (1 # 4).
Proof.
  intros Hm Hn. pose proof (aspect_times_height m n Hm Hn) as [H1 H2]. cbn zeta in H1, H2.
  pose proof (dim_Q m Hm) as [M1 M2].
  assert (E : inject_Z m * eps <= 1 # 4).
  { unfold eps. apply Qle_trans with (2147483647 * (1 # 9007199254740992)).
    - apply Qmult_le_compat_r; [exact M2 | discriminate].
    - vm_compute. discriminate. }
  split; lra.
Qed.

Lemma quotient_le_one m n :
  dim n -> (m <= n)%Z -> rnd (inject_Z m / inject_Z n) <= 1.
Proof.
  intros Hn Hle. change 1 with (rnd 1). apply rnd_le.
  pose proof (dim_Q _ Hn) as [N1 _]. apply Qle_shift_div_r; [lra|].
  rewrite Qmult_1_l. apply inject_Z_le. exact Hle.
Qed.

Lemma quotient_same n : dim n -> rnd (inject_Z n / inject_Z n) = 1.
Proof.
  intros Hn. pose proof (dim_Q _ Hn) as [N1 _].
  rewrite (rnd_comp (inject_Z n / inject_Z n) 1) by (field; lra). reflexivity.
Qed.

(** The two stages of lines 101-115 when a max width and a larger min width
    are set and upscaling is allowed: the clamped scale [down], then the
    scale [up] of the min bounds, which is the larger one. *)
Lemma bounds_scale_min_over_max (c : Constraints) (w ht Mx Mn Hx Hn : Z) :
  dim w -> dim ht -> allow_upscale c = true ->
  max_width c = Some Mx -> min_width c = Some Mn ->
  dim Mx -> dim Mn -> (Mx < Mn)%Z ->
  (max_height c = Some Hx /\ Hx <> 0%Z) \/
    ((max_height c = None \/ max_height c = Some 0%Z) /\ Hx = ht) ->
  (min_height c = Some Hn /\ Hn <> 0%Z) \/
    ((min_height c = None \/ min_height c = Some 0%Z) /\ Hn = ht) ->
  (Z.abs Hx < 2 ^ 53)%Z -> (Z.abs Hn < 2 ^ 53)%Z ->
  let a := rnd (inject_Z Mx / inject_Z w) in
  let b := rnd (inject_Z Hx / inject_Z ht) in
  let a' := rnd (inject_Z Mn / inject_Z w) in
  let b' := rnd (inject_Z Hn / inject_Z ht) in
  let d := if Qlt_bool b a then b else a in
  let down := if Qlt_bool d 1 then d else 1 in
  let up := if Qlt_bool a' b' then b' else a' in
  scale_down c w ht = Ok (Finite d) /\
  scale_up c w ht = Ok (Finite up) /\
  bounds_scale c w ht = Ok (Finite up) /\
  down <= a /\ a < a' /\ a' <= up /\ Qabs up <= pow2 53.
Proof.
  intros Hw Hh Hup HMx HMn DMx DMn Hlt HHx HHn BHx BHn a b a' b' d down up.
  assert (Nw : w <> 0%Z) by (unfold dim in Hw; lia).
  assert (Nh : ht <> 0%Z) by (unfold dim in Hh; lia).
  assert (Esd : scale_down c w ht = Ok (Finite d)).
  { unfold scale_down, mbind, result_bind.
    rewrite (or_else_value (max_width c) w Mx)
      by (left; split; [exact HMx | unfold dim in DMx; lia]).
    rewrite (or_else_value (max_height c) ht Hx HHx).
    rewrite !int_truediv_ok by (unfold dim in *; lia).
    rewrite min_float. reflexivity. }
  assert (Esu : scale_up c w ht = Ok (Finite up)).
  { unfold scale_up, mbind, result_bind.
    rewrite (or_else_value (min_width c) w Mn)
      by (left; split; [exact HMn | unfold dim in DMn; lia]).
    rewrite (or_else_value (min_height c) ht Hn HHn).
    rewrite !int_truediv_ok by (unfold dim in *; lia).
    rewrite max_float. reflexivity. }
  assert (L1 : down <= a).
  { unfold down, d. destruct (Qlt_bool b a) eqn:E1.
    - apply Qlt_bool_iff in E1. destruct (Qlt_bool b 1) eqn:E2; [lra|].
      apply Qlt_bool_false in E2. lra.
    - destruct (Qlt_bool a 1) eqn:E2; [lra|]. apply Qlt_bool_false in E2. lra. }
  assert (L2 : a < a') by (apply quotient_lt; assumption).
  assert (L3 : a' <= up).
  { unfold up. destruct (Qlt_bool a' b') eqn:E; [|lra].
    apply Qlt_bool_iff in E. lra. }
  assert (L4 : Qabs up <= pow2 53).
  { unfold up. destruct (Qlt_bool a' b'); apply quotient_abs;
      unfold dim in *; lia. }
  split; [exact Esd|]. split; [exact Esu|]. split; [|auto].
  unfold bounds_scale. rewrite Hup, HMx, HMn.
  rewrite !truthy_nonzero by (unfold dim in *; lia). cbn [orb andb].
  unfold mbind, result_bind. rewrite Esd, Esu. unfold one.
  rewrite min_float. fold down. rewrite max_float.
  replace (Qlt_bool down up) with true; [reflexivity|].
  symmetry. apply Qlt_bool_iff. lra.
Qed.

(** The scale of [resize_within_bounds] is a finite number; when no min
    bound is applied it is at most one, and at most the rounded quotient
    [max_width / width] when that bound is set. *)
Lemma bounds_scale_clamped (c : Constraints) (w ht : Z) (s : float) :
  bounds_scale c w ht = Ok s ->
  allow_upscale c = false \/
    (truthy (min_width c) = false /\ truthy (min_height c) = false) ->
  exists q, s = Finite q /\ q <= 1 /\
    forall m, max_width c = Some m -> (0 < m < 2 ^ 31)%Z -> dim w ->
      q <= rnd (inject_Z m / inject_Z w).
Proof.
  intros Hs Hno. unfold bounds_scale in Hs.
  assert (E : allow_upscale c && (truthy (min_width c) || truthy (min_height c)) = false).
  { destruct Hno as [-> | [-> ->]]; [reflexivity | apply andb_false_r]. }
  rewrite E in Hs. unfold mbind, result_bind in Hs.
  destruct (truthy (max_width c) || truthy (max_height c)) eqn:Et.
  - destruct (scale_down c w ht) as [sd|] eqn:Esd; [|discriminate].
    injection Hs as <-. unfold scale_down, mbind, result_bind in Esd.
    destruct (int_truediv (or_else (max_width c) w) w) as [fa|] eqn:Ea; [|discriminate].
    destruct (int_truediv (or_else (max_height c) ht) ht) as [fb|] eqn:Eb; [|discriminate].
    injection Esd as <-.
    destruct (int_truediv_finite _ _ _ Ea) as [qa ->].
    destruct (int_truediv_finite _ _ _ Eb) as [qb ->].
    destruct (min_finite qa qb) as (z & -> & Z1 & Z2).
    destruct (min_finite 1 z) as (z1 & E1 & Z3 & Z4). unfold one. rewrite E1.
    exists z1. split; [reflexivity|]. split; [exact Z3|].
    intros m Hm Hm' Hw. rewrite Hm in Ea. cbn [or_else] in Ea.
    destruct (Z.eqb_spec m 0) as [? | _]; [lia|].
    rewrite int_truediv_ok in Ea by (unfold dim in Hw; lia).
    injection Ea as <-. lra.
  - injection Hs as <-. exists 1. split; [reflexivity|]. split; [lra|].
    intros m Hm Hm' _. rewrite Hm in Et. cbn in Et.
    destruct (Z.eqb_spec m 0); [lia | discriminate].
Qed.

Lemma scaled_le (n : Z) (q : Q) (m k : Z) :
  dim n -> scaled n (Finite q) = Ok m -> (1 <= k < 2 ^ 31)%Z ->
  inject_Z n * q <= inject_Z k + (1 # 4) -> (m <= k)%Z.
Proof.
  intros Hn Hs Hk Hq. unfold scaled, int_mul_float in Hs. unfold mbind, result_bind in Hs.
  rewrite float_of_int_ok in Hs by (unfold dim in Hn; lia). cbn [float_mul] in Hs.
  unfold to_float in Hs. destruct (overflows _); [discriminate|].
  cbn [round] in Hs. injection Hs as <-.
  pose proof (round_le_of_quarter _ k ltac:(lia) Hq). lia.
Qed.

(** What a returning call of [resize_within_bounds] did. *)
Lemma resize_within_bounds_cases (h h' : heap) (r r' : ref) (img : image)
    (c : Constraints) (name : option string) :
  h !! r = Some img ->
  resize_within_bounds r c name h = Returns r' h' ->
  exists s, bounds_scale c (width img) (height img) = Ok s /\
    ((within_tolerance s one = true /\ r' = r /\ h' = h) \/
     (within_tolerance s one = false /\
      exists new_w new_h d,
        scaled (width img) s = Ok new_w /\ scaled (height img) s = Ok new_h /\
        r' = length h /\ h' = h ++ [Image new_w new_h d])).
Proof.
  intros Hr. unfold resize_within_bounds, PIL.size, get.
  run_M. rewrite Hr. unfold lift at 1.
  destruct (bounds_scale c (width img) (height img)) as [s|] eqn:Es; [|discriminate].
  intros H. exists s. split; [reflexivity|].
  destruct (within_tolerance s one) eqn:Et.
  - left. injection H as <- <-. auto.
  - right. split; [reflexivity|]. unfold lift in H.
    destruct (scaled (width img) s) as [nw|]; [|discriminate].
    destruct (scaled (height img) s) as [nh|]; [|discriminate].
    unfold resize, get, mbind, M_bind in H. rewrite Hr in H.
    destruct (same_size img (nw, nh)) eqn:Ess.
    + unfold alloc in H. injection H as <- <-.
      unfold same_size in Ess. cbn in Ess. apply andb_true_iff in Ess as [E1 E2].
      apply Z.eqb_eq in E1, E2. exists nw, nh, (data img).
      destruct img as [iw ih idata]. cbn in *. subst. auto.
    + unfold lift, resample in H. cbn in H.
      destruct ((nw <? 1)%Z || (nh <? 1)%Z); [discriminate|].
      unfold alloc in H. injection H as <- <-. eauto 10.
Qed.

(** C1. Downscale before upscale, and the min bound wins. With a max
    width [Mx], a larger min width [Mn] and [allow_upscale] set, whatever
    the image and the two height bounds: the scale of lines 101-115 is the
    min-derived one, [up = max(Mn / width, min_h / height)], strictly above
    the clamped scale [down = min(1.0, Mx / width, max_h / height)]; it is
    the scale applied: the source is returned when [up] is within [1e-6] of
    one and is otherwise resized to [max(1, round(size * up))] in each
    axis. For a source narrower than [Mn] that width is at least [Mn],
    above the max bound; a source at least [Mn] wide, with no min height,
    is returned as it is, however far above [Mx] it is. *)
Theorem min_bound_overrides_max (h : heap) (r : ref) (img : image)
    (c : Constraints) (name : option string) (Mx Mn Hx Hn : Z) :
  h !! r = Some img -> valid_dims img ->
  allow_upscale c = true ->
  max_width c = Some Mx -> min_width c = Some Mn ->
  dim Mx -> dim Mn -> (Mx < Mn)%Z ->
  (max_height c = Some Hx /\ Hx <> 0%Z) \/
    ((max_height c = None \/ max_height c = Some 0%Z) /\ Hx = height img) ->
  (min_height c = Some Hn /\ Hn <> 0%Z) \/
    ((min_height c = None \/ min_height c = Some 0%Z) /\ Hn = height img) ->
  (Z.abs Hx < 2 ^ 53)%Z -> (Z.abs Hn < 2 ^ 53)%Z ->
  let w := inject_Z (width img) in
  let ht := inject_Z (height img) in
  let a := rnd (inject_Z Mx / w) in
  let b := rnd (inject_Z Hx / ht) in
  let a' := rnd (inject_Z Mn / w) in
  let b' := rnd (inject_Z Hn / ht) in
  let d := if Qlt_bool b a then b else a in
  let down := if Qlt_bool d 1 then d else 1 in
  let up := if Qlt_bool a' b' then b' else a' in
  let new_w := Z.max 1 (rne (rnd (w * up))) in
  let new_h := Z.max 1 (rne (rnd (ht * up))) in
  down < up /\
  bounds_scale c (width img) (height img) = Ok (Finite up) /\
  resize_within_bounds r c name h =
    (if Qlt_bool (Qabs (rnd (up - 1))) (rnd (1 # 1000000)) then Returns r h
     else resize r (new_w, new_h) (map_resample name) h) /\
  ((width img < Mn)%Z -> (Mx < Mn <= new_w)%Z) /\
  ((Mn <= width img)%Z -> Hn = height img ->
   up == 1 /\ resize_within_bounds r c name h = Returns r h).
Proof.
  intros Hr [Hw Hh] Hup HMx HMn DMx DMn Hlt HHx HHn BHx BHn
    w ht a b a' b' d down up new_w new_h.
  destruct (bounds_scale_min_over_max c (width img) (height img) Mx Mn Hx Hn
              Hw Hh Hup HMx HMn DMx DMn Hlt HHx HHn BHx BHn)
    as (_ & _ & Ebs & L1 & L2 & L3 & L4).
  fold w ht in Ebs, L1, L2, L3, L4. fold a b a' b' in Ebs, L1, L2, L3, L4.
  fold d in L1. fold down in L1. fold up in Ebs, L3, L4.
  assert (Erw : resize_within_bounds r c name h =
    (if Qlt_bool (Qabs (rnd (up - 1))) (rnd (1 # 1000000)) then Returns r h
     else resize r (new_w, new_h) (map_resample name) h)).
  { unfold resize_within_bounds, PIL.size, get. run_M. rewrite Hr, Ebs.
    unfold lift at 1. rewrite (within_tolerance_one up L4).
    destruct (Qlt_bool (Qabs (rnd (up - 1))) (rnd (1 # 1000000))); [reflexivity|].
    rewrite !scaled_value by assumption. unfold lift. reflexivity. }
  pose proof (dim_Q _ Hw) as [W1 W2].
  split; [lra|]. split; [exact Ebs|]. split; [exact Erw|]. split.
  - intros Hnarrow.
    pose proof (quotient_times_size Mn (width img) DMn Hw) as [Q1 _].
    fold w a' in Q1.
    assert (P : w * a' <= w * up) by (apply Qmult_le_l; [unfold w; lra | exact L3]).
    assert (G : (Mn <= rne (rnd (w * up)))%Z).
    { apply round_ge_of_quarter; [unfold dim in DMn; lia | lra]. }
    unfold new_w. lia.
  - intros Hwide EHn.
    assert (A1 : a' <= 1) by (apply quotient_le_one; assumption).
    assert (B1 : b' = 1) by (unfold b', ht; rewrite EHn; apply quotient_same, Hh).
    assert (U : up == 1).
    { unfold up. rewrite B1. destruct (Qlt_bool a' 1) eqn:E; [reflexivity|].
      apply Qlt_bool_false in E. lra. }
    split; [exact U|]. rewrite Erw.
    rewrite (rnd_comp (up - 1) 0) by (rewrite U; ring).
    reflexivity.
Qed.

(** The theorem above at a concrete input, where its hypotheses hold. *)
Lemma min_bound_overrides_max_witness :
  let c := {| min_width := Some 800%Z; min_height := None;
              max_width := Some 400%Z; max_height := None;
              allow_upscale := true |} in
  bounds_scale c 500 250 = Ok (to_float (8 # 5)) /\
  rnd (4 # 5) < rnd (8 # 5) /\
  resize_within_bounds 0%nat c None [Image 500 250 (Raw 0)] =
    Returns 1%nat
      [Image 500 250 (Raw 0);
       Image 800 400 (Resampled (Raw 0) (800, 400)%Z LANCZOS)] /\
  (400 < 800 <= 800)%Z.
Proof.
  cbv zeta.
  destruct (min_bound_overrides_max [Image 500 250 (Raw 0)] 0%nat
              (Image 500 250 (Raw 0))
              {| min_width := Some 800%Z; min_height := None;
                 max_width := Some 400%Z; max_height := None;
                 allow_upscale := true |} None 400 800 250 250 eq_refl)
    as (H1 & H2 & H3 & H4 & _).
  - vm_compute. repeat split; reflexivity.
  - reflexivity.
  - reflexivity.
  - reflexivity.
  - vm_compute. split; reflexivity.
  - vm_compute. split; reflexivity.
  - lia.
  - right. split; [left|]; reflexivity.
  - right. split; [left|]; reflexivity.
  - vm_compute. reflexivity.
  - vm_compute. reflexivity.
  - split; [etransitivity; [exact H2 | vm_compute; reflexivity]|].
    split; [vm_compute; reflexivity|].
    split; [rewrite H3; vm_compute; reflexivity|].
    assert (H5 := H4 ltac:(cbn; lia)). vm_compute in H5. exact H5.
Defined.

(** The scale when a max width below the width is set and no min bound is
    in force: at most one, at most the rounded quotient [M / width]. *)
Lemma bounds_scale_max_width (c : Constraints) (w ht M : Z) :
  dim w -> dim ht -> max_width c = Some M -> (0 < M < w)%Z ->
  (forall m, max_height c = Some m -> (Z.abs m < 2 ^ 53)%Z) ->
  allow_upscale c = false \/
    (truthy (min_width c) = false /\ truthy (min_height c) = false) ->
  exists q, bounds_scale c w ht = Ok (Finite q) /\
    q <= 1 /\ q <= rnd (inject_Z M / inject_Z w) /\ Qabs q <= pow2 53.
Proof.
  intros Hw Hh HM HMw Hmh Hno.
  assert (E : allow_upscale c && (truthy (min_width c) || truthy (min_height c)) = false).
  { destruct Hno as [-> | [-> ->]]; [reflexivity | apply andb_false_r]. }
  assert (Bh : (Z.abs (or_else (max_height c) ht) < 2 ^ 53)%Z).
  { destruct (max_height c) as [m|] eqn:Em; cbn; [|unfold dim in Hh; lia].
    destruct (m =? 0)%Z; [unfold dim in Hh; lia | apply Hmh; reflexivity]. }
  unfold bounds_scale. rewrite E, HM, truthy_nonzero by lia. cbn [orb].
  unfold scale_down, mbind, result_bind.
  rewrite HM, (or_else_value (Some M) w M) by (left; split; [reflexivity | lia]).
  rewrite !int_truediv_ok by (unfold dim in *; lia).
  unfold one. rewrite !min_float.
  set (a := rnd (inject_Z M / inject_Z w)).
  set (b := rnd (inject_Z (or_else (max_height c) ht) / inject_Z ht)).
  assert (Ha : Qabs a <= pow2 53) by (apply quotient_abs; unfold dim in *; lia).
  assert (Hb : Qabs b <= pow2 53) by (apply quotient_abs; unfold dim in *; lia).
  assert (H1 : Qabs 1 <= pow2 53) by (vm_compute; discriminate).
  eexists. split; [reflexivity|].
  destruct (Qlt_bool b a) eqn:E1; [apply Qlt_bool_iff in E1 | apply Qlt_bool_false in E1].
  - destruct (Qlt_bool b 1) eqn:E2;
      [apply Qlt_bool_iff in E2 | apply Qlt_bool_false in E2];
      repeat split; try assumption; lra.
  - destruct (Qlt_bool a 1) eqn:E2;
      [apply Qlt_bool_iff in E2 | apply Qlt_bool_false in E2];
      repeat split; try assumption; lra.
Qed.

(** Below one, a scale further from one than another fails the tolerance
    test if that one does. *)
Lemma tolerance_below_one (q a : Q) :
  q <= a -> a <= 1 ->
  rnd (1 # 1000000) <= Qabs (rnd (a - 1)) ->
  rnd (1 # 1000000) <= Qabs (rnd (q - 1)).
Proof.
  intros Hqa Ha Ht.
  assert (Z0 : rnd 0 == 0) by (apply rnd_0; reflexivity).
  assert (A0 : rnd (a - 1) <= 0) by (rewrite <- Z0; apply rnd_le; lra).
  assert (Q0 : rnd (q - 1) <= rnd (a - 1)) by (apply rnd_le; lra).
  rewrite Qabs_neg in Ht by exact A0. rewrite Qabs_neg by lra. lra.
Qed.

(** On a source at most [10^6] wide, no quotient [M / width] below one is
    within the tolerance of one. *)
Lemma narrow_source_tolerance (M w : Z) :
  (0 < M < w)%Z -> (w <= 1000000)%Z ->
  rnd (1 # 1000000) <= Qabs (rnd (rnd (inject_Z M / inject_Z w) - 1)).
Proof.
  intros HM Hw.
  assert (W1 : 2 <= inject_Z w) by (change 2 with (inject_Z 2); apply inject_Z_le; lia).
  assert (W2 : inject_Z w <= 1000000)
    by (change 1000000 with (inject_Z 1000000); apply inject_Z_le; lia).
  assert (M1 : inject_Z M + 1 <= inject_Z w).
  { change 1 with (inject_Z 1). rewrite <- inject_Z_plus. apply inject_Z_le. lia. }
  apply (tolerance_below_one _ (rnd (999999 # 1000000))).
  - apply rnd_le. apply Qle_shift_div_r; [lra|].
    assert (E : (999999 # 1000000) * inject_Z w == inject_Z w - inject_Z w * (1 # 1000000))
      by ring.
    rewrite E. lra.
  - vm_compute. discriminate.
  - vm_compute. discriminate.
Qed.

(** C2 (amended). Without upscaling a returned image is never larger than
    the source. And a max width is enforced: with [max_width = M] set on a
    wider source, no min bound in force and the scale [M / width] not
    within [1e-6] of one (as is always the case for sources up to [10^6]
    pixels wide), [resize_within_bounds] returns a new image, made by
    resizing the source, whose width is between 1 and [M] and whose height
    is between 1 and the height of the source. *)
Theorem bounds_respected (h : heap) (r : ref) (img : image)
    (c : Constraints) (name : option string) :
  h !! r = Some img -> valid_dims img ->
  (allow_upscale c = false ->
   forall (r' : ref) (h' : heap) (img' : image),
     resize_within_bounds r c name h = Returns r' h' ->
     h' !! r' = Some img' ->
     (width img' <= width img)%Z /\ (height img' <= height img)%Z) /\
  (forall M : Z,
     max_width c = Some M -> (0 < M < width img)%Z ->
     (forall m, max_height c = Some m -> (Z.abs m < 2 ^ 53)%Z) ->
     allow_upscale c = false \/
       ((min_width c = None \/ min_width c = Some 0%Z) /\
        (min_height c = None \/ min_height c = Some 0%Z)) ->
     (width img <= 1000000)%Z \/
       rnd (1 # 1000000)
         <= Qabs (rnd (rnd (inject_Z M / inject_Z (width img)) - 1)) ->
     exists new_w new_h : Z,
       (1 <= new_w <= M)%Z /\ (1 <= new_h <= height img)%Z /\
       resize_within_bounds r c name h =
         Returns (length h)
           (h ++ [Image new_w new_h
                    (Resampled (data img) (new_w, new_h) (map_resample name))])).
Proof.
  intros Hr [Hw Hh]. split.
  - intros Hup r' h' img' Hres Hr'.
    destruct (resize_within_bounds_cases h h' r r' img c name Hr Hres) as (s & Hs & Hc).
    destruct Hc as [(_ & -> & ->) | (_ & nw & nh & d & Hnw & Hnh & -> & ->)].
    + rewrite Hr in Hr'. injection Hr' as <-. lia.
    + rewrite lookup_app_r, Nat.sub_diag in Hr' by lia. injection Hr' as <-. cbn.
      destruct (bounds_scale_clamped c _ _ s Hs (or_introl Hup)) as (q & -> & Hq & _).
      apply dim_Q in Hw as Hw', Hh as Hh'.
      split.
      * apply (scaled_le _ q nw (width img) Hw Hnw); [unfold dim in Hw; lia | nra].
      * apply (scaled_le _ q nh (height img) Hh Hnh); [unfold dim in Hh; lia | nra].
  - intros M HM HMw Hmh Hno Htol.
    assert (Hno' : allow_upscale c = false \/
              (truthy (min_width c) = false /\ truthy (min_height c) = false)).
    { destruct Hno as [? | [[-> | ->] [-> | ->]]]; auto. }
    destruct (bounds_scale_max_width c _ _ M Hw Hh HM HMw Hmh Hno')
      as (q & Es & Q1 & Qa & Qb).
    set (a := rnd (inject_Z M / inject_Z (width img))) in *.
    assert (A1 : a <= 1) by (apply quotient_le_one; [exact Hw | lia]).
    assert (T : rnd (1 # 1000000) <= Qabs (rnd (q - 1))).
    { apply (tolerance_below_one q a Qa A1).
      destruct Htol as [Hn | Ht]; [|exact Ht].
      apply narrow_source_tolerance; assumption. }
    assert (DM : dim M) by (unfold dim in *; lia).
    pose proof (dim_Q _ Hw) as [W1 W2]. pose proof (dim_Q _ Hh) as [H1 H2].
    pose proof (quotient_times_size M (width img) DM Hw) as [_ P]. fold a in P.
    set (new_w := Z.max 1 (rne (rnd (inject_Z (width img) * q)))).
    set (new_h := Z.max 1 (rne (rnd (inject_Z (height img) * q)))).
    assert (Bw : (1 <= new_w <= M)%Z).
    { assert (rne (rnd (inject_Z (width img) * q)) <= M)%Z; [|unfold new_w; lia].
      apply round_le_of_quarter; [unfold dim in DM; lia|].
      assert (inject_Z (width img) * q <= inject_Z (width img) * a)
        by (apply Qmult_le_l; lra).
      lra. }
    assert (Bh : (1 <= new_h <= height img)%Z).
    { assert (rne (rnd (inject_Z (height img) * q)) <= height img)%Z;
        [|unfold new_h, dim in *; lia].
      apply round_le_of_quarter; [unfold dim in Hh; lia|].
      assert (inject_Z (height img) * q <= inject_Z (height img) * 1)
        by (apply Qmult_le_l; lra).
      lra. }
    exists new_w, new_h. split; [exact Bw|]. split; [exact Bh|].
    unfold resize_within_bounds, PIL.size, get. run_M. rewrite Hr, Es.
    unfold lift at 1. rewrite (within_tolerance_one q Qb).
    replace (Qlt_bool (Qabs (rnd (q - 1))) (rnd (1 # 1000000))) with false
      by (symmetry; apply Qlt_bool_false; exact T).
    rewrite !scaled_value by assumption. unfold lift. fold new_w new_h.
    unfold resize, get. run_M. rewrite Hr.
    replace (same_size img (new_w, new_h)) with false.
    2:{ symmetry. unfold same_size. cbn [fst snd]. apply andb_false_iff. left.
        apply Z.eqb_neq. lia. }
    unfold lift, resample. cbn [fst snd].
    replace ((new_w <? 1)%Z || (new_h <? 1)%Z) with false
      by (symmetry; apply orb_false_iff; split; apply Z.ltb_ge; lia).
    reflexivity.
Qed.

(** The theorem above at a concrete input, where its hypotheses hold. *)
Lemma bounds_respected_witness :
  let c := {| min_width := None; min_height := None;
              max_width := Some 400%Z; max_height := None;
              allow_upscale := false |} in
  exists new_w new_h : Z,
    (1 <= new_w <= 400)%Z /\ (1 <= new_h <= 600)%Z /\
    resize_within_bounds 0%nat c (Some "bicubic"%string) [Image 800 600 (Raw 0)] =
      Returns 1%nat
        ([Image 800 600 (Raw 0)] ++
         [Image new_w new_h (Resampled (Raw 0) (new_w, new_h) BICUBIC)]).
Proof.
  refine (proj2 (bounds_respected [Image 800 600 (Raw 0)] 0%nat
                   (Image 800 600 (Raw 0))
                   {| min_width := None; min_height := None;
                      max_width := Some 400%Z; max_height := None;
                      allow_upscale := false |}
                   (Some "bicubic"%string) eq_refl _) 400%Z eq_refl _ _ _ _).
  - vm_compute. repeat split; reflexivity.
  - cbn. lia.
  - intros m Hm. discriminate Hm.
  - left. reflexivity.
  - left. cbn. lia.
Defined.

(** The same call, evaluated: an 800x600 source under [max_width = 400]
    comes back as a new 400x300 image. *)
Example max_width_shrinks_800x600 :
  resize_within_bounds 0%nat
    {| min_width := None; min_height := None;
       max_width := Some 400%Z; max_height := None; allow_upscale := false |}
    None [Image 800 600 (Raw 0)] =
  Returns 1%nat
    [Image 800 600 (Raw 0); Image 400 300 (Resampled (Raw 0) (400, 300)%Z LANCZOS)].
Proof. vm_compute. reflexivity. Qed.

(** C2, as stated, fails: with [max_width = 400], [min_width = 800] and
    upscaling allowed, a 1000x500 source comes back as it is, 1000 wide. *)
Lemma max_bound_counterexample :
  let c := {| min_width := Some 800%Z; min_height := None;
              max_width := Some 400%Z; max_height := None;
              allow_upscale := true |} in
  resize_within_bounds 0%nat c None [Image 1000 500 (Raw 0)] =
    Returns 0%nat [Image 1000 500 (Raw 0)]
  /\ max_width c = Some 400%Z /\ (400 < 1000)%Z /\ ~ (1000 <= 400)%Z.
Proof. cbv zeta. split; [vm_compute; reflexivity|]. repeat split; lia. Qed.

(** The tolerance test has the same effect on very wide images: a scale
    within [1e-6] of one leaves a source above the max bound as it is. *)
Example tolerance_skips_max_bound :
  let c := {| min_width := None; min_height := None;
              max_width := Some 2000000%Z; max_height := None;
              allow_upscale := false |} in
  resize_within_bounds 0%nat c None [Image 2000001 10 (Raw 0)] =
    Returns 0%nat [Image 2000001 10 (Raw 0)].
Proof. vm_compute. reflexivity. Qed.

(** A single min bound is enough: the other one defaults to the size of the
    source, so the min-derived scale is at least one and a source wider
    than the max bound comes back as it is. *)
Example single_min_bound_cancels_max :
  let c := {| min_width := Some 10%Z; min_height := None;
              max_width := Some 400%Z; max_height := None;
              allow_upscale := true |} in
  resize_within_bounds 0%nat c None [Image 1000 500 (Raw 0)] =
    Returns 0%nat [Image 1000 500 (Raw 0)].
Proof. vm_compute. reflexivity. Qed.

End BoundsClaims.

(** ** Object identity and the resample name: claims C9 and C10 *)

Section HeapClaims.

Lemma alloc_extends (i : image) (h : heap) :
  h `prefix_of` (h ++ [i]) /\ fresh h (h ++ [i]) (length h).
Proof.
  split; [apply prefix_app_r; reflexivity|].
  unfold fresh. rewrite length_app. cbn. lia.
Qed.

Lemma crop_extends (r r' : ref) (box : Z * Z * Z * Z) (h h' : heap) :
  crop r box h = Returns r' h' -> h `prefix_of` h' /\ fresh h h' r'.
Proof.
  unfold crop, get, mbind, M_bind. destruct (h !! r) as [i|]; [|discriminate].
  destruct box as [[[x0 y0] x1] y1].
  destruct ((x1 <? x0)%Z || (y1 <? y0)%Z); [discriminate|].
  unfold alloc. intros [= <- <-]. apply alloc_extends.
Qed.

Lemma resize_extends (r r' : ref) (sz : Z * Z) (f : Resampling) (h h' : heap) :
  resize r sz f h = Returns r' h' -> h `prefix_of` h' /\ fresh h h' r'.
Proof.
  unfold resize, get, mbind, M_bind. destruct (h !! r) as [i|]; [|discriminate].
  destruct (same_size i sz).
  - unfold alloc. intros [= <- <-]. apply alloc_extends.
  - unfold lift. destruct (resample i sz f); [|discriminate].
    unfold alloc. intros [= <- <-]. apply alloc_extends.
Qed.

(** [thumbnail] touches the one object it is called on. *)
Lemma thumbnail_cases (r : ref) (sz : Z * Z) (f : Resampling) (h h' : heap) :
  thumbnail r sz f h = Returns tt h' -> h' = h \/ exists i', h' = <[r := i']> h.
Proof.
  unfold thumbnail, get, mbind, M_bind, mret, M_ret.
  destruct (h !! r) as [i|] eqn:Hr; [|discriminate].
  unfold lift at 1. destruct (preserve_aspect_ratio i sz.1 sz.2) as [[final|]|];
    [| intros [= <-]; auto | discriminate].
  destruct (same_size i final); [intros [= <-]; auto|].
  unfold lift. destruct (resample i final f) as [i'|]; [|discriminate].
  unfold put. rewrite Hr. intros [= <-]. eauto.
Qed.

Lemma letterbox_extends (r r' : ref) (sz : Z * Z) (fill : Z * Z * Z)
    (name : option string) (h h' : heap) :
  letterbox_to_aspect r sz fill name h = Returns r' h' ->
  h `prefix_of` h' /\ fresh h h' r'.
Proof.
  unfold letterbox_to_aspect. destruct sz as [tw th].
  unfold copy, get, alloc. run_M.
  destruct (h !! r) as [i|] eqn:Hr; [|discriminate].
  destruct (thumbnail (length h) (tw, th) (map_resample name) (h ++ [i]))
    as [[] h1 | |] eqn:Et; [|cbn; discriminate..].
  assert (Hh1 : exists i1, h1 = h ++ [i1]).
  { apply thumbnail_cases in Et as [-> | [i' ->]]; [eauto|].
    exists i'. rewrite insert_app_r_alt, Nat.sub_diag by lia. reflexivity. }
  destruct Hh1 as [i1 ->].
  unfold new, lift. cbn [fst snd]. destruct ((tw <? 0)%Z || (th <? 0)%Z); [discriminate|].
  unfold alloc, PIL.size, get, mbind, M_bind, mret, M_ret.
  rewrite lookup_app_l by (rewrite !length_app; cbn; lia).
  rewrite lookup_app_r, Nat.sub_diag by lia. cbn [lookup list_lookup].
  unfold paste, get, put, mbind, M_bind.
  rewrite lookup_app_r, Nat.sub_diag by lia. cbn [lookup list_lookup].
  rewrite lookup_app_l by (rewrite !length_app; cbn; lia).
  rewrite lookup_app_r, Nat.sub_diag by lia. cbn [lookup list_lookup].
  rewrite lookup_app_r, Nat.sub_diag by lia. cbn [lookup list_lookup].
  intros [= <- <-].
  rewrite insert_app_r_alt, Nat.sub_diag by lia. cbn [insert list_insert].
  split.
  - rewrite <- app_assoc. apply prefix_app_r. reflexivity.
  - unfold fresh. rewrite !length_app. cbn. lia.
Qed.

Lemma returns_needs_object {A} (r : ref) (k : image -> M A) (h h' : heap) (x : A) :
  (get r ≫= k) h = Returns x h' -> is_Some (h !! r).
Proof.
  unfold get, mbind, M_bind. destruct (h !! r); [eauto | discriminate].
Qed.

(** What a returning call of [center_crop_to_aspect] did, for any float
    as the target aspect. *)
Lemma center_crop_returns (h h' : heap) (r r' : ref) (img : image) (a : float) :
  h !! r = Some img ->
  center_crop_to_aspect r a h = Returns r' h' ->
  exists cur, int_truediv (width img) (height img) = Ok cur /\
    ((within_tolerance cur a = true /\ r' = r /\ h' = h) \/
     (within_tolerance cur a = false /\ h `prefix_of` h' /\ fresh h h' r')).
Proof.
  intros Hr. unfold center_crop_to_aspect, PIL.size, get. run_M.
  rewrite Hr. unfold lift at 1.
  destruct (int_truediv (width img) (height img)) as [cur|] eqn:Ec; [|discriminate].
  intros H. exists cur. split; [reflexivity|].
  destruct (within_tolerance cur a).
  { left. injection H as <- <-. auto. }
  right. split; [reflexivity|]. revert H.
  destruct (float_gt _ _); unfold lift;
    match goal with |- context [match ?x with Ok _ => _ | Raise _ => _ end] =>
      destruct x end; try discriminate; apply crop_extends.
Qed.

(** C9 (amended). No operation of the engine changes an object that was in
    the heap before the call, the input included. [resize_to_exact] and
    [letterbox_to_aspect] return a new object. [center_crop_to_aspect]
    returns the input object itself when the aspect of the source is
    within [1e-6] of the target aspect, and a new object otherwise;
    [resize_within_bounds] returns the input object itself when its scale
    is within [1e-6] of one, and a new object otherwise. *)
Theorem engine_never_mutates_input (h h' : heap) (r r' : ref) :
  (forall a, center_crop_to_aspect r a h = Returns r' h' ->
     h `prefix_of` h' /\ h' !! r = h !! r /\
     exists img cur,
       h !! r = Some img /\ int_truediv (width img) (height img) = Ok cur /\
       ((within_tolerance cur a = true /\ r' = r /\ h' = h) \/
        (within_tolerance cur a = false /\ fresh h h' r'))) /\
  (forall size name, resize_to_exact r size name h = Returns r' h' ->
     h `prefix_of` h' /\ h' !! r = h !! r /\ fresh h h' r') /\
  (forall c name, resize_within_bounds r c name h = Returns r' h' ->
     h `prefix_of` h' /\ h' !! r = h !! r /\
     exists img s,
       h !! r = Some img /\ bounds_scale c (width img) (height img) = Ok s /\
       ((within_tolerance s one = true /\ r' = r /\ h' = h) \/
        (within_tolerance s one = false /\ fresh h h' r'))) /\
  (forall size fill name, letterbox_to_aspect r size fill name h = Returns r' h' ->
     h `prefix_of` h' /\ h' !! r = h !! r /\ fresh h h' r').
Proof.
  assert (keep : forall k : heap, h `prefix_of` k -> is_Some (h !! r) -> k !! r = h !! r).
  { intros k [e ->] Hs. apply lookup_app_l, lookup_lt_is_Some, Hs. }
  split; [|split; [|split]].
  - intros a H.
    assert (Hs : is_Some (h !! r)).
    { destruct (h !! r) eqn:Hr; [eauto|]. exfalso. revert H.
      unfold center_crop_to_aspect, PIL.size, get, mbind, M_bind.
      rewrite Hr. discriminate. }
    pose proof Hs as [i Hr].
    destruct (center_crop_returns h h' r r' i a Hr H)
      as (cur & Ec & [(Et & -> & ->) | (Et & Hp & Hf)]).
    + split; [reflexivity|]. split; [reflexivity|].
      exists i, cur. split; [exact Hr|]. split; [exact Ec|]. left. auto.
    + split; [exact Hp|]. split; [apply keep; assumption|].
      exists i, cur. split; [exact Hr|]. split; [exact Ec|]. right. auto.
  - intros size name H. pose proof (returns_needs_object _ _ _ _ _ H) as Hs.
    apply resize_extends in H as [Hp Hf]. auto.
  - intros c name H.
    assert (Hs : is_Some (h !! r)).
    { destruct (h !! r) eqn:Hr; [eauto|]. exfalso. revert H.
      unfold resize_within_bounds, PIL.size, get, mbind, M_bind.
      rewrite Hr. discriminate. }
    destruct Hs as [i Hr].
    destruct (resize_within_bounds_cases h h' r r' i c name Hr H)
      as (s & Es & [(Et & -> & ->) | (Et & nw & nh & d & _ & _ & -> & ->)]).
    + split; [reflexivity|]. split; [reflexivity|].
      exists i, s. split; [exact Hr|]. split; [exact Es|]. left. auto.
    + destruct (alloc_extends (Image nw nh d) h) as [Hp Hf].
      split; [exact Hp|]. split; [apply keep; [exact Hp | rewrite Hr; eauto]|].
      exists i, s. split; [exact Hr|]. split; [exact Es|]. right. auto.
  - intros size fill name H.
    assert (Hs : is_Some (h !! r)).
    { destruct (h !! r) eqn:Hr; [eauto|]. exfalso. revert H.
      unfold letterbox_to_aspect. destruct size as [tw th].
      unfold copy, get, mbind, M_bind. rewrite Hr. discriminate. }
    apply letterbox_extends in H as [Hp Hf]. auto.
Qed.

(** The theorem above at a concrete input, where its hypotheses hold. *)
Lemma engine_never_mutates_input_witness :
  [Image 2000 1000 (Raw 0)] `prefix_of`
    [Image 2000 1000 (Raw 0); Image 1000 1000 (Cropped (Raw 0) (500, 0, 1500, 1000)%Z)] /\
  [Image 2000 1000 (Raw 0); Image 1000 1000 (Cropped (Raw 0) (500, 0, 1500, 1000)%Z)]
    !! 0%nat = [Image 2000 1000 (Raw 0)] !! 0%nat /\
  exists img cur,
    [Image 2000 1000 (Raw 0)] !! 0%nat = Some img /\
    int_truediv (width img) (height img) = Ok cur /\
    ((within_tolerance cur (Finite 1) = true /\ 1%nat = 0%nat /\
      [Image 2000 1000 (Raw 0); Image 1000 1000 (Cropped (Raw 0) (500, 0, 1500, 1000)%Z)]
      = [Image 2000 1000 (Raw 0)]) \/
     (within_tolerance cur (Finite 1) = false /\
      fresh [Image 2000 1000 (Raw 0)]
        [Image 2000 1000 (Raw 0); Image 1000 1000 (Cropped (Raw 0) (500, 0, 1500, 1000)%Z)]
        1%nat)).
Proof.
  refine (proj1 (engine_never_mutates_input
                   [Image 2000 1000 (Raw 0)]
                   [Image 2000 1000 (Raw 0);
                    Image 1000 1000 (Cropped (Raw 0) (500, 0, 1500, 1000)%Z)]
                   0%nat 1%nat) (Finite 1) _).
  vm_compute. reflexivity.
Defined.

(** C9, as stated, fails: in the no-op branch the object returned is the
    input object itself, not a distinct one. *)
Lemma distinct_object_counterexample :
  center_crop_to_aspect 0%nat (Finite 1) [Image 1000 1000 (Raw 0)] =
    Returns 0%nat [Image 1000 1000 (Raw 0)]
  /\ ~ (0%nat <> 0%nat).
Proof. split; [vm_compute; reflexivity | intros H; apply H; reflexivity]. Qed.

End HeapClaims.

Section ResampleClaims.
Local Open Scope string_scope.

(** C10. [map_resample] is a total function: the three names it knows
    (compared in lower case) give their filter, and every other argument,
    [None] included, gives LANCZOS; so an engine operation called with an
    unknown name behaves as if it had been called with [lanczos]. *)
Theorem map_resample_defaults_to_lanczos (name : option string) :
  let name_lower := lower (match name with Some s => s | None => "" end) in
  (name_lower = "nearest" -> map_resample name = NEAREST) /\
  (name_lower = "bilinear" -> map_resample name = BILINEAR) /\
  (name_lower = "bicubic" -> map_resample name = BICUBIC) /\
  (name_lower <> "nearest" -> name_lower <> "bilinear" -> name_lower <> "bicubic" ->
   map_resample name = LANCZOS /\
   map_resample name = map_resample (Some "lanczos") /\
   (forall r size, resize_to_exact r size name = resize_to_exact r size (Some "lanczos")) /\
   (forall r c, resize_within_bounds r c name = resize_within_bounds r c (Some "lanczos")) /\
   (forall r size fill,
      letterbox_to_aspect r size fill name = letterbox_to_aspect r size fill (Some "lanczos"))).
Proof.
  intros name_lower. unfold map_resample. fold name_lower.
  split; [intros ->; reflexivity|].
  split; [intros ->; reflexivity|].
  split; [intros ->; reflexivity|].
  intros H1 H2 H3.
  assert (E : (if String.eqb name_lower "nearest" then NEAREST
               else if String.eqb name_lower "bilinear" then BILINEAR
               else if String.eqb name_lower "bicubic" then BICUBIC else LANCZOS) = LANCZOS).
  { apply String.eqb_neq in H1, H2, H3. rewrite H1, H2, H3. reflexivity. }
  assert (E' : map_resample name = LANCZOS) by exact E.
  split; [exact E|]. split; [exact E|].
  unfold resize_to_exact, resize_within_bounds, letterbox_to_aspect.
  rewrite E'. change (map_resample (Some "lanczos")) with LANCZOS.
  repeat split.
Qed.

(** The theorem above at a concrete input, where its hypotheses hold. *)
Lemma map_resample_defaults_to_lanczos_witness :
  map_resample (Some "lancoz") = LANCZOS /\
  map_resample (Some "lancoz") = map_resample (Some "lanczos") /\
  (forall r size,
     resize_to_exact r size (Some "lancoz") = resize_to_exact r size (Some "lanczos")) /\
  (forall r c,
     resize_within_bounds r c (Some "lancoz") = resize_within_bounds r c (Some "lanczos")) /\
  (forall r size fill,
     letterbox_to_aspect r size fill (Some "lancoz")
     = letterbox_to_aspect r size fill (Some "lanczos")).
Proof.
  refine (proj2 (proj2 (proj2 (map_resample_defaults_to_lanczos (Some "lancoz")))) _ _ _);
    vm_compute; discriminate.
Defined.

Example map_resample_examples :
  map_resample (Some "NeArest") = NEAREST /\
  map_resample (Some "Bilinear") = BILINEAR /\
  map_resample (Some "BICUBIC") = BICUBIC /\
  map_resample (Some "lanczos") = LANCZOS /\
  map_resample (Some "lancoz") = LANCZOS /\
  map_resample (Some "box") = LANCZOS /\
  map_resample (Some "") = LANCZOS /\
  map_resample None = LANCZOS.
Proof. repeat split. Qed.

End ResampleClaims.

(** ** The size computed by thumbnail *)

Section Thumbnail.
Local Open Scope Q_scope.

Lemma Qfloor_ge n x : inject_Z n <= x -> (n <= Qfloor x)%Z.
Proof. intros H. rewrite <- (Qfloor_Z n). apply Qfloor_resp_le, H. Qed.

Lemma Qfloor_lt n x : x < inject_Z n -> (Qfloor x < n)%Z.
Proof.
  intros H. pose proof (Qfloor_le x). rewrite Zlt_Qlt. lra.
Qed.

Lemma Qceiling_le n x : x <= inject_Z n -> (Qceiling x <= n)%Z.
Proof. intros H. rewrite <- (Qceiling_Z n). apply Qceiling_resp_le, H. Qed.

Lemma Qceiling_gt n x : inject_Z n < x -> (n < Qceiling x)%Z.
Proof.
  intros H. pose proof (Qle_ceiling x). rewrite Zlt_Qlt. lra.
Qed.

Lemma Qceiling_le_succ_floor x : (Qceiling x <= Qfloor x + 1)%Z.
Proof.
  apply Qceiling_le. pose proof (Qlt_floor x). lra.
Qed.

Lemma round_aspect_chosen (v : Q) (key : Z -> result float) (kv : Z -> Q) :
  (forall n, (Qfloor v <= n <= Qceiling v)%Z -> key n = Ok (Finite (kv n))) ->
  round_aspect (Finite v) key = Ok (chosen v kv).
Proof.
  intros Hk. unfold round_aspect, floor, ceil. unfold mbind, result_bind.
  pose proof (Qle_floor_ceiling v).
  assert (Qfloor v <= Qceiling v)%Z by (rewrite Zle_Qle; lra).
  rewrite !Hk by lia. reflexivity.
Qed.

Lemma chosen_le (v : Q) (kv : Z -> Q) (T : Z) :
  v <= inject_Z T + (1 # 4) -> (1 <= T)%Z -> kv T <= kv (T + 1)%Z ->
  (1 <= chosen v kv <= T)%Z.
Proof.
  intros Hv HT Hk. unfold chosen.
  assert (Hlo : (Qfloor v <= T)%Z).
  { assert (Qfloor v < T + 1)%Z; [|lia]. apply Qfloor_lt.
    rewrite inject_Z_plus. change (inject_Z 1) with 1. lra. }
  assert (Hhi : (Qceiling v <= T + 1)%Z).
  { apply Qceiling_le. rewrite inject_Z_plus. change (inject_Z 1) with 1. lra. }
  destruct (Z_le_gt_dec (Qceiling v) T) as [Hc | Hc].
  - destruct (Qlt_bool _ _); lia.
  - assert (Ehi : Qceiling v = (T + 1)%Z) by lia.
    assert (Elo : Qfloor v = T) by (pose proof (Qceiling_le_succ_floor v); lia).
    rewrite Ehi, Elo.
    assert (E : Qlt_bool (kv (T + 1)%Z) (kv T) = false) by (apply Qlt_bool_false; exact Hk).
    rewrite E. lia.
Qed.

Lemma chosen_exact (v : Q) (kv : Z -> Q) (T : Z) :
  inject_Z T - (1 # 4) <= v -> v <= inject_Z T + (1 # 4) -> (1 <= T)%Z ->
  kv T <= kv (T + 1)%Z -> kv T < kv (T - 1)%Z ->
  chosen v kv = T.
Proof.
  intros Hv1 Hv2 HT Hk1 Hk2. unfold chosen.
  assert (Hlo : (Qfloor v <= T)%Z).
  { assert (Qfloor v < T + 1)%Z; [|lia]. apply Qfloor_lt.
    rewrite inject_Z_plus. change (inject_Z 1) with 1. lra. }
  assert (Hlo' : (T - 1 <= Qfloor v)%Z).
  { apply Qfloor_ge. replace (T - 1)%Z with (T + -1)%Z by lia.
    rewrite inject_Z_plus. change (inject_Z (-1)) with (-1). lra. }
  assert (Hhi : (Qceiling v <= T + 1)%Z).
  { apply Qceiling_le. rewrite inject_Z_plus. change (inject_Z 1) with 1. lra. }
  assert (Hhi' : (T <= Qceiling v)%Z).
  { assert (T - 1 < Qceiling v)%Z; [|lia]. apply Qceiling_gt.
    replace (T - 1)%Z with (T + -1)%Z by lia.
    rewrite inject_Z_plus. change (inject_Z (-1)) with (-1). lra. }
  pose proof (Qceiling_le_succ_floor v) as Hd.
  pose proof (Qle_floor_ceiling v) as Hfc.
  assert (Hfc' : (Qfloor v <= Qceiling v)%Z) by (rewrite Zle_Qle; lra).
  destruct (Z.eq_dec (Qfloor v) T) as [Elo | Nlo].
  - rewrite Elo. destruct (Z.eq_dec (Qceiling v) T) as [Ehi | Nhi].
    + rewrite Ehi. destruct (Qlt_bool _ _); lia.
    + assert (Ehi : Qceiling v = (T + 1)%Z) by lia. rewrite Ehi.
      assert (E : Qlt_bool (kv (T + 1)%Z) (kv T) = false) by (apply Qlt_bool_false; exact Hk1).
      rewrite E. lia.
  - assert (Elo : Qfloor v = (T - 1)%Z) by lia.
    assert (Ehi : Qceiling v = T) by lia.
    rewrite Elo, Ehi.
    assert (E : Qlt_bool (kv T) (kv (T - 1)%Z) = true) by (apply Qlt_bool_iff; exact Hk2).
    rewrite E. lia.
Qed.

Lemma quotient_bounds p d :
  (0 <= p)%Z -> (0 < d)%Z -> 0 <= inject_Z p / inject_Z d /\ inject_Z p / inject_Z d <= inject_Z p.
Proof.
  intros Hp Hd.
  assert (P : 0 <= inject_Z p) by (change 0 with (inject_Z 0); apply inject_Z_le; lia).
  assert (D : 1 <= inject_Z d) by (change 1 with (inject_Z 1); apply inject_Z_le; lia).
  split.
  - apply Qle_shift_div_l; lra.
  - apply Qle_shift_div_r; [lra | nra].
Qed.

Lemma rnd_quotient_bounds p d :
  (0 <= p < 2 ^ 53)%Z -> (0 < d)%Z ->
  0 <= rnd (inject_Z p / inject_Z d) /\ rnd (inject_Z p / inject_Z d) <= inject_Z p.
Proof.
  intros Hp Hd. destruct (quotient_bounds p d ltac:(lia) Hd) as [Q0 Q1]. split.
  - apply rnd_nonneg, Q0.
  - apply Qle_trans with (rnd (inject_Z p)); [apply rnd_le, Q1|].
    rewrite rnd_Z by lia. apply Qle_refl.
Qed.

(** The key of [round_aspect]: the distance between the aspect [A] and
    the aspect [p / d] of a candidate size. *)
Lemma key_value (A : Q) (p d : Z) :
  0 <= A -> A <= inject_Z (2 ^ 31) -> (0 <= p <= 2 ^ 31)%Z -> (0 < d)%Z ->
  (q ← int_truediv p d; Ok (float_abs (float_sub (Finite A) q))) =
    Ok (Finite (Qabs (rnd (A - rnd (inject_Z p / inject_Z d))))).
Proof.
  intros HA0 HA1 Hp Hd. rewrite int_truediv_ok by lia.
  unfold mbind, result_bind. cbn [float_sub].
  destruct (rnd_quotient_bounds p d ltac:(lia) Hd) as [R0 R1].
  assert (P : inject_Z p <= inject_Z (2 ^ 31)) by (apply inject_Z_le; lia).
  rewrite (to_float_finite _ (2 ^ 31)); [reflexivity | lia |].
  apply Qabs_Qle_condition. split; lra.
Qed.

Section Fit.
Variables (i : image) (x y : Z).
Hypothesis Hi : valid_dims i.
Hypothesis Hx : dim x.
Hypothesis Hy : dim y.

Let A := rnd (inject_Z (width i) / inject_Z (height i)).
Let B := rnd (inject_Z x / inject_Z y).

Lemma aspect_range : 0 < A /\ A <= inject_Z (2 ^ 31).
Proof.
  destruct Hi as [Hw Hh]. split; [apply aspect_pos; assumption|].
  destruct (rnd_quotient_bounds (width i) (height i)) as [_ R];
    [unfold dim in *; lia.. |].
  fold A in R. eapply Qle_trans; [exact R|]. apply inject_Z_le. unfold dim in *. lia.
Qed.

Lemma key_width_mono : A <= B -> key_width A y x <= key_width A y (x + 1).
Proof.
  intros HAB. unfold key_width. fold B.
  assert (HB : B <= rnd (inject_Z (x + 1) / inject_Z y)).
  { apply rnd_le. unfold dim in *. apply dim_Q in Hy as [Y1 Y2].
    apply Qmult_le_compat_r; [apply inject_Z_le; lia|].
    apply Qinv_le_0_compat. lra. }
  set (B' := rnd (inject_Z (x + 1) / inject_Z y)) in *.
  assert (R1 : rnd (A - B') <= rnd (A - B)) by (apply rnd_le; lra).
  assert (R2 : rnd (A - B) <= 0).
  { rewrite <- (rnd_0 0) by reflexivity. apply rnd_le. lra. }
  rewrite !Qabs_neg by lra. lra.
Qed.

Lemma key_height_mono : B <= A -> key_height A x y <= key_height A x (y + 1).
Proof.
  intros HBA. unfold key_height.
  destruct (Z.eqb_spec y 0) as [E | _]; [unfold dim in *; lia|].
  destruct (Z.eqb_spec (y + 1) 0) as [E | _]; [unfold dim in *; lia|].
  fold B.
  assert (HB : rnd (inject_Z x / inject_Z (y + 1)) <= B).
  { apply rnd_le. pose proof Hx as Hx'. pose proof Hy as Hy'.
    apply dim_Q in Hx' as [X1 X2], Hy' as [Y1 Y2].
    assert (Y' : inject_Z (y + 1) == inject_Z y + 1)
      by (rewrite inject_Z_plus; reflexivity).
    apply Qle_shift_div_l; [lra|].
    assert (E : inject_Z x / inject_Z (y + 1) * inject_Z y
                == inject_Z x * (inject_Z y / inject_Z (y + 1))) by (field; lra).
    rewrite E.
    assert (inject_Z y / inject_Z (y + 1) <= 1) by (apply Qle_shift_div_r; lra).
    nra. }
  set (B' := rnd (inject_Z x / inject_Z (y + 1))) in *.
  assert (R1 : rnd (A - B) <= rnd (A - B')) by (apply rnd_le; lra).
  assert (R2 : 0 <= rnd (A - B)) by (apply rnd_nonneg; lra).
  rewrite !Qabs_pos by lra. exact R1.
Qed.

(** Branch "x / y >= aspect": the new width. *)
Lemma fit_width :
  A <= B ->
  exists v,
    int_mul_float y (Finite A) = Ok (Finite v) /\
    round_aspect (Finite v)
      (fun n => q ← int_truediv n y; Ok (float_abs (float_sub (Finite A) q)))
      = Ok (chosen v (key_width A y)) /\
    (1 <= chosen v (key_width A y) <= x)%Z /\
    v = rnd (inject_Z y * A).
Proof.
  intros HAB. destruct aspect_range as [A0 A1].
  destruct (too_wide_width x y A Hx Hy A0 HAB) as (E & _ & V0 & V1).
  exists (rnd (inject_Z y * A)). split; [exact E|].
  set (v := rnd (inject_Z y * A)).
  assert (Hv0 : 0 <= v) by (apply rnd_nonneg, V0).
  assert (Hv1 : v <= inject_Z x + (1 # 4)).
  { unfold v. rewrite <- (quarter_repr x) by (unfold dim in Hx; lia).
    apply rnd_le, V1. }
  split; [|split; [|reflexivity]].
  - apply round_aspect_chosen. intros n [N0 N1].
    assert (0 <= Qfloor v)%Z by (apply Qfloor_ge; exact Hv0).
    assert (Qceiling v <= x + 1)%Z.
    { apply Qceiling_le. rewrite inject_Z_plus. change (inject_Z 1) with 1. lra. }
    apply key_value; [lra | exact A1 | unfold dim in *; lia | unfold dim in *; lia].
  - apply chosen_le; [exact Hv1 | unfold dim in Hx; lia | apply key_width_mono, HAB].
Qed.

(** Branch "x / y < aspect": the new height. *)
Lemma fit_height :
  B <= A ->
  exists v,
    int_div_float x (Finite A) = Ok (Finite v) /\
    round_aspect (Finite v)
      (fun n => if (n =? 0)%Z then Ok (Finite 0)
                else q ← int_truediv x n; Ok (float_abs (float_sub (Finite A) q)))
      = Ok (chosen v (key_height A x)) /\
    (1 <= chosen v (key_height A x) <= y)%Z /\
    v = rnd (inject_Z x / A).
Proof.
  intros HBA. destruct aspect_range as [A0 A1].
  destruct (too_tall_height x y A Hx Hy A0 HBA) as (E & _ & V0 & V1).
  exists (rnd (inject_Z x / A)). split; [exact E|].
  set (v := rnd (inject_Z x / A)).
  assert (Hv0 : 0 <= v) by (apply rnd_nonneg, V0).
  assert (Hv1 : v <= inject_Z y + (1 # 4)).
  { unfold v. rewrite <- (quarter_repr y) by (unfold dim in Hy; lia).
    apply rnd_le, V1. }
  split; [|split; [|reflexivity]].
  - apply round_aspect_chosen. intros n [N0 N1].
    assert (0 <= Qfloor v)%Z by (apply Qfloor_ge; exact Hv0).
    assert (Qceiling v <= y + 1)%Z.
    { apply Qceiling_le. rewrite inject_Z_plus. change (inject_Z 1) with 1. lra. }
    unfold key_height. destruct (Z.eqb_spec n 0) as [-> | Hn]; [reflexivity|].
    apply key_value; [lra | exact A1 | unfold dim in *; lia | lia].
  - apply chosen_le; [exact Hv1 | unfold dim in Hy; lia | apply key_height_mono, HBA].
Qed.

(** The size computed by [thumbnail] fits the requested box, and is
    [None] (leave the image alone) exactly when the image already fits. *)
Lemma preserve_aspect_ratio_fits :
  exists res, preserve_aspect_ratio i x y = Ok res /\
    match res with
    | None => (width i <= x)%Z /\ (height i <= y)%Z
    | Some (x', y') =>
        (1 <= x' <= x)%Z /\ (1 <= y' <= y)%Z /\ ~ ((width i <= x)%Z /\ (height i <= y)%Z)
    end.
Proof.
  unfold preserve_aspect_ratio.
  destruct ((width i <=? x)%Z && (height i <=? y)%Z) eqn:Efit.
  { exists None. split; [reflexivity|].
    apply andb_true_iff in Efit as [E1 E2]. apply Z.leb_le in E1, E2. auto. }
  assert (Hnot : ~ ((width i <= x)%Z /\ (height i <= y)%Z)).
  { intros [E1 E2]. apply Z.leb_le in E1, E2. rewrite E1, E2 in Efit. discriminate. }
  destruct Hi as [Hw Hh].
  rewrite (int_truediv_ok (width i) (height i)) by (unfold dim in *; lia).
  rewrite (int_truediv_ok x y) by (unfold dim in *; lia).
  unfold mbind at 1 2. unfold result_bind at 1 2. fold A B.
  unfold float_ge, float_le.
  destruct (Qle_bool A B) eqn:E.
  - apply Qle_bool_iff in E. destruct (fit_width E) as (v & E1 & E2 & Hb & _).
    rewrite E1. unfold mbind at 1. unfold result_bind at 1.
    rewrite E2. unfold mbind, result_bind.
    eexists. split; [reflexivity|]. cbn. unfold dim in Hy. repeat split; try lia; tauto.
  - apply Qle_bool_false in E.
    destruct (fit_height (Qlt_le_weak _ _ E)) as (v & E1 & E2 & Hb & _).
    rewrite E1. unfold mbind at 1. unfold result_bind at 1.
    rewrite E2. unfold mbind, result_bind.
    eexists. split; [reflexivity|]. cbn. unfold dim in Hx. repeat split; try lia; tauto.
Qed.

(** The size that [thumbnail] computes, in plain arithmetic: none when the
    image fits the box, and otherwise the box with one side replaced by
    the candidate that [round_aspect] picks. *)
Lemma preserve_aspect_ratio_value :
  preserve_aspect_ratio i x y =
    Ok (if ((width i <=? x) && (height i <=? y))%Z then None
        else Some (if Qle_bool A B
                   then (chosen (rnd (inject_Z y * A)) (key_width A y), y)
                   else (x, chosen (rnd (inject_Z x / A)) (key_height A x)))).
Proof.
  unfold preserve_aspect_ratio.
  destruct ((width i <=? x)%Z && (height i <=? y)%Z); [reflexivity|].
  destruct Hi as [Hw Hh].
  rewrite (int_truediv_ok (width i) (height i)) by (unfold dim in *; lia).
  rewrite (int_truediv_ok x y) by (unfold dim in *; lia).
  unfold mbind at 1 2. unfold result_bind at 1 2. fold A B.
  unfold float_ge, float_le.
  destruct (Qle_bool A B) eqn:E.
  - apply Qle_bool_iff in E. destruct (fit_width E) as (v & E1 & E2 & _ & Ev).
    rewrite E1. unfold mbind at 1. unfold result_bind at 1.
    rewrite E2. unfold mbind, result_bind. subst v. reflexivity.
  - apply Qle_bool_false in E.
    destruct (fit_height (Qlt_le_weak _ _ E)) as (v & E1 & E2 & _ & Ev).
    rewrite E1. unfold mbind at 1. unfold result_bind at 1.
    rewrite E2. unfold mbind, result_bind. subst v. reflexivity.
Qed.

(** When the box has exactly the aspect of the image and is smaller, the
    computed size is the box itself. *)
Lemma preserve_aspect_ratio_exact :
  (width i * y = x * height i)%Z -> (x < width i)%Z ->
  preserve_aspect_ratio i x y = Ok (Some (x, y)).
Proof.
  intros Hasp Hlt. destruct Hi as [Hw Hh].
  assert (EAB : A = B).
  { unfold A, B. apply rnd_comp.
    pose proof Hx as Hx'. pose proof Hy as Hy'. pose proof Hw as Hw'. pose proof Hh as Hh'.
    apply dim_Q in Hx' as [? ?], Hy' as [? ?], Hw' as [? ?], Hh' as [? ?].
    assert (E : inject_Z (width i) * inject_Z y == inject_Z x * inject_Z (height i))
      by (rewrite <- !inject_Z_mult, Hasp; reflexivity).
    field_simplify_eq; [|lra]. rewrite E. ring. }
  unfold preserve_aspect_ratio.
  destruct (Z.leb_spec (width i) x) as [L | _]; [lia|]. cbn [andb].
  rewrite (int_truediv_ok (width i) (height i)) by (unfold dim in *; lia).
  rewrite (int_truediv_ok x y) by (unfold dim in *; lia).
  unfold mbind at 1 2. unfold result_bind at 1 2. fold A B.
  unfold float_ge, float_le.
  assert (HAB : A <= B) by (rewrite EAB; apply Qle_refl).
  apply Qle_bool_iff in HAB as Hb. rewrite Hb.
  destruct (fit_width HAB) as (v & E1 & E2 & _ & Ev).
  rewrite E1. unfold mbind at 1. unfold result_bind at 1.
  rewrite E2. unfold mbind, result_bind. do 3 f_equal.
  (* the candidate chosen is x *)
  destruct (aspect_times_height x y Hx Hy) as [T1 T2]. fold B in T1, T2.
  pose proof Hx as Hx'. pose proof Hy as Hy'.
  apply dim_Q in Hx' as [X1 X2], Hy' as [Y1 Y2]. unfold eps in T1, T2.
  rewrite <- EAB in T1, T2.
  apply chosen_exact.
  - rewrite Ev, <- (quarter_below_repr x) by (unfold dim in Hx; lia).
    apply rnd_le. lra.
  - rewrite Ev, <- (quarter_repr x) by (unfold dim in Hx; lia).
    apply rnd_le. lra.
  - unfold dim in Hx. lia.
  - apply key_width_mono, HAB.
  - unfold key_width.
    assert (K0 : Qabs (rnd (A - rnd (inject_Z x / inject_Z y))) == 0).
    { fold B. rewrite (rnd_0 (A - B)); [reflexivity | rewrite EAB; ring]. }
    rewrite K0.
    set (C := rnd (inject_Z (x - 1) / inject_Z y)).
    assert (HC : inject_Z y * C <= inject_Z x - 1 + inject_Z x * (1 # 9007199254740992)).
    { destruct (Z.eq_dec x 1%Z) as [Ex1 | Hx1].
      - unfold C. rewrite (rnd_0 (inject_Z (x - 1) / inject_Z y))
          by (rewrite Ex1; reflexivity).
        lra.
      - assert (Dx : dim (x - 1)) by (unfold dim in *; lia).
        destruct (aspect_times_height (x - 1) y Dx Hy) as [_ T3]. fold C in T3.
        unfold eps in T3. replace (x - 1)%Z with (x + -1)%Z in T3 by lia.
        rewrite inject_Z_plus in T3. change (inject_Z (-1)) with (-1) in T3. lra. }
    assert (Hd : pow2 (-32) <= A - C).
    { change (pow2 (-32)) with (1 # 4294967296).
      apply Qnot_lt_le. intros Hc.
      assert (inject_Z y * (A - C) <= inject_Z y * (1 # 4294967296))
        by (apply Qmult_le_l; lra).
      lra. }
    apply rnd_le in Hd.
    assert (R : rnd (pow2 (-32)) == pow2 (-32)).
    { assert (E : pow2 (-32) == inject_Z 1 * pow2 (-32)) by (change (inject_Z 1) with 1; ring).
      rewrite (rnd_comp _ _ E), rnd_repr by (cbn; lia). symmetry. exact E. }
    rewrite R in Hd. pose proof (pow2_pos (-32)).
    rewrite Qabs_pos by lra. lra.
Qed.

End Fit.
End Thumbnail.

(** ** letterbox_to_aspect: claims C7 and C3 *)

Section LetterboxClaims.

Lemma thumbnail_on_copy (h : heap) (img : image) (tw th : Z) (f : Resampling)
    (res : option (Z * Z)) :
  preserve_aspect_ratio img tw th = Ok res ->
  match res with Some sz => (1 <= sz.1)%Z /\ (1 <= sz.2)%Z | None => True end ->
  thumbnail (length h) (tw, th) f (h ++ [img]) = Returns tt (h ++ [thumb img res f]).
Proof.
  intros Hres Hsz. unfold thumbnail, get. run_M.
  rewrite lookup_app_r, Nat.sub_diag by lia. cbn [lookup list_lookup fst snd].
  rewrite Hres. unfold lift at 1. destruct res as [sz|]; [|reflexivity].
  unfold thumb. destruct (same_size img sz); [reflexivity|].
  unfold lift, resample. destruct Hsz as [S1 S2].
  destruct (Z.ltb_spec sz.1 1); [lia|]. destruct (Z.ltb_spec sz.2 1); [lia|].
  cbn [orb]. unfold put. rewrite lookup_app_r, Nat.sub_diag by lia.
  cbn [lookup list_lookup]. rewrite insert_app_r_alt, Nat.sub_diag by lia.
  reflexivity.
Qed.

Lemma letterbox_result (h : heap) (r : ref) (img : image) (tw th : Z)
    (fill : Z * Z * Z) (name : option string) (res : option (Z * Z)) :
  h !! r = Some img ->
  preserve_aspect_ratio img tw th = Ok res ->
  match res with Some sz => (1 <= sz.1)%Z /\ (1 <= sz.2)%Z | None => True end ->
  (0 <= tw)%Z -> (0 <= th)%Z ->
  let scaled := thumb img res (map_resample name) in
  letterbox_to_aspect r (tw, th) fill name h =
    Returns (S (length h))
      (h ++ [scaled;
             Image tw th
               (Pasted (Solid fill) (data scaled)
                  ((tw - width scaled) / 2) ((th - height scaled) / 2))]).
Proof.
  intros Hr Hres Hsz Htw Hth scaled.
  unfold letterbox_to_aspect, copy, get, alloc. run_M.
  rewrite Hr. rewrite (thumbnail_on_copy h img tw th _ res Hres Hsz). fold scaled.
  unfold new, lift. cbn [fst snd].
  destruct (Z.ltb_spec tw 0); [lia|]. destruct (Z.ltb_spec th 0); [lia|]. cbn [orb].
  unfold alloc, PIL.size, get, mbind, M_bind, mret, M_ret.
  rewrite length_app. cbn [length].
  replace (length h + 1)%nat with (S (length h)) by lia.
  rewrite <- app_assoc. cbn [app].
  rewrite lookup_app_r, Nat.sub_diag by lia. cbn [lookup list_lookup].
  unfold paste, get, put, mbind, M_bind.
  assert (E1 : (S (length h) - length h)%nat = 1%nat) by lia.
  rewrite lookup_app_r, E1 by lia. cbn [lookup list_lookup].
  rewrite lookup_app_r, Nat.sub_diag by lia. cbn [lookup list_lookup].
  rewrite lookup_app_r, E1 by lia. cbn [lookup list_lookup fst snd].
  rewrite insert_app_r_alt, E1 by lia.
  reflexivity.
Qed.

(** C7. For a target of positive size, with [A] the aspect of the source
    and [B] that of the target: the source is scaled to [sz], which is its
    own size when it fits the target, and otherwise the target with one
    side replaced by the candidate that [thumbnail] rounds to ([H * A]
    wide when [A <= B], [W / A] high otherwise); [sz] is at least one and
    at most the target in each axis. Whenever [letterbox_to_aspect]
    returns, its result is a new canvas of exactly the target size, filled
    with the fill colour, with the scaled source pasted at
    [x = (W - scaled_w) // 2], [y = (H - scaled_h) // 2], both
    non-negative; and it returns that canvas whenever [Image.new]
    allocates it. *)
Theorem letterbox_exact_size_centered (h : heap) (r : ref) (img : image)
    (W H : Z) (fill : Z * Z * Z) (name : option string) :
  h !! r = Some img -> valid_dims img -> dim W -> dim H ->
  let A := rnd (inject_Z (width img) / inject_Z (height img)) in
  let B := rnd (inject_Z W / inject_Z H) in
  let sz :=
    if ((width img <=? W) && (height img <=? H))%Z then (width img, height img)
    else if Qle_bool A B
         then (chosen (rnd (inject_Z H * A)) (key_width A H), H)
         else (W, chosen (rnd (inject_Z W / A)) (key_height A W)) in
  let scaled :=
    if same_size img sz then img
    else Image sz.1 sz.2 (Resampled (data img) sz (map_resample name)) in
  let x := ((W - sz.1) / 2)%Z in
  let y := ((H - sz.2) / 2)%Z in
  let canvas := Image W H (Pasted (Solid fill) (data scaled) x y) in
  (1 <= sz.1 <= W)%Z /\ (1 <= sz.2 <= H)%Z /\ (0 <= x)%Z /\ (0 <= y)%Z /\
  width scaled = sz.1 /\ height scaled = sz.2 /\
  (forall (r' : ref) (h' : heap),
     letterbox_to_aspect r (W, H) fill name h = Returns r' h' ->
     r' = S (length h) /\ h' = h ++ [scaled; canvas]) /\
  (forall (c : ref) (h1 : heap),
     new (W, H) fill (h ++ [scaled]) = Returns c h1 ->
     letterbox_to_aspect r (W, H) fill name h = Returns c (<[c := canvas]> h1)).
Proof.
  intros Hr Hv HW HH A B sz scaled x y canvas.
  pose proof (preserve_aspect_ratio_value img W H Hv HW HH) as Hval.
  destruct (preserve_aspect_ratio_fits img W H Hv HW HH) as (res & Hres & Hb).
  rewrite Hval in Hres. injection Hres as <-. fold A B in Hb, Hval.
  set (res := if ((width img <=? W) && (height img <=? H))%Z then None
              else Some (if Qle_bool A B
                         then (chosen (rnd (inject_Z H * A)) (key_width A H), H)
                         else (W, chosen (rnd (inject_Z W / A)) (key_height A W))))
    in *.
  assert (Hsz : match res with
                | Some s => (1 <= s.1)%Z /\ (1 <= s.2)%Z
                | None => True
                end).
  { destruct res as [[x' y']|]; [cbn; lia | exact I]. }
  assert (Bsz : (1 <= sz.1 <= W)%Z /\ (1 <= sz.2 <= H)%Z).
  { unfold sz. unfold res in Hb.
    destruct ((width img <=? W)%Z && (height img <=? H)%Z).
    - destruct Hv as [Hw Hh]. unfold dim in *. cbn [fst snd]. lia.
    - destruct (Qle_bool A B); cbn [fst snd] in *; lia. }
  assert (Eth : thumb img res (map_resample name) = scaled).
  { unfold thumb, res, scaled, sz.
    destruct ((width img <=? W)%Z && (height img <=? H)%Z); [|reflexivity].
    unfold same_size. cbn [fst snd]. rewrite !Z.eqb_refl. reflexivity. }
  assert (Esc : width scaled = sz.1 /\ height scaled = sz.2).
  { unfold scaled. destruct (same_size img sz) eqn:E; [|split; reflexivity].
    unfold same_size in E. apply andb_true_iff in E as [E1 E2].
    apply Z.eqb_eq in E1, E2. auto. }
  pose proof (letterbox_result h r img W H fill name res Hr Hval Hsz
                ltac:(unfold dim in HW; lia) ltac:(unfold dim in HH; lia)) as Hlb.
  cbv zeta in Hlb. rewrite Eth in Hlb.
  destruct Esc as [Ew Eh]. rewrite Ew, Eh in Hlb. fold x y canvas in Hlb.
  destruct Bsz as [B1 B2].
  split; [exact B1|]. split; [exact B2|].
  split; [apply Z.div_pos; lia|]. split; [apply Z.div_pos; lia|].
  split; [exact Ew|]. split; [exact Eh|]. split.
  - intros r' h' Hret. rewrite Hlb in Hret. injection Hret as <- <-. auto.
  - intros c h1 Hnew. rewrite Hlb. unfold new, lift in Hnew. cbn [fst snd] in Hnew.
    destruct (Z.ltb_spec W 0); [unfold dim in HW; lia|].
    destruct (Z.ltb_spec H 0); [unfold dim in HH; lia|].
    cbn [orb] in Hnew. unfold alloc in Hnew. injection Hnew as <- <-.
    rewrite length_app. cbn [length].
    replace (length h + 1)%nat with (S (length h)) by lia. f_equal.
    rewrite <- app_assoc. cbn [app].
    rewrite insert_app_r_alt by lia.
    replace (S (length h) - length h)%nat with 1%nat by lia. reflexivity.
Qed.

(** The theorem above at a concrete input, where its hypotheses hold. *)
Lemma letterbox_exact_size_centered_witness :
  letterbox_to_aspect 0%nat (400, 400)%Z (0, 0, 0)%Z None [Image 300 600 (Raw 0)] =
    Returns 2%nat
      [Image 300 600 (Raw 0);
       Image 200 400 (Resampled (Raw 0) (200, 400)%Z LANCZOS);
       Image 400 400
         (Pasted (Solid (0, 0, 0)%Z) (Resampled (Raw 0) (200, 400)%Z LANCZOS) 100 0)].
Proof.
  destruct (letterbox_exact_size_centered [Image 300 600 (Raw 0)] 0%nat
              (Image 300 600 (Raw 0)) 400 400 (0, 0, 0)%Z None eq_refl)
    as (_ & _ & _ & _ & _ & _ & _ & Hnew).
  - vm_compute. repeat split; reflexivity.
  - vm_compute. split; reflexivity.
  - vm_compute. split; reflexivity.
  - rewrite (Hnew 2%nat
               [Image 300 600 (Raw 0);
                Image 200 400 (Resampled (Raw 0) (200, 400)%Z LANCZOS);
                Image 400 400 (Solid (0, 0, 0)%Z)]).
    + vm_compute. reflexivity.
    + vm_compute. reflexivity.
Defined.

(** A target larger than the source in both axes: the source is not
    enlarged, and is pasted as it is in the middle of the canvas. *)
Example letterbox_300x600_into_1000x1000 :
  letterbox_to_aspect 0%nat (1000, 1000)%Z (255, 255, 255)%Z None
    [Image 300 600 (Raw 0)] =
    Returns 2%nat
      [Image 300 600 (Raw 0);
       Image 300 600 (Raw 0);
       Image 1000 1000 (Pasted (Solid (255, 255, 255)%Z) (Raw 0) 350 200)].
Proof. vm_compute. reflexivity. Qed.

(** C3 (amended). A source with exactly the aspect of the target and at
    least as large as the target fills the canvas: the scaled source has
    the size of the target and both paste offsets are zero. *)
Theorem letterbox_same_aspect_no_border (h : heap) (r : ref) (img : image)
    (W H : Z) (fill : Z * Z * Z) (name : option string) :
  h !! r = Some img -> valid_dims img -> dim W -> dim H ->
  (width img * H = W * height img)%Z -> (W <= width img)%Z ->
  exists scaled : image,
    letterbox_to_aspect r (W, H) fill name h =
      Returns (S (length h))
        (h ++ [scaled; Image W H (Pasted (Solid fill) (data scaled) 0 0)]) /\
    width scaled = W /\ height scaled = H /\
    ((W - width scaled) / 2 = 0)%Z /\ ((H - height scaled) / 2 = 0)%Z.
Proof.
  intros Hr Hv HW HH Hasp Hle.
  assert (Hres : exists res, preserve_aspect_ratio img W H = Ok res /\
            match res with Some sz => (1 <= sz.1)%Z /\ (1 <= sz.2)%Z | None => True end /\
            width (thumb img res (map_resample name)) = W /\
            height (thumb img res (map_resample name)) = H).
  { destruct (Z.eq_dec W (width img)) as [E | NE].
    - assert (E' : H = height img).
      { destruct Hv as [[? ?] [? ?]]. rewrite <- E in Hasp. nia. }
      exists None. unfold preserve_aspect_ratio.
      destruct (Z.leb_spec (width img) W); [|lia].
      destruct (Z.leb_spec (height img) H); [|lia].
      cbn. auto.
    - exists (Some (W, H)).
      split; [apply preserve_aspect_ratio_exact; try assumption; lia|].
      split; [unfold dim in *; cbn; lia|].
      unfold thumb, same_size. cbn.
      destruct (Z.eqb_spec (width img) W); [lia|]. cbn. auto. }
  destruct Hres as (res & Hres & Hsz & Ew & Eh).
  exists (thumb img res (map_resample name)).
  rewrite (letterbox_result h r img W H fill name res Hr Hres Hsz)
    by (unfold dim in *; lia).
  cbv zeta. rewrite Ew, Eh, !Z.sub_diag. cbn [Z.div Z.div_eucl fst]. auto.
Qed.

(** The theorem above at a concrete input, where its hypotheses hold. *)
Lemma letterbox_same_aspect_no_border_witness :
  exists scaled : image,
    letterbox_to_aspect 0%nat (400, 400)%Z (0, 0, 0)%Z None [Image 800 800 (Raw 0)] =
      Returns 2%nat
        ([Image 800 800 (Raw 0)] ++
         [scaled; Image 400 400 (Pasted (Solid (0, 0, 0)%Z) (data scaled) 0 0)]) /\
    width scaled = 400%Z /\ height scaled = 400%Z /\
    ((400 - width scaled) / 2 = 0)%Z /\ ((400 - height scaled) / 2 = 0)%Z.
Proof.
  refine (letterbox_same_aspect_no_border [Image 800 800 (Raw 0)] 0%nat
            (Image 800 800 (Raw 0)) 400 400 (0, 0, 0)%Z None eq_refl _ _ _ _ _).
  - vm_compute. repeat split; reflexivity.
  - vm_compute. split; reflexivity.
  - vm_compute. split; reflexivity.
  - reflexivity.
  - vm_compute. discriminate.
Defined.

(** C3, as stated, fails: a 100x100 source has the aspect of a (400, 400)
    target, but [thumbnail] never enlarges, so the source is pasted as it
    is at (150, 150), with a border on every side. *)
Lemma letterbox_small_source_counterexample :
  letterbox_to_aspect 0%nat (400, 400)%Z (0, 0, 0)%Z None [Image 100 100 (Raw 0)] =
    Returns 2%nat
      [Image 100 100 (Raw 0);
       Image 100 100 (Raw 0);
       Image 400 400 (Pasted (Solid (0, 0, 0)%Z) (Raw 0) 150 150)]
  /\ ((400 - 100) / 2 = 150)%Z /\ (150 <> 0)%Z.
Proof. split; [vm_compute; reflexivity|]. split; [reflexivity | lia]. Qed.

End LetterboxClaims.

(** ** resize_to_exact and resize_within_bounds: what they return *)

Section ResizeFacts.
Local Open Scope Q_scope.

(** What [resize_to_exact] returns for a size the library accepts. *)
Lemma resize_to_exact_result (h : heap) (r : ref) (img : image) (size : Z * Z)
    (name : option string) :
  h !! r = Some img -> (1 <= size.1)%Z -> (1 <= size.2)%Z ->
  resize_to_exact r size name h =
    Returns (length h)
      (h ++ [if same_size img size then img
             else Image size.1 size.2 (Resampled (data img) size (map_resample name))]).
Proof.
  intros Hr H1 H2. unfold resize_to_exact, resize, get. run_M. rewrite Hr.
  destruct (same_size img size); [reflexivity|].
  unfold lift, resample.
  replace ((size.1 <? 1)%Z || (size.2 <? 1)%Z) with false
    by (symmetry; apply orb_false_iff; split; apply Z.ltb_ge; lia).
  reflexivity.
Qed.

Lemma same_size_dims (img : image) (size : Z * Z) (f : Resampling) :
  let out := if same_size img size then img
             else Image size.1 size.2 (Resampled (data img) size f) in
  width out = size.1 /\ height out = size.2.
Proof.
  cbn. destruct (same_size img size) eqn:E; [|split; reflexivity].
  unfold same_size in E. apply andb_true_iff in E as [E1 E2].
  apply Z.eqb_eq in E1, E2. auto.
Qed.

Lemma within_tolerance_refl (q : Q) : within_tolerance (Finite q) (Finite q) = true.
Proof.
  unfold within_tolerance, float_sub.
  rewrite (to_float_comp (q - q) 0) by ring.
  vm_compute. reflexivity.
Qed.

(** With no bound in force the scale stays [1.0]. *)
Lemma bounds_scale_no_bounds (c : Constraints) (w ht : Z) :
  truthy (max_width c) = false -> truthy (max_height c) = false ->
  allow_upscale c = false \/
    (truthy (min_width c) = false /\ truthy (min_height c) = false) ->
  bounds_scale c w ht = Ok one.
Proof.
  intros H1 H2 H3. unfold bounds_scale. rewrite H1, H2. cbn.
  destruct H3 as [-> | [-> ->]]; [reflexivity|].
  rewrite andb_false_r. reflexivity.
Qed.

Lemma resize_within_bounds_identity (h : heap) (r : ref) (img : image)
    (c : Constraints) (name : option string) :
  h !! r = Some img ->
  truthy (max_width c) = false -> truthy (max_height c) = false ->
  allow_upscale c = false \/
    (truthy (min_width c) = false /\ truthy (min_height c) = false) ->
  resize_within_bounds r c name h = Returns r h.
Proof.
  intros Hr H1 H2 H3. unfold resize_within_bounds, PIL.size, get. run_M.
  rewrite Hr. rewrite bounds_scale_no_bounds by assumption. unfold lift.
  unfold one. rewrite within_tolerance_refl. reflexivity.
Qed.

(** X2. A bound that is [None] or [0] is not in force: when neither max
    bound is set to a non-zero value, and upscaling is off or neither min
    bound is set to a non-zero value, [resize_within_bounds] returns the
    very object it was given and allocates nothing, whatever the size of
    the image. *)
Theorem resize_within_bounds_without_bounds (h : heap) (r : ref) (img : image)
    (c : Constraints) (name : option string) :
  h !! r = Some img ->
  (max_width c = None \/ max_width c = Some 0%Z) ->
  (max_height c = None \/ max_height c = Some 0%Z) ->
  allow_upscale c = false \/
    ((min_width c = None \/ min_width c = Some 0%Z) /\
     (min_height c = None \/ min_height c = Some 0%Z)) ->
  resize_within_bounds r c name h = Returns r h.
Proof.
  intros Hr H1 H2 H3.
  assert (T : forall o, o = None \/ o = Some 0%Z -> truthy o = false).
  { intros o [-> | ->]; reflexivity. }
  apply (resize_within_bounds_identity h r img); auto.
  destruct H3 as [H3 | [H3 H4]]; auto.
Qed.

(** The theorem above at a concrete input, where its hypotheses hold. *)
Lemma resize_within_bounds_without_bounds_witness :
  resize_within_bounds 0%nat
    {| min_width := Some 2048%Z; min_height := None;
       max_width := Some 0%Z; max_height := None; allow_upscale := false |}
    None [Image 800 600 (Raw 0)]
  = Returns 0%nat [Image 800 600 (Raw 0)].
Proof.
  refine (resize_within_bounds_without_bounds [Image 800 600 (Raw 0)] 0%nat
            (Image 800 600 (Raw 0)) _ None eq_refl _ _ _).
  - right. reflexivity.
  - left. reflexivity.
  - left. reflexivity.
Defined.

End ResizeFacts.

(** ** resize_within_bounds: the bounds that are met *)

Section BoundsFacts.
Local Open Scope Q_scope.

Lemma scale_down_finite (c : Constraints) (w ht : Z) (s : float) :
  scale_down c w ht = Ok s -> exists q, s = Finite q.
Proof.
  unfold scale_down, mbind, result_bind. intros Hs.
  destruct (int_truediv (or_else (max_width c) w) w) as [fa|] eqn:Ea; [|discriminate].
  destruct (int_truediv (or_else (max_height c) ht) ht) as [fb|] eqn:Eb; [|discriminate].
  injection Hs as <-.
  destruct (int_truediv_finite _ _ _ Ea) as [qa ->].
  destruct (int_truediv_finite _ _ _ Eb) as [qb ->].
  destruct (min_finite qa qb) as (z & -> & _). eauto.
Qed.

(** With upscaling allowed, the scale is at least the rounded quotient
    [min / size] of each min bound that is set. *)
Lemma bounds_scale_min (c : Constraints) (w ht : Z) (s : float) :
  bounds_scale c w ht = Ok s -> allow_upscale c = true -> dim w -> dim ht ->
  exists q, s = Finite q /\
    (forall m, min_width c = Some m -> dim m -> rnd (inject_Z m / inject_Z w) <= q) /\
    (forall m, min_height c = Some m -> dim m -> rnd (inject_Z m / inject_Z ht) <= q).
Proof.
  intros Hs Hup Hw Hh. unfold bounds_scale in Hs. rewrite Hup in Hs.
  unfold mbind, result_bind in Hs.
  destruct (if truthy (max_width c) || truthy (max_height c)
            then match scale_down c w ht with
                 | Ok a => Ok (min one a)
                 | Raise e => Raise e
                 end
            else Ok one) as [s1|] eqn:E1; [|discriminate].
  assert (F1 : exists q1, s1 = Finite q1).
  { destruct (truthy (max_width c) || truthy (max_height c)).
    - destruct (scale_down c w ht) as [sd|] eqn:Esd; [|discriminate].
      destruct (scale_down_finite _ _ _ _ Esd) as [qd ->].
      injection E1 as <-. destruct (min_finite 1 qd) as (z & Ez & _).
      unfold one. rewrite Ez. eauto.
    - injection E1 as <-. unfold one. eauto. }
  destruct F1 as [q1 ->]. cbn [andb] in Hs.
  destruct (truthy (min_width c) || truthy (min_height c)) eqn:Et.
  - destruct (scale_up c w ht) as [su|] eqn:Esu; [|discriminate].
    injection Hs as <-. unfold scale_up, mbind, result_bind in Esu.
    destruct (int_truediv (or_else (min_width c) w) w) as [fa|] eqn:Ea; [|discriminate].
    destruct (int_truediv (or_else (min_height c) ht) ht) as [fb|] eqn:Eb; [|discriminate].
    injection Esu as <-.
    destruct (int_truediv_finite _ _ _ Ea) as [qa ->].
    destruct (int_truediv_finite _ _ _ Eb) as [qb ->].
    destruct (max_finite qa qb) as (z & -> & Z1 & Z2).
    destruct (max_finite q1 z) as (z1 & -> & Z3 & Z4).
    exists z1. split; [reflexivity|]. split.
    + intros m Hm Hd. rewrite Hm in Ea. cbn [or_else] in Ea.
      destruct (Z.eqb_spec m 0) as [? | _]; [unfold dim in Hd; lia|].
      rewrite int_truediv_ok in Ea by (unfold dim in *; lia).
      injection Ea as <-. lra.
    + intros m Hm Hd. rewrite Hm in Eb. cbn [or_else] in Eb.
      destruct (Z.eqb_spec m 0) as [? | _]; [unfold dim in Hd; lia|].
      rewrite int_truediv_ok in Eb by (unfold dim in *; lia).
      injection Eb as <-. lra.
  - exists q1. injection Hs as <-. split; [reflexivity|]. split.
    + intros m Hm Hd. rewrite Hm in Et. cbn in Et.
      destruct (Z.eqb_spec m 0); [unfold dim in Hd; lia | discriminate].
    + intros m Hm Hd. rewrite Hm, orb_comm in Et. cbn in Et.
      destruct (Z.eqb_spec m 0); [unfold dim in Hd; lia | discriminate].
Qed.

Lemma scaled_ge (n : Z) (q : Q) (m k : Z) :
  dim n -> scaled n (Finite q) = Ok m -> (Z.abs k < 2 ^ 50)%Z ->
  inject_Z k - (1 # 4) <= inject_Z n * q -> (k <= m)%Z.
Proof.
  intros Hn Hs Hk Hq. unfold scaled, int_mul_float in Hs. unfold mbind, result_bind in Hs.
  rewrite float_of_int_ok in Hs by (unfold dim in Hn; lia). cbn [float_mul] in Hs.
  unfold to_float in Hs. destruct (overflows _); [discriminate|].
  cbn [round] in Hs. injection Hs as <-.
  pose proof (round_ge_of_quarter _ k Hk Hq). lia.
Qed.

(** X3. Min bounds are met when upscaling is allowed: whenever
    [resize_within_bounds] with [allow_upscale] set returns a resized image
    (a new object), that image is at least [min_width] wide and at least
    [min_height] high, for each min bound that is set, whatever the max
    bounds are. *)
Theorem min_bounds_met_when_upscaling (h h' : heap) (r r' : ref) (img img' : image)
    (c : Constraints) (name : option string) :
  h !! r = Some img -> valid_dims img ->
  allow_upscale c = true ->
  resize_within_bounds r c name h = Returns r' h' -> r' <> r ->
  h' !! r' = Some img' ->
  (forall m, min_width c = Some m -> dim m -> (m <= width img')%Z) /\
  (forall m, min_height c = Some m -> dim m -> (m <= height img')%Z).
Proof.
  intros Hr [Hw Hh] Hup Hres Hne Hr'.
  destruct (resize_within_bounds_cases _ _ _ _ _ _ _ Hr Hres)
    as (s & Hs & [(_ & E & _) | (_ & nw & nh & d & Sw & Sh & -> & ->)]);
    [contradiction|].
  rewrite lookup_app_r, Nat.sub_diag in Hr' by lia. cbn in Hr'.
  injection Hr' as <-. cbn [width height].
  destruct (bounds_scale_min _ _ _ _ Hs Hup Hw Hh) as (q & -> & Bw & Bh).
  split; intros m Hm Hd.
  - apply (scaled_ge (width img) q nw m Hw Sw); [unfold dim in Hd; lia|].
    pose proof (quotient_times_size m (width img) Hd Hw) as [Q1 _].
    pose proof (dim_Q _ Hw) as [W1 _].
    apply Qle_trans with (inject_Z (width img) * rnd (inject_Z m / inject_Z (width img)));
      [exact Q1|].
    apply Qmult_le_l; [lra | apply Bw; assumption].
  - apply (scaled_ge (height img) q nh m Hh Sh); [unfold dim in Hd; lia|].
    pose proof (quotient_times_size m (height img) Hd Hh) as [Q1 _].
    pose proof (dim_Q _ Hh) as [W1 _].
    apply Qle_trans with (inject_Z (height img) * rnd (inject_Z m / inject_Z (height img)));
      [exact Q1|].
    apply Qmult_le_l; [lra | apply Bh; assumption].
Qed.

(** The theorem above at a concrete input, where its hypotheses hold. *)
Lemma min_bounds_met_when_upscaling_witness :
  let c := {| min_width := Some 800%Z; min_height := None;
              max_width := Some 500%Z; max_height := None; allow_upscale := true |} in
  resize_within_bounds 0%nat c None [Image 400 300 (Raw 0)] =
    Returns 1%nat
      [Image 400 300 (Raw 0); Image 800 600 (Resampled (Raw 0) (800, 600)%Z LANCZOS)] /\
  (800 <= 800)%Z.
Proof.
  split; [vm_compute; reflexivity|].
  refine (proj1 (min_bounds_met_when_upscaling [Image 400 300 (Raw 0)]
            [Image 400 300 (Raw 0);
             Image 800 600 (Resampled (Raw 0) (800, 600)%Z LANCZOS)]
            0%nat 1%nat (Image 400 300 (Raw 0))
            (Image 800 600 (Resampled (Raw 0) (800, 600)%Z LANCZOS))
            {| min_width := Some 800%Z; min_height := None;
               max_width := Some 500%Z; max_height := None; allow_upscale := true |}
            None eq_refl _ eq_refl _ _ eq_refl) 800%Z eq_refl _).
  - vm_compute. repeat split; reflexivity.
  - vm_compute. reflexivity.
  - discriminate.
  - vm_compute. split; reflexivity.
Defined.

(** A positive scale of at most one keeps a size within [1 .. size]. *)
Lemma scaled_within (n : Z) (q : Q) :
  dim n -> 0 < q -> q <= 1 ->
  exists m, scaled n (Finite q) = Ok m /\ (1 <= m <= n)%Z.
Proof.
  intros Hn Q0 Q1. pose proof (dim_Q n Hn) as [N1 N2].
  assert (B : 0 <= inject_Z n * q /\ inject_Z n * q <= inject_Z n).
  { split; [apply Qmult_le_0_compat; lra|].
    rewrite <- (Qmult_1_r (inject_Z n)) at 2. apply Qmult_le_l; lra. }
  unfold scaled, int_mul_float, mbind, result_bind.
  rewrite float_of_int_ok by (unfold dim in Hn; lia). cbn [float_mul].
  rewrite (to_float_finite _ n)
    by (unfold dim in Hn; try lia; rewrite Qabs_pos; lra).
  cbn [round]. eexists. split; [reflexivity|].
  assert (rne (rnd (inject_Z n * q)) <= n)%Z.
  { apply rne_le_Z. apply Qle_trans with (rnd (inject_Z n)); [apply rnd_le; lra|].
    rewrite rnd_Z by (unfold dim in Hn; lia). apply Qle_refl. }
  unfold dim in Hn. lia.
Qed.

(** With [max_width = M] below the width as the only bound in force, the
    scale is the rounded quotient [M / width], or [1.0] if that quotient
    rounds to one. *)
Lemma bounds_scale_single_max_width (c : Constraints) (w ht M : Z) :
  dim w -> dim ht -> max_width c = Some M -> (0 < M < w)%Z ->
  truthy (max_height c) = false ->
  allow_upscale c = false \/
    (truthy (min_width c) = false /\ truthy (min_height c) = false) ->
  bounds_scale c w ht = Ok (Finite (rnd (inject_Z M / inject_Z w))) \/
  bounds_scale c w ht = Ok one.
Proof.
  intros Hw Hh HM HMw Hmh Hno. unfold bounds_scale.
  assert (E : allow_upscale c && (truthy (min_width c) || truthy (min_height c)) = false).
  { destruct Hno as [-> | [-> ->]]; [reflexivity | apply andb_false_r]. }
  rewrite E, HM. cbn [truthy]. destruct (Z.eqb_spec M 0) as [? | _]; [lia|].
  cbn [negb orb]. unfold scale_down, mbind, result_bind. rewrite HM. cbn [or_else].
  destruct (Z.eqb_spec M 0) as [? | _]; [lia|].
  assert (Eh : or_else (max_height c) ht = ht).
  { destruct (max_height c) as [m|]; [|reflexivity]. cbn in Hmh |- *.
    destruct (m =? 0)%Z; [reflexivity | discriminate]. }
  rewrite Eh. rewrite !int_truediv_ok by (unfold dim in *; lia).
  pose proof (dim_Q _ Hh) as [H1 _]. pose proof (dim_Q _ Hw) as [W1 _].
  rewrite (rnd_comp (inject_Z ht / inject_Z ht) 1) by (field; lra).
  change (rnd 1) with 1.
  set (a := rnd (inject_Z M / inject_Z w)).
  assert (Ha : a <= 1).
  { change 1 with (rnd 1). apply rnd_le. apply Qle_shift_div_r; [lra|].
    rewrite Qmult_1_l. apply inject_Z_le. lia. }
  unfold min, one. cbn [float_lt].
  replace (Qlt_bool 1 a) with false by (symmetry; apply Qlt_bool_false; exact Ha).
  cbn [float_lt].
  destruct (Qlt_bool a 1); [left | right]; reflexivity.
Qed.

(** X4. A binding max width is met exactly, and the height follows the
    same scale. With [max_width = M] below the width of the source as the
    only bound in force, an image that [resize_within_bounds] resizes (a
    new object) is exactly [M] wide; its height is at least one, at most
    the height of the source, and within one pixel of the height of the
    source times the scale [M / width]. *)
Theorem single_max_width_is_met_exactly (h h' : heap) (r r' : ref) (img img' : image)
    (c : Constraints) (name : option string) (M : Z) :
  h !! r = Some img -> valid_dims img ->
  max_width c = Some M -> (0 < M < width img)%Z ->
  truthy (max_height c) = false ->
  allow_upscale c = false \/
    (truthy (min_width c) = false /\ truthy (min_height c) = false) ->
  resize_within_bounds r c name h = Returns r' h' -> r' <> r ->
  h' !! r' = Some img' ->
  width img' = M /\ (1 <= height img' <= height img)%Z /\
  Qabs (inject_Z (height img')
        - inject_Z (height img) * rnd (inject_Z M / inject_Z (width img))) <= 1.
Proof.
  intros Hr [Hw Hh] HM HMw Hmh Hno Hres Hne Hr'.
  destruct (resize_within_bounds_cases _ _ _ _ _ _ _ Hr Hres)
    as (s & Hs & [(_ & E & _) | (Ht & nw & nh & d & Sw & Sh & -> & ->)]);
    [contradiction|].
  rewrite lookup_app_r, Nat.sub_diag in Hr' by lia. cbn in Hr'.
  injection Hr' as <-. cbn [width height].
  assert (HMd : dim M) by (unfold dim in *; lia).
  destruct (bounds_scale_single_max_width c _ _ M Hw Hh HM HMw Hmh Hno) as [Es | Es];
    rewrite Es in Hs; injection Hs as <-.
  2:{ unfold one in Ht. rewrite within_tolerance_refl in Ht. discriminate. }
  set (a := rnd (inject_Z M / inject_Z (width img))) in *.
  pose proof (aspect_pos M (width img) HMd Hw) as Pa. fold a in Pa.
  assert (Ha : a <= 1).
  { change 1 with (rnd 1). apply rnd_le.
    pose proof (dim_Q _ Hw) as [W1 _]. apply Qle_shift_div_r; [lra|].
    rewrite Qmult_1_l. apply inject_Z_le. lia. }
  pose proof (quotient_times_size M (width img) HMd Hw) as [Q1 Q2]. fold a in Q1, Q2.
  split; [|split].
  - pose proof (scaled_le _ _ _ M Hw Sw ltac:(unfold dim in *; lia) Q2).
    pose proof (scaled_ge _ _ _ M Hw Sw ltac:(unfold dim in *; lia) Q1). lia.
  - destruct (scaled_within _ a Hh Pa Ha) as (m & Em & Bm).
    rewrite Em in Sh. injection Sh as <-. exact Bm.
  - pose proof (dim_Q _ Hh) as [H1 H2].
    assert (B : 0 <= inject_Z (height img) * a /\
                inject_Z (height img) * a <= inject_Z (height img)).
    { split; [apply Qmult_le_0_compat; lra|].
      rewrite <- (Qmult_1_r (inject_Z (height img))) at 2. apply Qmult_le_l; lra. }
    unfold scaled, int_mul_float, mbind, result_bind in Sh.
    rewrite float_of_int_ok in Sh by (unfold dim in Hh; lia). cbn [float_mul] in Sh.
    rewrite (to_float_finite _ (height img)) in Sh
      by (unfold dim in Hh; try lia; rewrite Qabs_pos; lra).
    cbn [round] in Sh. injection Sh as <-.
    set (x := inject_Z (height img) * a) in *.
    pose proof (round_within_one x) as R1.
    assert (Hx : Qabs x <= pow2 52).
    { rewrite Qabs_pos by lra. apply Qle_trans with 2147483647; [lra|].
      vm_compute. discriminate. }
    specialize (R1 Hx).
    destruct (Z.max_spec 1 (rne (rnd x))) as [[Hlt ->] | [Hge ->]]; [exact R1|].
    assert (N0 : (0 <= rne (rnd x))%Z) by (apply rne_nonneg, rnd_nonneg; lra).
    assert (X2 : x <= 2).
    { destruct (Qlt_le_dec 2 x) as [Hgt | Hle]; [|exact Hle]. exfalso.
      assert (2 <= rne (rnd x))%Z; [|lia].
      apply rne_ge_Z. change (inject_Z 2) with (rnd 2). apply rnd_le. lra. }
    change (inject_Z 1) with 1. apply Qabs_Qle_condition. split; lra.
Qed.

(** The theorem above at a concrete input, where its hypotheses hold. *)
Lemma single_max_width_is_met_exactly_witness :
  let c := {| min_width := None; min_height := None;
              max_width := Some 400%Z; max_height := None; allow_upscale := true |} in
  resize_within_bounds 0%nat c None [Image 800 600 (Raw 0)] =
    Returns 1%nat
      [Image 800 600 (Raw 0); Image 400 300 (Resampled (Raw 0) (400, 300)%Z LANCZOS)] /\
  400%Z = 400%Z /\ (1 <= 300 <= 600)%Z /\
  Qabs (inject_Z 300 - inject_Z 600 * rnd (inject_Z 400 / inject_Z 800)) <= 1.
Proof.
  split; [vm_compute; reflexivity|].
  refine (single_max_width_is_met_exactly [Image 800 600 (Raw 0)]
            [Image 800 600 (Raw 0);
             Image 400 300 (Resampled (Raw 0) (400, 300)%Z LANCZOS)]
            0%nat 1%nat (Image 800 600 (Raw 0))
            (Image 400 300 (Resampled (Raw 0) (400, 300)%Z LANCZOS))
            {| min_width := None; min_height := None;
               max_width := Some 400%Z; max_height := None; allow_upscale := true |}
            None 400 eq_refl _ eq_refl _ eq_refl _ _ _ eq_refl).
  - vm_compute. repeat split; reflexivity.
  - cbn. lia.
  - right. split; reflexivity.
  - vm_compute. reflexivity.
  - discriminate.
Defined.

End BoundsFacts.

(** ** crop_auto.py: crop, then resize *)

Section AutoCrop.
Local Open Scope Q_scope.

Lemma Qle_of_eq (x y : Q) : x == y -> x <= y.
Proof. intros E. rewrite E. apply Qle_refl. Qed.

(** The rounded aspect [W / H] of a target, times a height [n] with
    [H <= W * n], is at least three quarters: the crop keeps a column. *)
Lemma target_aspect_times_height (W H n : Z) :
  dim W -> dim H -> dim n -> (H <= W * n)%Z ->
  3 # 4 <= inject_Z n * rnd (inject_Z W / inject_Z H).
Proof.
  intros HW HH Hn Hle.
  pose proof (aspect_times_height W H HW HH) as [A1 _]. cbn zeta in A1.
  set (a := rnd (inject_Z W / inject_Z H)) in *.
  pose proof (dim_Q W HW) as [W1 _]. pose proof (dim_Q H HH) as [H1 _].
  pose proof (dim_Q n Hn) as [N1 _].
  assert (Hq : inject_Z H <= inject_Z W * inject_Z n).
  { rewrite <- inject_Z_mult. apply inject_Z_le. exact Hle. }
  assert (He : 0 <= 1 - eps) by (unfold eps; vm_compute; discriminate).
  assert (He' : 3 # 4 <= 1 - eps) by (unfold eps; vm_compute; discriminate).
  assert (P1 : (inject_Z W - inject_Z W * eps) * inject_Z n <= inject_Z H * a * inject_Z n).
  { apply Qmult_le_compat_r; lra. }
  assert (P2 : inject_Z H * (1 - eps) <= inject_Z W * inject_Z n * (1 - eps)).
  { apply Qmult_le_compat_r; lra. }
  assert (P3 : inject_Z H * (1 - eps) <= inject_Z H * (inject_Z n * a)).
  { apply Qle_trans with (inject_Z W * inject_Z n * (1 - eps)); [exact P2|].
    apply Qle_trans with (inject_Z H * a * inject_Z n); [|apply Qle_of_eq; ring].
    apply Qle_trans with ((inject_Z W - inject_Z W * eps) * inject_Z n); [|exact P1].
    apply Qle_of_eq. ring. }
  apply Qmult_le_l in P3; lra.
Qed.

(** Dually, a width [n] with [W <= H * n] divided by the rounded aspect is
    at least three quarters: the crop keeps a row. *)
Lemma width_over_target_aspect (W H n : Z) :
  dim W -> dim H -> dim n -> (W <= H * n)%Z ->
  3 # 4 <= inject_Z n / rnd (inject_Z W / inject_Z H).
Proof.
  intros HW HH Hn Hle.
  pose proof (aspect_times_height W H HW HH) as [_ A2]. cbn zeta in A2.
  pose proof (aspect_pos W H HW HH) as Pa.
  set (a := rnd (inject_Z W / inject_Z H)) in *.
  pose proof (dim_Q W HW) as [W1 _]. pose proof (dim_Q H HH) as [H1 _].
  pose proof (dim_Q n Hn) as [N1 _].
  assert (Hq : inject_Z W <= inject_Z H * inject_Z n).
  { rewrite <- inject_Z_mult. apply inject_Z_le. exact Hle. }
  assert (He : 0 <= 1 + eps) by (unfold eps; vm_compute; discriminate).
  assert (He' : (3 # 4) * (1 + eps) <= 1) by (unfold eps; vm_compute; discriminate).
  assert (P2 : inject_Z W * (1 + eps) <= inject_Z H * inject_Z n * (1 + eps)).
  { apply Qmult_le_compat_r; lra. }
  assert (P3 : inject_Z H * a <= inject_Z H * (inject_Z n * (1 + eps))).
  { apply Qle_trans with (inject_Z W + inject_Z W * eps); [exact A2|].
    apply Qle_trans with (inject_Z W * (1 + eps)); [apply Qle_of_eq; ring|].
    apply Qle_trans with (inject_Z H * inject_Z n * (1 + eps)); [exact P2|].
    apply Qle_of_eq. ring. }
  apply Qmult_le_l in P3; [|lra].
  apply Qle_shift_div_l; [exact Pa|].
  assert (P4 : (3 # 4) * (inject_Z n * (1 + eps)) <= inject_Z n).
  { apply Qle_trans with (inject_Z n * ((3 # 4) * (1 + eps))); [apply Qle_of_eq; ring|].
    rewrite <- (Qmult_1_r (inject_Z n)) at 2. apply Qmult_le_l; lra. }
  apply Qle_trans with ((3 # 4) * (inject_Z n * (1 + eps))); [|exact P4].
  apply Qmult_le_l; lra.
Qed.

(** The centre crop to the aspect of a target [(W, H)], for a source on
    which that aspect leaves at least one pixel in each axis. *)
Lemma center_crop_to_target_aspect (h : heap) (r : ref) (img : image) (W H : Z) :
  h !! r = Some img -> valid_dims img -> dim W -> dim H ->
  (H <= W * height img)%Z -> (W <= H * width img)%Z ->
  let a := Finite (rnd (inject_Z W / inject_Z H)) in
  center_crop_to_aspect r a h = Returns r h \/
  exists x0 y0 x1 y1 : Z,
    center_crop_to_aspect r a h =
      Returns (length h)
        (h ++ [Image (x1 - x0) (y1 - y0) (Cropped (data img) (x0, y0, x1, y1))]) /\
    (0 <= x0 < x1)%Z /\ (x1 <= width img)%Z /\
    (0 <= y0 < y1)%Z /\ (y1 <= height img)%Z.
Proof.
  intros Hr Hv HW HH Hh Hw. cbn zeta.
  pose proof (aspect_pos W H HW HH) as Pa.
  rewrite (center_crop_cases h r img _ Hr Hv Pa). cbn zeta.
  destruct Hv as [Dw Dh].
  set (a := rnd (inject_Z W / inject_Z H)) in *.
  set (c := rnd (inject_Z (width img) / inject_Z (height img))).
  destruct (within_tolerance (Finite c) (Finite a)); [left; reflexivity|].
  right. destruct (Qlt_bool a c) eqn:Elt.
  - apply Qlt_bool_iff in Elt.
    destruct (too_wide_width (width img) (height img) a Dw Dh Pa ltac:(fold c; lra))
      as (_ & [N0 N1] & _).
    pose proof (target_aspect_times_height W H (height img) HW HH Dh Hh) as T.
    fold a in T.
    pose proof (round_ge_of_quarter (inject_Z (height img) * a) 1 ltac:(lia)
                  ltac:(change (inject_Z 1) with 1; lra)) as N2.
    set (nw := rne (rnd (inject_Z (height img) * a))) in *.
    exists ((width img - nw) / 2)%Z, 0%Z, ((width img - nw) / 2 + nw)%Z, (height img).
    split.
    { rewrite Z.add_simpl_l, Z.sub_0_r. reflexivity. }
    assert (0 <= (width img - nw) / 2)%Z by (apply Z.div_pos; lia).
    assert (2 * ((width img - nw) / 2) <= width img - nw)%Z
      by (apply Z.mul_div_le; lia).
    unfold dim in *. lia.
  - apply Qlt_bool_false in Elt.
    destruct (too_tall_height (width img) (height img) a Dw Dh Pa ltac:(fold c; lra))
      as (_ & [N0 N1] & _).
    pose proof (width_over_target_aspect W H (width img) HW HH Dw Hw) as T.
    fold a in T.
    pose proof (round_ge_of_quarter (inject_Z (width img) / a) 1 ltac:(lia)
                  ltac:(change (inject_Z 1) with 1; lra)) as N2.
    set (nh := rne (rnd (inject_Z (width img) / a))) in *.
    exists 0%Z, ((height img - nh) / 2)%Z, (width img), ((height img - nh) / 2 + nh)%Z.
    split.
    { rewrite Z.add_simpl_l, Z.sub_0_r. reflexivity. }
    assert (0 <= (height img - nh) / 2)%Z by (apply Z.div_pos; lia).
    assert (2 * ((height img - nh) / 2) <= height img - nh)%Z
      by (apply Z.mul_div_le; lia).
    unfold dim in *. lia.
Qed.

(** [auto_crop_image_to_shape] as its two steps, once the aspect is
    computed. *)
Lemma auto_crop_steps (r : ref) (W H : Z) (name : option string) (h : heap) :
  dim W -> dim H ->
  auto_crop_image_to_shape r (W, H) name h =
    match center_crop_to_aspect r (Finite (rnd (inject_Z W / inject_Z H))) h with
    | Returns cropped h1 => resize_to_exact cropped (W, H) name h1
    | Raises e => Raises e
    | Invalid => Invalid
    end.
Proof.
  intros HW HH. unfold auto_crop_image_to_shape. cbn [fst snd]. run_M.
  rewrite int_truediv_ok by (unfold dim in *; lia). reflexivity.
Qed.

(** What the pipeline crop-then-resize returns on such a source: the heap
    after the crop, and the resized image appended to it. *)
Lemma auto_crop_result (h : heap) (r : ref) (img : image) (W H : Z)
    (name : option string) :
  h !! r = Some img -> valid_dims img -> dim W -> dim H ->
  (H <= W * height img)%Z -> (W <= H * width img)%Z ->
  exists (h1 : heap) (mid : image),
    auto_crop_image_to_shape r (W, H) name h =
      Returns (length h1)
        (h1 ++ [if same_size mid (W, H) then mid
                else Image W H (Resampled (data mid) (W, H) (map_resample name))]) /\
    ((h1 = h /\ mid = img) \/
     (h1 = h ++ [mid] /\
      exists x0 y0 x1 y1 : Z,
        mid = Image (x1 - x0) (y1 - y0) (Cropped (data img) (x0, y0, x1, y1)) /\
        (0 <= x0 < x1)%Z /\ (x1 <= width img)%Z /\
        (0 <= y0 < y1)%Z /\ (y1 <= height img)%Z)).
Proof.
  intros Hr Hv HW HH Hh Hw.
  rewrite auto_crop_steps by assumption.
  assert (S1 : (1 <= (W, H).1)%Z) by (unfold dim in HW; cbn; lia).
  assert (S2 : (1 <= (W, H).2)%Z) by (unfold dim in HH; cbn; lia).
  destruct (center_crop_to_target_aspect h r img W H Hr Hv HW HH Hh Hw)
    as [-> | (x0 & y0 & x1 & y1 & -> & Bx & Bx' & By & By')].
  - exists h, img. split; [|left; auto].
    apply (resize_to_exact_result h r img (W, H) name Hr S1 S2).
  - set (mid := Image (x1 - x0) (y1 - y0) (Cropped (data img) (x0, y0, x1, y1))).
    assert (Hm : (h ++ [mid]) !! length h = Some mid)
      by (rewrite lookup_app_r, Nat.sub_diag by lia; reflexivity).
    exists (h ++ [mid]), mid. split.
    + rewrite (resize_to_exact_result _ _ mid (W, H) name Hm S1 S2).
      rewrite length_app, Nat.add_1_r. reflexivity.
    + right. split; [reflexivity|]. exists x0, y0, x1, y1. auto.
Qed.

(** X5. Crop-auto is the centre crop to the aspect of the target, then
    [resize_to_exact]. With [a] the aspect [W / H] of the target and [c]
    that of the source: when [abs(c - a) < 1e-6] the source itself is
    resized; when the source is too wide ([a < c]) the middle
    [round(height * a)] columns are cropped out and resized, and otherwise
    the middle [round(width / a)] rows; exceptions of the resize
    included. The box of the crop lies within the source, and keeps at
    least one column (row) when [H <= W * height] ([W <= H * width]). *)
Theorem auto_crop_is_center_crop_then_resize (h : heap) (r : ref) (img : image)
    (W H : Z) (name : option string) :
  h !! r = Some img -> valid_dims img -> dim W -> dim H ->
  let w := width img in
  let ht := height img in
  let a := rnd (inject_Z W / inject_Z H) in
  let c := rnd (inject_Z w / inject_Z ht) in
  let nw := rne (rnd (inject_Z ht * a)) in
  let nh := rne (rnd (inject_Z w / a)) in
  let x0 := ((w - nw) / 2)%Z in
  let y0 := ((ht - nh) / 2)%Z in
  auto_crop_image_to_shape r (W, H) name h =
    (if Qlt_bool (Qabs (rnd (c - a))) (rnd (1 # 1000000)) then
       resize_to_exact r (W, H) name h
     else if Qlt_bool a c then
       resize_to_exact (length h) (W, H) name
         (h ++ [Image nw ht (Cropped (data img) (x0, 0, x0 + nw, ht)%Z)])
     else
       resize_to_exact (length h) (W, H) name
         (h ++ [Image w nh (Cropped (data img) (0, y0, w, y0 + nh)%Z)])) /\
  (a < c ->
   (0 <= x0)%Z /\ (x0 + nw <= w)%Z /\ ((H <= W * ht)%Z -> (1 <= nw)%Z)) /\
  (c <= a ->
   (0 <= y0)%Z /\ (y0 + nh <= ht)%Z /\ ((W <= H * w)%Z -> (1 <= nh)%Z)).
Proof.
  intros Hr Hv HW HH w ht a c nw nh x0 y0.
  pose proof (aspect_pos W H HW HH) as Pa. fold a in Pa.
  pose proof Hv as [Dw Dh].
  split; [|split].
  - rewrite auto_crop_steps by assumption. fold a.
    rewrite (center_crop_cases h r img a Hr Hv Pa). cbv zeta.
    fold w ht. fold c. rewrite within_tolerance_finite.
    destruct (Qlt_bool (Qabs (rnd (c - a))) (rnd (1 # 1000000))); [reflexivity|].
    destruct (Qlt_bool a c); reflexivity.
  - intros Hlt.
    destruct (too_wide_width w ht a Dw Dh Pa (Qlt_le_weak _ _ Hlt)) as (_ & [N0 N1] & _).
    fold nw in N0, N1.
    assert (0 <= (w - nw) / 2)%Z by (apply Z.div_pos; lia).
    assert (2 * ((w - nw) / 2) <= w - nw)%Z by (apply Z.mul_div_le; lia).
    split; [unfold x0; lia|]. split; [unfold x0; lia|].
    intros Hh.
    pose proof (target_aspect_times_height W H ht HW HH Dh Hh) as T. fold a in T.
    apply (round_ge_of_quarter (inject_Z ht * a) 1); [lia|].
    change (inject_Z 1) with 1. lra.
  - intros Hle.
    destruct (too_tall_height w ht a Dw Dh Pa Hle) as (_ & [N0 N1] & _).
    fold nh in N0, N1.
    assert (0 <= (ht - nh) / 2)%Z by (apply Z.div_pos; lia).
    assert (2 * ((ht - nh) / 2) <= ht - nh)%Z by (apply Z.mul_div_le; lia).
    split; [unfold y0; lia|]. split; [unfold y0; lia|].
    intros Hw.
    pose proof (width_over_target_aspect W H w HW HH Dw Hw) as T. fold a in T.
    apply (round_ge_of_quarter (inject_Z w / a) 1); [lia|].
    change (inject_Z 1) with 1. lra.
Qed.

(** The theorem above at a concrete input, where its hypotheses hold. *)
Lemma auto_crop_is_center_crop_then_resize_witness :
  auto_crop_image_to_shape 0%nat (1024, 1024)%Z None [Image 2000 1000 (Raw 0)] =
    resize_to_exact 1%nat (1024, 1024)%Z None
      ([Image 2000 1000 (Raw 0)] ++
       [Image 1000 1000 (Cropped (Raw 0) (500, 0, 1500, 1000)%Z)]) /\
  (0 <= 500)%Z /\ (500 + 1000 <= 2000)%Z /\ (1 <= 1000)%Z.
Proof.
  destruct (auto_crop_is_center_crop_then_resize [Image 2000 1000 (Raw 0)] 0%nat
              (Image 2000 1000 (Raw 0)) 1024 1024 None eq_refl)
    as (E & Hwide & _).
  - vm_compute. repeat split; reflexivity.
  - vm_compute. split; reflexivity.
  - vm_compute. split; reflexivity.
  - split; [rewrite E; vm_compute; reflexivity|].
    assert (B := Hwide ltac:(vm_compute; reflexivity)).
    vm_compute in B. destruct B as (B1 & B2 & B3).
    split; [exact B1|]. split; [exact B2|].
    exact (B3 ltac:(intros e; discriminate e)).
Defined.

(** The scenario in full: 2000x1000 to the shape 1:1 is the middle
    1000x1000 square, resampled to 1024x1024. *)
Example auto_crop_2000x1000_to_square :
  auto_crop_image_to_shape 0%nat (1024, 1024)%Z None [Image 2000 1000 (Raw 0)] =
    Returns 2%nat
      [Image 2000 1000 (Raw 0);
       Image 1000 1000 (Cropped (Raw 0) (500, 0, 1500, 1000)%Z);
       Image 1024 1024
         (Resampled (Cropped (Raw 0) (500, 0, 1500, 1000)%Z) (1024, 1024)%Z LANCZOS)].
Proof. vm_compute. reflexivity. Qed.

(** X6. Nothing is cropped from a source that already has the target
    aspect ratio ([width * H = W * height]): [auto_crop_image_to_shape] is
    then [resize_to_exact] on the source itself. *)
Theorem auto_crop_same_aspect_is_resize (h : heap) (r : ref) (img : image) (W H : Z)
    (name : option string) :
  h !! r = Some img -> valid_dims img -> dim W -> dim H ->
  (width img * H = W * height img)%Z ->
  auto_crop_image_to_shape r (W, H) name h = resize_to_exact r (W, H) name h.
Proof.
  intros Hr Hv HW HH Ha.
  rewrite auto_crop_steps by assumption.
  pose proof (aspect_pos W H HW HH) as Pa.
  rewrite (center_crop_cases h r img _ Hr Hv Pa). cbn zeta.
  assert (E : rnd (inject_Z (width img) / inject_Z (height img))
              = rnd (inject_Z W / inject_Z H)).
  { apply rnd_comp. destruct Hv as [Dw Dh].
    pose proof (dim_Q _ Dh) as [? _]. pose proof (dim_Q _ HH) as [? _].
    assert (Q : inject_Z (width img) * inject_Z H == inject_Z W * inject_Z (height img)).
    { rewrite <- !inject_Z_mult. rewrite Ha. reflexivity. }
    field_simplify_eq; [|split; lra]. rewrite Q. ring. }
  rewrite E, within_tolerance_refl. reflexivity.
Qed.

(** The theorem above at a concrete input, where its hypotheses hold. *)
Lemma auto_crop_same_aspect_is_resize_witness :
  auto_crop_image_to_shape 0%nat (896, 1152)%Z None [Image 1400 1800 (Raw 0)] =
  resize_to_exact 0%nat (896, 1152)%Z None [Image 1400 1800 (Raw 0)].
Proof.
  refine (auto_crop_same_aspect_is_resize [Image 1400 1800 (Raw 0)] 0%nat
            (Image 1400 1800 (Raw 0)) 896 1152 None eq_refl _ _ _ _).
  - vm_compute. repeat split; reflexivity.
  - vm_compute. split; reflexivity.
  - vm_compute. split; reflexivity.
  - reflexivity.
Defined.

(** The entries of [CONFIG.accepted_shapes] are those of the table. *)
Lemma accepted_shapes_lookup (label : string) (W H : Z) :
  accepted_shapes !! label = Some (W, H) -> (label, (W, H)) ∈ ACCEPTED_SHAPES.
Proof. intros E. apply elem_of_list_to_map_2 in E. exact E. Qed.

(** X7. Crop-auto by shape label. An unknown label is refused with
    [ValueError] before the image is touched. For every label of
    [ACCEPTED_SHAPES] and every source of valid size that is at least three
    pixels wide and three pixels high, the image that
    [process_auto_crop_batch] goes on to save is a new object with exactly
    the canonical resolution of the label. *)
Theorem process_auto_crop_batch_canonical_size (h : heap) (r : ref) (img : image)
    (label : string) (name : option string) :
  h !! r = Some img -> valid_dims img ->
  (3 <= width img)%Z -> (3 <= height img)%Z ->
  match accepted_shapes !! label with
  | None => process_auto_crop_batch label name r h = Raises ValueError
  | Some (W, H) =>
      exists (r' : ref) (h' : heap) (out : image),
        process_auto_crop_batch label name r h = Returns r' h' /\
        h' !! r' = Some out /\ width out = W /\ height out = H /\
        h `prefix_of` h' /\ fresh h h' r'
  end.
Proof.
  intros Hr Hv H3w H3h. unfold process_auto_crop_batch.
  destruct (accepted_shapes !! label) as [[W H]|] eqn:E; [|reflexivity].
  apply accepted_shapes_lookup in E. unfold ACCEPTED_SHAPES in E.
  assert (D : dim W /\ dim H /\ (H <= W * 3)%Z /\ (W <= H * 3)%Z).
  { repeat (apply elem_of_cons in E as [E | E];
            [injection E as _ -> ->; unfold dim; lia|]).
    apply elem_of_nil in E. contradiction. }
  destruct D as (HW & HH & B1 & B2).
  destruct (auto_crop_result h r img W H name Hr Hv HW HH ltac:(nia) ltac:(nia))
    as (h1 & mid & Hres & Hcase).
  destruct (same_size_dims mid (W, H) (map_resample name)) as [Ew Eh].
  assert (P1 : h `prefix_of` h1).
  { destruct Hcase as [[-> _] | [-> _]]; [reflexivity | apply prefix_app_r; reflexivity]. }
  assert (L1 : (length h <= length h1)%nat) by (apply prefix_length, P1).
  eexists _, _, _. split; [exact Hres|].
  split; [rewrite lookup_app_r, Nat.sub_diag by lia; reflexivity|].
  split; [exact Ew|]. split; [exact Eh|].
  split; [etrans; [exact P1 | apply prefix_app_r; reflexivity]|].
  unfold fresh. rewrite length_app. cbn. lia.
Qed.

(** The theorem above at a concrete input, where its hypotheses hold. *)
Lemma process_auto_crop_batch_canonical_size_witness :
  exists (r' : ref) (h' : heap) (out : image),
    process_auto_crop_batch "16:9" None 0%nat [Image 4000 3000 (Raw 0)] = Returns r' h' /\
    h' !! r' = Some out /\ width out = 1344%Z /\ height out = 768%Z /\
    [Image 4000 3000 (Raw 0)] `prefix_of` h' /\ fresh [Image 4000 3000 (Raw 0)] h' r'.
Proof.
  refine (process_auto_crop_batch_canonical_size [Image 4000 3000 (Raw 0)] 0%nat
            (Image 4000 3000 (Raw 0)) "16:9" None eq_refl _ _ _).
  - vm_compute. repeat split; reflexivity.
  - cbn. lia.
  - cbn. lia.
Defined.

End AutoCrop.

(** ** main.cmd_scale: the per-image step *)

Section Scale.

Lemma center_crop_extends (r r' : ref) (a : float) (h h' : heap) :
  center_crop_to_aspect r a h = Returns r' h' ->
  h `prefix_of` h' /\ ((r' = r /\ h' = h) \/ fresh h h' r').
Proof.
  unfold center_crop_to_aspect, PIL.size, get. run_M.
  destruct (h !! r) as [i|]; [|discriminate].
  unfold lift at 1. destruct (int_truediv (width i) (height i)); [|discriminate].
  destruct (within_tolerance _ _).
  { intros [= <- <-]. split; [reflexivity | left; auto]. }
  destruct (float_gt _ _); unfold lift;
    match goal with |- context [match ?x with Ok _ => _ | Raise _ => _ end] =>
      destruct x end; try discriminate;
    intros Hc; apply crop_extends in Hc as [Hp Hf]; auto.
Qed.

Lemma resize_within_bounds_extends (r r' : ref) (c : Constraints)
    (name : option string) (h h' : heap) :
  resize_within_bounds r c name h = Returns r' h' ->
  h `prefix_of` h' /\ ((r' = r /\ h' = h) \/ fresh h h' r').
Proof.
  intros H.
  assert (Hs : is_Some (h !! r)).
  { destruct (h !! r) eqn:Hr; [eauto|]. exfalso. revert H.
    unfold resize_within_bounds, PIL.size, get, mbind, M_bind.
    rewrite Hr. discriminate. }
  destruct Hs as [i Hr].
  destruct (resize_within_bounds_cases h h' r r' i c name Hr H)
    as (s & _ & [(_ & -> & ->) | (_ & nw & nh & d & _ & _ & -> & ->)]).
  - split; [reflexivity | left; auto].
  - destruct (alloc_extends (Image nw nh d) h) as [Hp Hf]. auto.
Qed.

(** Whatever [Image.resize] returns has the requested size. *)
Lemma resize_returns_size (r r' : ref) (sz : Z * Z) (f : Resampling) (h h' : heap) :
  resize r sz f h = Returns r' h' ->
  exists out, h' = h ++ [out] /\ r' = length h /\ width out = sz.1 /\ height out = sz.2.
Proof.
  unfold resize, get, mbind, M_bind. destruct (h !! r) as [i|]; [|discriminate].
  destruct (same_size i sz) eqn:E.
  - unfold alloc. intros [= <- <-]. exists i.
    unfold same_size in E. apply andb_true_iff in E as [E1 E2].
    apply Z.eqb_eq in E1, E2. auto.
  - unfold lift, resample. destruct ((sz.1 <? 1)%Z || (sz.2 <? 1)%Z); [discriminate|].
    unfold alloc. intros [= <- <-]. eexists. split; [reflexivity|]. auto.
Qed.

(** Whatever [letterbox_to_aspect] returns is a canvas of the target size. *)
Lemma letterbox_returns_size (r r' : ref) (W H : Z) (fill : Z * Z * Z)
    (name : option string) (h h' : heap) :
  letterbox_to_aspect r (W, H) fill name h = Returns r' h' ->
  exists d, h' !! r' = Some (Image W H d).
Proof.
  unfold letterbox_to_aspect.
  unfold copy, get, alloc. run_M.
  destruct (h !! r) as [i|] eqn:Hr; [|discriminate].
  destruct (thumbnail (length h) (W, H) (map_resample name) (h ++ [i]))
    as [[] h1 | |] eqn:Et; [|cbn; discriminate..].
  assert (Hh1 : exists i1, h1 = h ++ [i1]).
  { apply thumbnail_cases in Et as [-> | [i' ->]]; [eauto|].
    exists i'. rewrite insert_app_r_alt, Nat.sub_diag by lia. reflexivity. }
  destruct Hh1 as [i1 ->].
  unfold new, lift. cbn [fst snd]. destruct ((W <? 0)%Z || (H <? 0)%Z); [discriminate|].
  unfold alloc, PIL.size, get, mbind, M_bind, mret, M_ret.
  rewrite lookup_app_l by (rewrite !length_app; cbn; lia).
  rewrite lookup_app_r, Nat.sub_diag by lia. cbn [lookup list_lookup].
  unfold paste, get, put, mbind, M_bind.
  rewrite lookup_app_r, Nat.sub_diag by lia. cbn [lookup list_lookup].
  rewrite lookup_app_l by (rewrite !length_app; cbn; lia).
  rewrite lookup_app_r, Nat.sub_diag by lia. cbn [lookup list_lookup].
  rewrite lookup_app_r, Nat.sub_diag by lia. cbn [lookup list_lookup].
  intros [= <- <-].
  rewrite insert_app_r_alt, Nat.sub_diag by lia. cbn [insert list_insert].
  rewrite lookup_app_r, Nat.sub_diag by lia. cbn [lookup list_lookup width height].
  eauto.
Qed.

(** X8. What [cmd_scale] hands to [save_image] always has the resolution
    of the requested shape: whenever the processing of an image returns,
    with or without letterboxing and whatever the bounds, the result is a
    new object of exactly [W x H], and every object that existed before is
    unchanged. *)
Theorem cmd_scale_result_has_target_size (h h' : heap) (r r' : ref) (W H : Z)
    (c : Constraints) (letterbox : bool) (name : option string) :
  cmd_scale (W, H) c letterbox name r h = Returns r' h' ->
  exists out : image,
    h' !! r' = Some out /\ width out = W /\ height out = H /\
    h `prefix_of` h' /\ fresh h h' r'.
Proof.
  unfold cmd_scale. run_M.
  destruct (resize_within_bounds r c name h) as [r1 h1| |] eqn:E1; [|discriminate..].
  apply resize_within_bounds_extends in E1 as [P1 F1].
  assert (L1 : (length h <= length h1)%nat) by (apply prefix_length, P1).
  destruct letterbox.
  - intros E2. destruct (letterbox_returns_size _ _ _ _ _ _ _ _ E2) as [d Hd].
    apply letterbox_extends in E2 as [P2 F2].
    exists (Image W H d). split; [exact Hd|]. split; [reflexivity|]. split; [reflexivity|].
    split; [etrans; eassumption|]. unfold fresh in *. lia.
  - unfold lift at 1. destruct (int_truediv W H) as [a|]; [|discriminate].
    destruct (center_crop_to_aspect r1 a h1) as [r2 h2| |] eqn:E2; [|discriminate..].
    apply center_crop_extends in E2 as [P2 F2].
    assert (L2 : (length h1 <= length h2)%nat) by (apply prefix_length, P2).
    unfold resize_to_exact. intros E3.
    apply resize_returns_size in E3 as (out & -> & -> & Ew & Eh).
    exists out. split; [rewrite lookup_app_r, Nat.sub_diag by lia; reflexivity|].
    split; [exact Ew|]. split; [exact Eh|].
    split; [etrans; [exact P1|]; etrans; [exact P2|]; apply prefix_app_r; reflexivity|].
    unfold fresh. rewrite length_app. cbn. lia.
Qed.

(** The theorem above at a concrete input, where its hypotheses hold. *)
Lemma cmd_scale_result_has_target_size_witness :
  exists out : image,
    [Image 3000 2000 (Raw 0);
     Image 1500 1000 (Resampled (Raw 0) (1500, 1000)%Z LANCZOS);
     Image 1000 1000
       (Cropped (Resampled (Raw 0) (1500, 1000)%Z LANCZOS) (250, 0, 1250, 1000)%Z);
     Image 1024 1024
       (Resampled
          (Cropped (Resampled (Raw 0) (1500, 1000)%Z LANCZOS) (250, 0, 1250, 1000)%Z)
          (1024, 1024)%Z LANCZOS)] !! 3%nat = Some out /\
    width out = 1024%Z /\ height out = 1024%Z /\
    [Image 3000 2000 (Raw 0)] `prefix_of`
      [Image 3000 2000 (Raw 0);
       Image 1500 1000 (Resampled (Raw 0) (1500, 1000)%Z LANCZOS);
       Image 1000 1000
         (Cropped (Resampled (Raw 0) (1500, 1000)%Z LANCZOS) (250, 0, 1250, 1000)%Z);
       Image 1024 1024
         (Resampled
            (Cropped (Resampled (Raw 0) (1500, 1000)%Z LANCZOS) (250, 0, 1250, 1000)%Z)
            (1024, 1024)%Z LANCZOS)] /\
    fresh [Image 3000 2000 (Raw 0)]
      [Image 3000 2000 (Raw 0);
       Image 1500 1000 (Resampled (Raw 0) (1500, 1000)%Z LANCZOS);
       Image 1000 1000
         (Cropped (Resampled (Raw 0) (1500, 1000)%Z LANCZOS) (250, 0, 1250, 1000)%Z);
       Image 1024 1024
         (Resampled
            (Cropped (Resampled (Raw 0) (1500, 1000)%Z LANCZOS) (250, 0, 1250, 1000)%Z)
            (1024, 1024)%Z LANCZOS)] 3%nat.
Proof.
  refine (cmd_scale_result_has_target_size [Image 3000 2000 (Raw 0)] _ 0%nat 3%nat
            1024 1024
            {| min_width := None; min_height := None;
               max_width := Some 1500%Z; max_height := None; allow_upscale := true |}
            false None _).
  vm_compute. reflexivity.
Defined.

(** X9. With no bound in force and without letterboxing, [cmd_scale] does
    to an image exactly what crop-auto does: its result is that of
    [auto_crop_image_to_shape], exceptions included. *)
Theorem cmd_scale_without_bounds_is_auto_crop (h : heap) (r : ref) (img : image)
    (W H : Z) (c : Constraints) (name : option string) :
  h !! r = Some img ->
  truthy (max_width c) = false -> truthy (max_height c) = false ->
  allow_upscale c = false \/
    (truthy (min_width c) = false /\ truthy (min_height c) = false) ->
  cmd_scale (W, H) c false name r h = auto_crop_image_to_shape r (W, H) name h.
Proof.
  intros Hr H1 H2 H3. unfold cmd_scale, auto_crop_image_to_shape. run_M.
  rewrite (resize_within_bounds_identity h r img c name Hr H1 H2 H3).
  reflexivity.
Qed.

(** The theorem above at a concrete input, where its hypotheses hold. *)
Lemma cmd_scale_without_bounds_is_auto_crop_witness :
  cmd_scale (1344, 768)%Z
    {| min_width := None; min_height := None;
       max_width := None; max_height := None; allow_upscale := true |}
    false (Some "bicubic"%string) 0%nat [Image 4000 3000 (Raw 0)]
  = auto_crop_image_to_shape 0%nat (1344, 768)%Z (Some "bicubic"%string)
      [Image 4000 3000 (Raw 0)].
Proof.
  refine (cmd_scale_without_bounds_is_auto_crop [Image 4000 3000 (Raw 0)] 0%nat
            (Image 4000 3000 (Raw 0)) 1344 768
            {| min_width := None; min_height := None;
               max_width := None; max_height := None; allow_upscale := true |}
            (Some "bicubic"%string) eq_refl eq_refl eq_refl _).
  right. split; reflexivity.
Defined.

(** X10. With no bound in force and with letterboxing, [cmd_scale] does to
    an image exactly what [letterbox_to_aspect] does with black as the fill
    colour: the source is not resized first, and the result is that of
    [letterbox_to_aspect], exceptions included. *)
Theorem cmd_scale_without_bounds_is_letterbox (h : heap) (r : ref) (img : image)
    (W H : Z) (c : Constraints) (name : option string) :
  h !! r = Some img ->
  truthy (max_width c) = false -> truthy (max_height c) = false ->
  allow_upscale c = false \/
    (truthy (min_width c) = false /\ truthy (min_height c) = false) ->
  cmd_scale (W, H) c true name r h =
    letterbox_to_aspect r (W, H) (0, 0, 0)%Z name h.
Proof.
  intros Hr H1 H2 H3. unfold cmd_scale. run_M.
  rewrite (resize_within_bounds_identity h r img c name Hr H1 H2 H3).
  reflexivity.
Qed.

(** The theorem above at a concrete input, where its hypotheses hold. *)
Lemma cmd_scale_without_bounds_is_letterbox_witness :
  cmd_scale (1024, 1024)%Z
    {| min_width := Some 2048%Z; min_height := None;
       max_width := None; max_height := Some 0%Z; allow_upscale := false |}
    true (Some "nearest"%string) 0%nat [Image 3000 2000 (Raw 0)]
  = letterbox_to_aspect 0%nat (1024, 1024)%Z (0, 0, 0)%Z (Some "nearest"%string)
      [Image 3000 2000 (Raw 0)].
Proof.
  refine (cmd_scale_without_bounds_is_letterbox [Image 3000 2000 (Raw 0)] 0%nat
            (Image 3000 2000 (Raw 0)) 1024 1024
            {| min_width := Some 2048%Z; min_height := None;
               max_width := None; max_height := Some 0%Z; allow_upscale := false |}
            (Some "nearest"%string) eq_refl eq_refl eq_refl _).
  left. reflexivity.
Defined.

(** A call with a max bound, evaluated: 3000x2000 is brought to 1500x1000
    by the max bound, then to 1024x683 by the thumbnail, and pasted at
    (0, 170). *)
Example cmd_scale_letterbox_3000x2000 :
  cmd_scale (1024, 1024)%Z
    {| min_width := None; min_height := None;
       max_width := Some 1500%Z; max_height := None; allow_upscale := true |}
    true None 0%nat [Image 3000 2000 (Raw 0)]
  = Returns 3%nat
      [Image 3000 2000 (Raw 0);
       Image 1500 1000 (Resampled (Raw 0) (1500, 1000)%Z LANCZOS);
       Image 1024 683
         (Resampled (Resampled (Raw 0) (1500, 1000)%Z LANCZOS) (1024, 683)%Z LANCZOS);
       Image 1024 1024
         (Pasted (Solid (0, 0, 0)%Z)
            (Resampled (Resampled (Raw 0) (1500, 1000)%Z LANCZOS) (1024, 683)%Z LANCZOS)
            0 170)].
Proof. vm_compute. reflexivity. Qed.

End Scale.

(** ** crop_manual_gui.py: the display and the initial rectangle *)

Section ManualCropper.
Local Open Scope Q_scope.

Lemma min_cases (x y : Q) :
  (min (Finite x) (Finite y) = Finite x /\ x <= y) \/
  (min (Finite x) (Finite y) = Finite y /\ y < x).
Proof.
  unfold min. cbn [float_lt]. destruct (Qlt_bool y x) eqn:E.
  - right. apply Qlt_bool_iff in E. auto.
  - left. apply Qlt_bool_false in E. auto.
Qed.

(** The display scale of [_build_state]: one of the two quotients or
    [1.0], whichever is least; positive, at most one. *)
Lemma display_scale_cases (cw ch w ht : Z) :
  dim cw -> dim ch -> dim w -> dim ht ->
  let a := rnd (inject_Z cw / inject_Z w) in
  let b := rnd (inject_Z ch / inject_Z ht) in
  exists z,
    (a ← int_truediv cw w; b ← int_truediv ch ht; Ok (min (min a b) one))
      = Ok (Finite z) /\
    0 < z /\ z <= 1 /\ z <= a /\ z <= b /\ (z = a \/ z = b \/ z = 1) /\
    (1 <= a -> 1 <= b -> z == 1).
Proof.
  intros Hcw Hch Hw Hh a b.
  pose proof (aspect_pos cw w Hcw Hw) as Pa. pose proof (aspect_pos ch ht Hch Hh) as Pb.
  fold a in Pa. fold b in Pb.
  unfold mbind, result_bind.
  rewrite !int_truediv_ok by (unfold dim in *; lia). fold a b.
  destruct (min_cases a b) as [[-> Hab] | [-> Hab]]; unfold one.
  - destruct (min_cases a 1) as [[-> Ha1] | [-> Ha1]].
    + exists a. split; [reflexivity|]. repeat split; auto; try lra.
    + exists 1. split; [reflexivity|]. repeat split; auto; try lra.
  - destruct (min_cases b 1) as [[-> Hb1] | [-> Hb1]].
    + exists b. split; [reflexivity|]. repeat split; auto; try lra.
    + exists 1. split; [reflexivity|]. repeat split; auto; try lra.
Qed.

(** A displayed dimension: the source dimension times the display scale,
    rounded. *)
Lemma displayed_dimension (n c : Z) (z : Q) :
  dim n -> dim c -> 0 < z -> z <= 1 -> z <= rnd (inject_Z c / inject_Z n) ->
  exists d,
    (v ← int_mul_float n (Finite z); round v) = Ok d /\
    d = rne (rnd (inject_Z n * z)) /\ (0 <= d <= n)%Z /\ (d <= c)%Z.
Proof.
  intros Hn Hc Z0 Z1 Za. pose proof (dim_Q n Hn) as [N1 N2].
  assert (B : 0 <= inject_Z n * z /\ inject_Z n * z <= inject_Z n).
  { split; [apply Qmult_le_0_compat; lra|].
    rewrite <- (Qmult_1_r (inject_Z n)) at 2. apply Qmult_le_l; lra. }
  unfold int_mul_float, mbind, result_bind.
  rewrite float_of_int_ok by (unfold dim in Hn; lia). cbn [float_mul].
  rewrite (to_float_finite _ n)
    by (unfold dim in Hn; try lia; rewrite Qabs_pos; lra).
  cbn [round]. eexists. split; [reflexivity|]. split; [reflexivity|].
  split; [split|].
  - apply rne_nonneg, rnd_nonneg. lra.
  - apply rne_le_Z. apply Qle_trans with (rnd (inject_Z n)); [apply rnd_le; lra|].
    rewrite rnd_Z by (unfold dim in Hn; lia). apply Qle_refl.
  - apply round_le_of_quarter; [unfold dim in Hc; lia|].
    pose proof (quotient_times_size c n Hc Hn) as [_ Q2].
    apply Qle_trans with (inject_Z n * rnd (inject_Z c / inject_Z n)); [|exact Q2].
    apply Qmult_le_l; lra.
Qed.

Lemma canvas_extent_dim (winfo default : Z) :
  (Z.abs winfo < 2 ^ 31)%Z -> dim default -> dim (canvas_extent winfo default).
Proof.
  unfold canvas_extent, dim. intros Hw Hd. destruct (Z.eqb_spec winfo 0); lia.
Qed.

(** X11. The displayed image of the manual cropper fits both the canvas
    and the source. For a source of valid size and a canvas widget whose
    reported size is below [2^31], [_build_state] computes a display size
    [(disp_w, disp_h)] with [0 <= disp_w <= min(width, canvas_w)] and
    [0 <= disp_h <= min(height, canvas_h)]: it raises [ValueError] (from
    [Image.resize]) when one of the two rounds to zero, and otherwise
    returns a state whose display image is a new object of that size, a
    copy of the source or its LANCZOS resampling, with the crop rectangle
    set to the whole display. Neither dimension rounds to zero when
    [height <= canvas_h * width] and [width <= canvas_w * height]; and an
    image that fits the canvas is displayed at scale one, as a copy. *)
Theorem build_state_display_fits (h : heap) (pil : ref) (img : image)
    (winfo_width winfo_height : Z) (label : string) :
  h !! pil = Some img -> valid_dims img ->
  (Z.abs winfo_width < 2 ^ 31)%Z -> (Z.abs winfo_height < 2 ^ 31)%Z ->
  let canvas_w := canvas_extent winfo_width 1024 in
  let canvas_h := canvas_extent winfo_height 768 in
  exists (disp_w disp_h : Z) (scale : Q),
    (0 <= disp_w <= Z.min (width img) canvas_w)%Z /\
    (0 <= disp_h <= Z.min (height img) canvas_h)%Z /\
    0 < scale /\ scale <= 1 /\
    _build_state winfo_width winfo_height label pil h =
      (if ((disp_w <? 1) || (disp_h <? 1))%Z then Raises ValueError
       else Returns
              {| pil_image := pil; display_image := length h;
                 display_scale := Finite scale;
                 rect := (0, 0, disp_w, disp_h)%Z; shape_label := label |}
              (h ++ [if same_size img (disp_w, disp_h) then img
                     else Image disp_w disp_h
                            (Resampled (data img) (disp_w, disp_h) LANCZOS)])) /\
    ((height img <= canvas_h * width img)%Z -> (1 <= disp_w)%Z) /\
    ((width img <= canvas_w * height img)%Z -> (1 <= disp_h)%Z) /\
    ((width img <= canvas_w)%Z -> (height img <= canvas_h)%Z ->
     scale == 1 /\ disp_w = width img /\ disp_h = height img).
Proof.
  intros Hr [Hw Hh] Hww Hwh canvas_w canvas_h.
  assert (Hcw : dim canvas_w) by (apply canvas_extent_dim; [exact Hww | unfold dim; lia]).
  assert (Hch : dim canvas_h) by (apply canvas_extent_dim; [exact Hwh | unfold dim; lia]).
  destruct (display_scale_cases canvas_w canvas_h _ _ Hcw Hch Hw Hh)
    as (z & Ez & Z0 & Z1 & Za & Zb & Zc & Zone).
  destruct (displayed_dimension _ canvas_w z Hw Hcw Z0 Z1 Za) as (dw & Edw & Dw & Bw & Bw').
  destruct (displayed_dimension _ canvas_h z Hh Hch Z0 Z1 Zb) as (dh & Edh & Dh & Bh & Bh').
  exists dw, dh, z.
  split; [lia|]. split; [lia|]. split; [exact Z0|]. split; [exact Z1|].
  split.
  { unfold mbind in Ez, Edw, Edh.
    unfold _build_state, PIL.size, get. run_M. rewrite Hr.
    fold canvas_w canvas_h. rewrite Ez. unfold lift at 1.
    rewrite Edw. unfold lift at 1. rewrite Edh. unfold lift at 1.
    unfold resize, get. run_M. rewrite Hr.
    destruct (same_size img (dw, dh)) eqn:Ess.
    - unfold same_size in Ess. cbn [fst snd] in Ess.
      apply andb_true_iff in Ess as [E1 E2]. apply Z.eqb_eq in E1, E2.
      replace ((dw <? 1)%Z || (dh <? 1)%Z) with false
        by (symmetry; apply orb_false_iff; unfold dim in *; split; apply Z.ltb_ge; lia).
      reflexivity.
    - unfold lift, resample. cbn [fst snd].
      destruct ((dw <? 1)%Z || (dh <? 1)%Z); reflexivity. }
  pose proof (dim_Q _ Hw) as [W1 _]. pose proof (dim_Q _ Hh) as [H1 _].
  pose proof (dim_Q _ Hcw) as [CW1 _]. pose proof (dim_Q _ Hch) as [CH1 _].
  split; [|split].
  - intros Hle. rewrite Dw. apply round_ge_of_quarter; [lia|].
    change (inject_Z 1) with 1.
    destruct Zc as [-> | [-> | ->]].
    + pose proof (quotient_times_size canvas_w (width img) Hcw Hw) as [Q1 _]. lra.
    + pose proof (target_aspect_times_height canvas_h (height img) (width img)
                    Hch Hh Hw Hle). lra.
    + lra.
  - intros Hle. rewrite Dh. apply round_ge_of_quarter; [lia|].
    change (inject_Z 1) with 1.
    destruct Zc as [-> | [-> | ->]].
    + pose proof (target_aspect_times_height canvas_w (width img) (height img)
                    Hcw Hw Hh Hle). lra.
    + pose proof (quotient_times_size canvas_h (height img) Hch Hh) as [Q1 _]. lra.
    + lra.
  - intros Fw Fh.
    assert (A1 : 1 <= rnd (inject_Z canvas_w / inject_Z (width img))).
    { apply Qle_trans with (rnd 1); [vm_compute; discriminate|]. apply rnd_le.
      apply Qle_shift_div_l; [lra|]. rewrite Qmult_1_l. apply inject_Z_le. exact Fw. }
    assert (B1 : 1 <= rnd (inject_Z canvas_h / inject_Z (height img))).
    { apply Qle_trans with (rnd 1); [vm_compute; discriminate|]. apply rnd_le.
      apply Qle_shift_div_l; [lra|]. rewrite Qmult_1_l. apply inject_Z_le. exact Fh. }
    pose proof (Zone A1 B1) as E1. split; [exact E1|].
    assert (R : forall n, (Z.abs n < 2 ^ 53)%Z -> rne (rnd (inject_Z n * z)) = n).
    { intros n Hn. rewrite (rnd_comp _ (inject_Z n)) by (rewrite E1; ring).
      rewrite rnd_Z_eq by exact Hn. apply rne_Z. }
    rewrite Dw, Dh. unfold dim in *. split; apply R; lia.
Qed.

(** The theorem above at a concrete input, where its hypotheses hold. *)
Lemma build_state_display_fits_witness :
  exists (disp_w disp_h : Z) (scale : Q),
    (0 <= disp_w <= Z.min 4000 1024)%Z /\
    (0 <= disp_h <= Z.min 3000 768)%Z /\
    0 < scale /\ scale <= 1 /\
    _build_state 1024 768 "1:1" 0%nat [Image 4000 3000 (Raw 0)] =
      (if ((disp_w <? 1) || (disp_h <? 1))%Z then Raises ValueError
       else Returns
              {| pil_image := 0%nat; display_image := 1%nat;
                 display_scale := Finite scale;
                 rect := (0, 0, disp_w, disp_h)%Z; shape_label := "1:1" |}
              ([Image 4000 3000 (Raw 0)] ++
               [if same_size (Image 4000 3000 (Raw 0)) (disp_w, disp_h)
                then Image 4000 3000 (Raw 0)
                else Image disp_w disp_h (Resampled (Raw 0) (disp_w, disp_h) LANCZOS)])) /\
    ((3000 <= 768 * 4000)%Z -> (1 <= disp_w)%Z) /\
    ((4000 <= 1024 * 3000)%Z -> (1 <= disp_h)%Z) /\
    ((4000 <= 1024)%Z -> (3000 <= 768)%Z ->
     scale == 1 /\ disp_w = 4000%Z /\ disp_h = 3000%Z).
Proof.
  refine (build_state_display_fits [Image 4000 3000 (Raw 0)] 0%nat
            (Image 4000 3000 (Raw 0)) 1024 768 "1:1" eq_refl _ _ _).
  - vm_compute. repeat split; reflexivity.
  - vm_compute. reflexivity.
  - vm_compute. reflexivity.
Defined.

(** The same call, evaluated: 4000x3000 on the default canvas is shown at
    1024x768, scale 0.256. *)
Example build_state_4000x3000 :
  _build_state 1024 768 "1:1" 0%nat [Image 4000 3000 (Raw 0)] =
    Returns
      {| pil_image := 0%nat; display_image := 1%nat;
         display_scale := to_float (32 # 125);
         rect := (0, 0, 1024, 768)%Z; shape_label := "1:1" |}
      [Image 4000 3000 (Raw 0);
       Image 1024 768 (Resampled (Raw 0) (1024, 768)%Z LANCZOS)].
Proof. vm_compute. reflexivity. Qed.

(** An image so elongated that a displayed dimension rounds to zero
    cannot be shown: [Image.resize] refuses the size. *)
Example build_state_1x5000 :
  _build_state 1024 768 "1:1" 0%nat [Image 1 5000 (Raw 0)] = Raises ValueError.
Proof. vm_compute. reflexivity. Qed.

(** X12. The rectangle that [_reset_rect_to_center] sets lies within the
    displayed image. For a display and a target of valid size it covers
    one axis of the display in full ([y0 = 0, y1 = disp_h] or
    [x0 = 0, x1 = disp_w]), is centred in the other
    ([x0 = (disp_w - rect_w) // 2], resp. [y0]), and never reaches outside;
    it is non-empty when [H <= W * disp_h] and [W <= H * disp_w]. The heap
    and the drag offset are left alone. *)
Theorem reset_rect_within_display (h : heap) (self : ManualCropperApp)
    (cur : CropState) (disp : image) (W H : Z) :
  current self = Some cur -> h !! display_image cur = Some disp ->
  valid_dims disp -> dim W -> dim H ->
  exists x0 y0 x1 y1 : Z,
    _reset_rect_to_center (W, H) self h =
      Returns {| current := Some (set_rect cur (x0, y0, x1, y1));
                 drag_offset := drag_offset self |} h /\
    rect_inside disp (x0, y0, x1, y1) /\
    x0 = ((width disp - (x1 - x0)) / 2)%Z /\ y0 = ((height disp - (y1 - y0)) / 2)%Z /\
    ((y0 = 0%Z /\ y1 = height disp) \/ (x0 = 0%Z /\ x1 = width disp)) /\
    ((H <= W * height disp)%Z -> (W <= H * width disp)%Z -> (x0 < x1)%Z /\ (y0 < y1)%Z).
Proof.
  intros Hcur Hr [Dw Dh] HW HH.
  pose proof (aspect_pos W H HW HH) as Pa.
  set (a := rnd (inject_Z W / inject_Z H)) in *.
  set (c := rnd (inject_Z (width disp) / inject_Z (height disp))).
  assert (Step : forall rw rh : Z,
    (0 <= rw <= width disp)%Z -> (0 <= rh <= height disp)%Z ->
    (rh = height disp \/ rw = width disp) ->
    ((H <= W * height disp)%Z -> (W <= H * width disp)%Z -> (1 <= rw)%Z /\ (1 <= rh)%Z) ->
    let x0 := ((width disp - rw) / 2)%Z in
    let y0 := ((height disp - rh) / 2)%Z in
    rect_inside disp (x0, y0, x0 + rw, y0 + rh)%Z /\
    x0 = ((width disp - (x0 + rw - x0)) / 2)%Z /\
    y0 = ((height disp - (y0 + rh - y0)) / 2)%Z /\
    ((y0 = 0%Z /\ (y0 + rh)%Z = height disp) \/ (x0 = 0%Z /\ (x0 + rw)%Z = width disp)) /\
    ((H <= W * height disp)%Z -> (W <= H * width disp)%Z ->
     (x0 < x0 + rw)%Z /\ (y0 < y0 + rh)%Z)).
  { intros rw rh Bw Bh Hfull Hne x0 y0.
    assert (0 <= x0)%Z by (apply Z.div_pos; lia).
    assert (0 <= y0)%Z by (apply Z.div_pos; lia).
    assert (2 * x0 <= width disp - rw)%Z by (apply Z.mul_div_le; lia).
    assert (2 * y0 <= height disp - rh)%Z by (apply Z.mul_div_le; lia).
    split; [unfold rect_inside; lia|].
    split; [rewrite Z.add_simpl_l; reflexivity|].
    split; [rewrite Z.add_simpl_l; reflexivity|].
    split.
    - destruct Hfull as [-> | ->].
      + left. assert (y0 = 0%Z) by (unfold y0; rewrite Z.sub_diag; reflexivity). lia.
      + right. assert (x0 = 0%Z) by (unfold x0; rewrite Z.sub_diag; reflexivity). lia.
    - intros A1 A2. specialize (Hne A1 A2). lia. }
  unfold _reset_rect_to_center. rewrite Hcur. unfold PIL.size, get. run_M. rewrite Hr.
  rewrite !int_truediv_ok by (unfold dim in *; lia). unfold lift at 1. unfold lift at 1.
  fold a c. unfold float_ge. cbn [float_le].
  destruct (Qle_bool a c) eqn:Ele.
  - apply Qle_bool_iff in Ele.
    destruct (too_wide_width (width disp) (height disp) a Dw Dh Pa ltac:(fold c; lra))
      as (E1 & [N0 N1] & _).
    rewrite E1. unfold result_bind. cbn [round]. unfold lift.
    set (nw := rne (rnd (inject_Z (height disp) * a))) in *.
    eexists _, _, _, _. split; [reflexivity|].
    apply Step; [lia | unfold dim in Dh; lia | left; reflexivity |].
    intros A1 _. split; [|unfold dim in Dh; lia].
    pose proof (target_aspect_times_height W H (height disp) HW HH Dh A1) as T.
    fold a in T. apply round_ge_of_quarter; [lia|]. change (inject_Z 1) with 1. lra.
  - apply Qle_bool_false in Ele.
    destruct (too_tall_height (width disp) (height disp) a Dw Dh Pa ltac:(fold c; lra))
      as (E1 & [N0 N1] & _).
    rewrite E1. unfold result_bind. cbn [round]. unfold lift.
    set (nh := rne (rnd (inject_Z (width disp) / a))) in *.
    eexists _, _, _, _. split; [reflexivity|].
    apply Step; [unfold dim in Dw; lia | lia | right; reflexivity |].
    intros _ A2. split; [unfold dim in Dw; lia|].
    pose proof (width_over_target_aspect W H (width disp) HW HH Dw A2) as T.
    fold a in T. apply round_ge_of_quarter; [lia|]. change (inject_Z 1) with 1. lra.
Qed.

(** The theorem above at a concrete input, where its hypotheses hold. *)
Lemma reset_rect_within_display_witness :
  exists x0 y0 x1 y1 : Z,
    _reset_rect_to_center (1024, 1024)%Z
      {| current := Some {| pil_image := 0%nat; display_image := 1%nat;
                            display_scale := to_float (32 # 125);
                            rect := (0, 0, 1024, 768)%Z; shape_label := "1:1" |};
         drag_offset := None |}
      [Image 4000 3000 (Raw 0); Image 1024 768 (Resampled (Raw 0) (1024, 768)%Z LANCZOS)]
    = Returns
        {| current := Some {| pil_image := 0%nat; display_image := 1%nat;
                              display_scale := to_float (32 # 125);
                              rect := (x0, y0, x1, y1); shape_label := "1:1" |};
           drag_offset := None |}
        [Image 4000 3000 (Raw 0); Image 1024 768 (Resampled (Raw 0) (1024, 768)%Z LANCZOS)]
    /\ rect_inside (Image 1024 768 (Resampled (Raw 0) (1024, 768)%Z LANCZOS)) (x0, y0, x1, y1)
    /\ x0 = ((1024 - (x1 - x0)) / 2)%Z /\ y0 = ((768 - (y1 - y0)) / 2)%Z
    /\ ((y0 = 0%Z /\ y1 = 768%Z) \/ (x0 = 0%Z /\ x1 = 1024%Z))
    /\ ((1024 <= 1024 * 768)%Z -> (1024 <= 1024 * 1024)%Z -> (x0 < x1)%Z /\ (y0 < y1)%Z).
Proof.
  refine (reset_rect_within_display
            [Image 4000 3000 (Raw 0);
             Image 1024 768 (Resampled (Raw 0) (1024, 768)%Z LANCZOS)]
            {| current := Some {| pil_image := 0%nat; display_image := 1%nat;
                                  display_scale := to_float (32 # 125);
                                  rect := (0, 0, 1024, 768)%Z; shape_label := "1:1" |};
               drag_offset := None |}
            _ (Image 1024 768 (Resampled (Raw 0) (1024, 768)%Z LANCZOS))
            1024 1024 eq_refl eq_refl _ _ _).
  - vm_compute. repeat split; reflexivity.
  - vm_compute. split; reflexivity.
  - vm_compute. split; reflexivity.
Defined.

End ManualCropper.

(** ** crop_manual_gui.py: mouse events and saving *)

Section MouseEvents.

Lemma set_rect_same (cur : CropState) : set_rect cur (rect cur) = cur.
Proof. destruct cur. reflexivity. Qed.

(** [_move_rect_to] clamps the requested origin to the positions at which
    the rectangle, of unchanged size, lies within the display. *)
Lemma move_rect_to_clamps (h : heap) (self : ManualCropperApp) (cur : CropState)
    (disp : image) (x y x0 y0 x1 y1 : Z) :
  current self = Some cur -> h !! display_image cur = Some disp ->
  rect cur = (x0, y0, x1, y1) ->
  let nx0 := Z.max 0 (Z.min (width disp - (x1 - x0)) x) in
  let ny0 := Z.max 0 (Z.min (height disp - (y1 - y0)) y) in
  _move_rect_to x y self h =
    Returns {| current := Some (set_rect cur (nx0, ny0, nx0 + (x1 - x0), ny0 + (y1 - y0))%Z);
               drag_offset := drag_offset self |} h.
Proof.
  intros Hcur Hr Hrect. unfold _move_rect_to. rewrite Hcur.
  unfold PIL.size, get. run_M. rewrite Hr, Hrect. reflexivity.
Qed.

(** [int((x1 - x0) / 2)] for the side of a rectangle. *)
Lemma half_side (n : Z) :
  (Z.abs n < 2 ^ 53)%Z -> exists k, (v ← int_truediv n 2; int_of_float v) = Ok k.
Proof.
  intros Hn. unfold mbind, result_bind.
  rewrite int_truediv_ok by lia. cbn [int_of_float]. eauto.
Qed.

(** One event keeps the rectangle within the display and of the same
    size, and changes nothing else of the session. *)
Lemma dispatch_keeps_rect_inside (e : event) (h : heap) (self : ManualCropperApp)
    (cur : CropState) (disp : image) :
  current self = Some cur -> h !! display_image cur = Some disp -> valid_dims disp ->
  rect_inside disp (rect cur) ->
  exists rc off,
    dispatch e self h =
      Returns {| current := Some (set_rect cur rc); drag_offset := off |} h /\
    rect_inside disp rc /\ rect_size rc = rect_size (rect cur).
Proof.
  intros Hcur Hr [Dw Dh] Hin.
  destruct (rect cur) as [[[x0 y0] x1] y1] eqn:Hrect.
  unfold rect_inside in Hin.
  assert (Same : self = {| current := Some (set_rect cur (x0, y0, x1, y1));
                           drag_offset := drag_offset self |}).
  { rewrite <- Hrect, set_rect_same. destruct self. cbn in *. congruence. }
  assert (Move : forall x y s,
    current s = Some cur ->
    exists rc,
      _move_rect_to x y s h =
        Returns {| current := Some (set_rect cur rc); drag_offset := drag_offset s |} h /\
      rect_inside disp rc /\ rect_size rc = (x1 - x0, y1 - y0)%Z).
  { intros x y s Hs. eexists. split.
    - apply (move_rect_to_clamps h s cur disp x y x0 y0 x1 y1 Hs Hr Hrect).
    - unfold rect_inside, rect_size. split; [lia|]. f_equal; lia. }
  destruct e as [x y | x y]; cbn [dispatch].
  - unfold on_mouse_down. rewrite Hcur, Hrect. cbn [fst snd].
    destruct ((x0 <=? x)%Z && (x <=? x1)%Z && (y0 <=? y)%Z && (y <=? y1)%Z).
    + exists (x0, y0, x1, y1), (Some (x - x0, y - y0)%Z). split.
      * unfold mret, M_ret. do 2 f_equal. rewrite <- Hrect, set_rect_same. reflexivity.
      * split; [unfold rect_inside; lia | reflexivity].
    + destruct (half_side (x1 - x0)) as [ox Eox]; [unfold dim in *; lia|].
      destruct (half_side (y1 - y0)) as [oy Eoy]; [unfold dim in *; lia|].
      unfold mbind in Eox, Eoy. run_M. rewrite Eox. unfold lift at 1.
      rewrite Eoy. unfold lift at 1.
      destruct (Move (x - ox)%Z (y - oy)%Z
                  {| current := Some cur; drag_offset := Some (ox, oy) |} eq_refl)
        as (rc & -> & Hin' & Hsz).
      exists rc, (Some (ox, oy)). auto.
  - unfold on_mouse_drag. rewrite Hcur.
    destruct (drag_offset self) as [[ox oy]|] eqn:Hoff; cbn [fst snd].
    + destruct (Move (x - ox)%Z (y - oy)%Z self Hcur) as (rc & -> & Hin' & Hsz).
      exists rc, (Some (ox, oy)). rewrite Hoff. auto.
    + exists (x0, y0, x1, y1), None. split.
      * unfold mret, M_ret. f_equal. exact Same.
      * split; [unfold rect_inside; lia | reflexivity].
Qed.

(** X13. The crop rectangle never leaves the displayed image. From a
    session whose rectangle lies within a display of valid size, every
    sequence of mouse events (button presses and motions at arbitrary
    coordinates, inside or outside the canvas) is handled without an
    exception and ends in a session in which only the rectangle and the
    drag offset may have changed: the rectangle still lies within the
    display and has the size it had; no image is created or changed. *)
Theorem mouse_events_keep_rect_inside (events : list event) (h : heap)
    (self : ManualCropperApp) (cur : CropState) (disp : image) :
  current self = Some cur -> h !! display_image cur = Some disp -> valid_dims disp ->
  rect_inside disp (rect cur) ->
  exists rc off,
    mainloop events self h =
      Returns {| current := Some (set_rect cur rc); drag_offset := off |} h /\
    rect_inside disp rc /\ rect_size rc = rect_size (rect cur).
Proof.
  revert self cur. induction events as [|e events IH]; intros self cur Hcur Hr Hv Hin.
  - exists (rect cur), (drag_offset self). split; [|auto].
    cbn [mainloop]. unfold mret, M_ret. f_equal.
    rewrite set_rect_same. destruct self. cbn in *. congruence.
  - destruct (dispatch_keeps_rect_inside e h self cur disp Hcur Hr Hv Hin)
      as (rc1 & off1 & E1 & Hin1 & Hsz1).
    destruct (IH {| current := Some (set_rect cur rc1); drag_offset := off1 |}
                (set_rect cur rc1) eq_refl Hr Hv Hin1)
      as (rc & off & E & Hin' & Hsz).
    exists rc, off. split; [|split; [exact Hin' | exact (eq_trans Hsz Hsz1)]].
    cbn [mainloop]. run_M. rewrite E1. exact E.
Qed.

(** The theorem above at a concrete input, where its hypotheses hold. *)
Lemma mouse_events_keep_rect_inside_witness :
  exists rc off,
    mainloop [ButtonPress 2000 (-50); Motion 10 10; ButtonPress 500 400; Motion 100 900]
      {| current := Some {| pil_image := 0%nat; display_image := 1%nat;
                            display_scale := to_float (32 # 125);
                            rect := (128, 0, 896, 768)%Z; shape_label := "1:1" |};
         drag_offset := None |}
      [Image 4000 3000 (Raw 0); Image 1024 768 (Resampled (Raw 0) (1024, 768)%Z LANCZOS)]
    = Returns
        {| current := Some {| pil_image := 0%nat; display_image := 1%nat;
                              display_scale := to_float (32 # 125);
                              rect := rc; shape_label := "1:1" |};
           drag_offset := off |}
        [Image 4000 3000 (Raw 0); Image 1024 768 (Resampled (Raw 0) (1024, 768)%Z LANCZOS)]
    /\ rect_inside (Image 1024 768 (Resampled (Raw 0) (1024, 768)%Z LANCZOS)) rc
    /\ rect_size rc = (768, 768)%Z.
Proof.
  refine (mouse_events_keep_rect_inside
            [ButtonPress 2000 (-50); Motion 10 10; ButtonPress 500 400; Motion 100 900]
            [Image 4000 3000 (Raw 0);
             Image 1024 768 (Resampled (Raw 0) (1024, 768)%Z LANCZOS)]
            {| current := Some {| pil_image := 0%nat; display_image := 1%nat;
                                  display_scale := to_float (32 # 125);
                                  rect := (128, 0, 896, 768)%Z; shape_label := "1:1" |};
               drag_offset := None |}
            _ (Image 1024 768 (Resampled (Raw 0) (1024, 768)%Z LANCZOS))
            eq_refl eq_refl _ _).
  - vm_compute. repeat split; reflexivity.
  - vm_compute. repeat split; discriminate.
Defined.

(** X14. Dragging moves the rectangle with the pointer. A button press at
    a point of the rectangle followed by a motion to another point
    translates the rectangle by the displacement of the pointer, as long
    as the translated rectangle lies within the display; the drag offset
    is the position of the press relative to the rectangle. *)
Theorem drag_follows_pointer (h : heap) (self : ManualCropperApp) (cur : CropState)
    (disp : image) (x0 y0 x1 y1 px py qx qy : Z) :
  current self = Some cur -> h !! display_image cur = Some disp ->
  rect cur = (x0, y0, x1, y1) ->
  (x0 <= px <= x1)%Z -> (y0 <= py <= y1)%Z ->
  (0 <= x0 + (qx - px))%Z -> (x1 + (qx - px) <= width disp)%Z ->
  (0 <= y0 + (qy - py))%Z -> (y1 + (qy - py) <= height disp)%Z ->
  mainloop [ButtonPress px py; Motion qx qy] self h =
    Returns
      {| current := Some (set_rect cur (x0 + (qx - px), y0 + (qy - py),
                                        x1 + (qx - px), y1 + (qy - py))%Z);
         drag_offset := Some (px - x0, py - y0)%Z |} h.
Proof.
  intros Hcur Hr Hrect Hpx Hpy Bx0 Bx1 By0 By1.
  cbn [mainloop dispatch]. run_M.
  unfold on_mouse_down. rewrite Hcur, Hrect. cbn [fst snd].
  replace ((x0 <=? px)%Z && (px <=? x1)%Z && (y0 <=? py)%Z && (py <=? y1)%Z) with true
    by (symmetry; rewrite !andb_true_iff, !Z.leb_le; lia).
  unfold on_mouse_drag. run_M. cbn [current drag_offset fst snd].
  rewrite (move_rect_to_clamps h
             {| current := Some cur; drag_offset := Some (px - x0, py - y0)%Z |}
             cur disp _ _ x0 y0 x1 y1 eq_refl Hr Hrect).
  cbn [drag_offset]. do 4 f_equal. f_equal; [f_equal; [f_equal|]|]; lia.
Qed.

(** The theorem above at a concrete input, where its hypotheses hold. *)
Lemma drag_follows_pointer_witness :
  mainloop [ButtonPress 500 400; Motion 450 400]
    {| current := Some {| pil_image := 0%nat; display_image := 1%nat;
                          display_scale := to_float (32 # 125);
                          rect := (128, 0, 896, 768)%Z; shape_label := "1:1" |};
       drag_offset := None |}
    [Image 4000 3000 (Raw 0); Image 1024 768 (Resampled (Raw 0) (1024, 768)%Z LANCZOS)]
  = Returns
      {| current := Some {| pil_image := 0%nat; display_image := 1%nat;
                            display_scale := to_float (32 # 125);
                            rect := (128 + (450 - 500), 0 + (400 - 400),
                                     896 + (450 - 500), 768 + (400 - 400))%Z;
                            shape_label := "1:1" |};
         drag_offset := Some (500 - 128, 400 - 0)%Z |}
      [Image 4000 3000 (Raw 0); Image 1024 768 (Resampled (Raw 0) (1024, 768)%Z LANCZOS)].
Proof.
  refine (drag_follows_pointer
            [Image 4000 3000 (Raw 0);
             Image 1024 768 (Resampled (Raw 0) (1024, 768)%Z LANCZOS)]
            {| current := Some {| pil_image := 0%nat; display_image := 1%nat;
                                  display_scale := to_float (32 # 125);
                                  rect := (128, 0, 896, 768)%Z; shape_label := "1:1" |};
               drag_offset := None |}
            _ (Image 1024 768 (Resampled (Raw 0) (1024, 768)%Z LANCZOS))
            128 0 896 768 500 400 450 400 eq_refl eq_refl eq_refl _ _ _ _ _ _);
    cbn; lia.
Defined.

End MouseEvents.

Section Save.
Local Open Scope Q_scope.

(** A coordinate times the scale [1.0] rounds to itself. *)
Lemma times_one_round (n : Z) (s : Q) :
  (Z.abs n < 2 ^ 53)%Z -> s == 1 ->
  (v ← int_mul_float n (Finite s); round v) = Ok n.
Proof.
  intros Hn Hs. unfold int_mul_float, mbind, result_bind.
  rewrite float_of_int_ok by exact Hn. cbn [float_mul].
  rewrite (to_float_comp _ (inject_Z n)) by (rewrite Hs; ring).
  rewrite (to_float_finite _ (Z.abs n))
    by (try lia; unfold inject_Z; rewrite <- Zabs_Qabs; apply Qle_refl).
  cbn [round]. rewrite rnd_Z_eq by exact Hn. rewrite rne_Z. reflexivity.
Qed.

(** X15. At display scale one the saved crop is the rectangle drawn. For
    a session whose image is shown unscaled ([display_scale = 1.0]) and a
    rectangle with [x0 <= x1] and [y0 <= y1], [on_save] crops the source
    with exactly the box of the rectangle and resizes that crop to the
    target size: it returns a new object of exactly [W x H]. *)
Theorem on_save_unscaled_crops_rect (h : heap) (cur : CropState) (img : image)
    (q : Q) (x0 y0 x1 y1 W H : Z) :
  h !! pil_image cur = Some img ->
  display_scale cur = Finite q -> q == 1 ->
  rect cur = (x0, y0, x1, y1) ->
  (Z.abs x0 < 2 ^ 53)%Z -> (Z.abs y0 < 2 ^ 53)%Z ->
  (Z.abs x1 < 2 ^ 53)%Z -> (Z.abs y1 < 2 ^ 53)%Z ->
  (x0 <= x1)%Z -> (y0 <= y1)%Z -> dim W -> dim H ->
  exists out : image,
    on_save (W, H) cur h =
      Returns (S (length h))
        (h ++ [Image (x1 - x0) (y1 - y0) (Cropped (data img) (x0, y0, x1, y1)); out]) /\
    width out = W /\ height out = H.
Proof.
  intros Hr Hs Hq Hrect Bx0 By0 Bx1 By1 Hx Hy [HW _] [HH _].
  assert (Es : float_truediv one (Finite q) = Ok (Finite 1)).
  { unfold float_truediv, one.
    destruct (Qeq_bool q 0) eqn:E;
      [apply Qeq_bool_eq in E; rewrite Hq in E; discriminate|].
    rewrite (to_float_comp _ 1) by (rewrite Hq; reflexivity).
    vm_compute. reflexivity. }
  pose proof (times_one_round x0 1 Bx0 ltac:(reflexivity)) as E0.
  pose proof (times_one_round y0 1 By0 ltac:(reflexivity)) as E1.
  pose proof (times_one_round x1 1 Bx1 ltac:(reflexivity)) as E2.
  pose proof (times_one_round y1 1 By1 ltac:(reflexivity)) as E3.
  unfold mbind in E0, E1, E2, E3.
  set (mid := Image (x1 - x0) (y1 - y0) (Cropped (data img) (x0, y0, x1, y1))).
  assert (Hm : (h ++ [mid]) !! length h = Some mid)
    by (rewrite lookup_app_r, Nat.sub_diag by lia; reflexivity).
  pose proof (resize_to_exact_result _ _ mid (W, H) (Some "lanczos"%string) Hm
                ltac:(cbn; lia) ltac:(cbn; lia)) as Hres.
  destruct (same_size_dims mid (W, H) (map_resample (Some "lanczos"%string))) as [Ew Eh].
  eexists. split; [|split; [exact Ew | exact Eh]].
  unfold on_save. rewrite Hrect, Hs. run_M. rewrite Es. unfold lift at 1.
  rewrite E0. unfold result_bind at 1. rewrite E1. unfold result_bind at 1.
  rewrite E2. unfold result_bind at 1. rewrite E3. unfold result_bind at 1.
  unfold lift at 1. unfold crop, get. run_M. rewrite Hr.
  replace ((x1 <? x0)%Z || (y1 <? y0)%Z) with false
    by (symmetry; apply orb_false_iff; split; apply Z.ltb_ge; lia).
  unfold alloc at 1. fold mid. rewrite Hres. rewrite <- app_assoc.
  rewrite length_app, Nat.add_1_r. reflexivity.
Qed.

(** The theorem above at a concrete input, where its hypotheses hold. *)
Lemma on_save_unscaled_crops_rect_witness :
  exists out : image,
    on_save (1024, 1024)%Z
      {| pil_image := 0%nat; display_image := 1%nat; display_scale := Finite 1;
         rect := (100, 0, 700, 600)%Z; shape_label := "1:1" |}
      [Image 800 600 (Raw 0); Image 800 600 (Raw 0)]
    = Returns 3%nat
        ([Image 800 600 (Raw 0); Image 800 600 (Raw 0)] ++
         [Image (700 - 100) (600 - 0) (Cropped (Raw 0) (100, 0, 700, 600)%Z); out]) /\
    width out = 1024%Z /\ height out = 1024%Z.
Proof.
  refine (on_save_unscaled_crops_rect
            [Image 800 600 (Raw 0); Image 800 600 (Raw 0)]
            {| pil_image := 0%nat; display_image := 1%nat; display_scale := Finite 1;
               rect := (100, 0, 700, 600)%Z; shape_label := "1:1" |}
            (Image 800 600 (Raw 0)) 1 100 0 700 600 1024 1024
            eq_refl eq_refl _ eq_refl _ _ _ _ _ _ _ _);
    try reflexivity; try (cbn; lia); vm_compute; split; reflexivity.
Defined.

(** With a scaled display the box that [on_save] computes can reach
    beyond the source. A source of 3412x2560 is shown at 1024x768; the
    rectangle of the shape 4:3, dragged to the right edge of the display,
    is mapped to a box whose right edge is 3413. *)
Example on_save_box_can_leave_source :
  (app ← load_current 1024 768 "4:3" (1152, 896)%Z 0%nat
           {| current := None; drag_offset := None |};
   app ← mainloop [ButtonPress 500 300; Motion 600 300] app;
   match current app with
   | Some cur => on_save (1152, 896)%Z cur
   | None => mret 0%nat
   end) [Image 3412 2560 (Raw 0)]
  = Returns 3%nat
      [Image 3412 2560 (Raw 0);
       Image 1024 768 (Resampled (Raw 0) (1024, 768)%Z LANCZOS);
       Image 3290 2560 (Cropped (Raw 0) (123, 0, 3413, 2560)%Z);
       Image 1152 896
         (Resampled (Cropped (Raw 0) (123, 0, 3413, 2560)%Z) (1152, 896)%Z LANCZOS)].
Proof. vm_compute. reflexivity. Qed.

End Save.

(** ** io_utils.py: aspect_ratio and the arguments of save_image *)

Section InputOutput.

(** X16. [aspect_ratio] computes the aspect the engine computes. For ints
    below [2^53] in absolute value, which [float()] converts exactly,
    [float(width) / float(height)] is [width / height] as
    [center_crop_to_aspect] evaluates it: the same float, and
    [ZeroDivisionError] for a zero height. *)
Theorem aspect_ratio_is_true_division (width height : Z) :
  (Z.abs width < 2 ^ 53)%Z -> (Z.abs height < 2 ^ 53)%Z ->
  aspect_ratio width height = int_truediv width height.
Proof.
  intros Hw Hh. unfold aspect_ratio, mbind, result_bind.
  rewrite !float_of_int_ok by assumption. unfold float_truediv, int_truediv.
  destruct (Z.eqb_spec height 0) as [-> | Hne]; [reflexivity|].
  destruct (Qeq_bool (inject_Z height) 0) eqn:E.
  { apply Qeq_bool_eq in E. exfalso. apply Hne.
    unfold Qeq in E. cbn in E. lia. }
  pose proof (Qabs_div_le width height Hne) as B.
  rewrite (to_float_finite _ (Z.abs width)) by (try lia; exact B).
  rewrite (no_overflow _ (Z.abs width)); [reflexivity | lia |].
  apply rnd_abs_le; [lia | exact B].
Qed.

(** The theorem above at a concrete input, where its hypotheses hold. *)
Lemma aspect_ratio_is_true_division_witness :
  aspect_ratio 1920 1080 = int_truediv 1920 1080.
Proof.
  refine (aspect_ratio_is_true_division 1920 1080 _ _); reflexivity.
Defined.

Lemma or_else_nonzero (o : option Z) (d : Z) :
  d <> 0%Z ->
  or_else o d <> 0%Z /\
  (o = Some (or_else o d) \/ ((o = None \/ o = Some 0%Z) /\ or_else o d = d)).
Proof.
  intros Hd. destruct o as [n|]; cbn.
  - destruct (Z.eqb_spec n 0) as [-> | Hn]; auto.
  - auto.
Qed.

(** X17. [save_image] never passes a quality of zero. The keyword
    arguments hold a quality exactly for the extensions .jpg, .jpeg, .webp
    and .avif (compared in lower case); it is the caller's quality when
    that is a non-zero int, and otherwise, for [None] and for [0] alike,
    the default: 90 for .avif and 95 for the others. *)
Theorem save_image_quality_never_zero (suffix : string) (keep_metadata : bool)
    (original_exif : option (list Byte.byte)) (quality : option Z) :
  let ext := lower suffix in
  let params := save_params suffix keep_metadata original_exif quality in
  if lossy ext then
    exists n : Z,
      params !! "quality"%string = Some (Int n) /\ n <> 0%Z /\
      (quality = Some n \/
       ((quality = None \/ quality = Some 0%Z) /\
        n = if String.eqb ext ".avif" then 90%Z else 95%Z))
  else params !! "quality"%string = None.
Proof.
  cbn zeta. unfold save_params, lossy, update.
  set (params := match original_exif with
                 | Some (b :: bs) =>
                     if keep_metadata
                     then <["exif"%string := Bytes (b :: bs)]> (∅ : gmap string value)
                     else ∅
                 | _ => ∅
                 end).
  assert (Hp : params !! "quality"%string = None).
  { unfold params. destruct original_exif as [[|b bs]|]; try apply lookup_empty.
    destruct keep_metadata; [|apply lookup_empty].
    rewrite lookup_insert_ne by discriminate. apply lookup_empty. }
  destruct (String.eqb_spec (lower suffix) ".jpg") as [E1 | N1].
  { rewrite E1. cbn -[params or_else].
    destruct (or_else_nonzero quality 95 ltac:(lia)) as [Hn Hq].
    exists (or_else quality 95). split; [|auto].
    apply lookup_union_Some_l. cbn -[or_else]. apply lookup_insert_eq. }
  destruct (String.eqb_spec (lower suffix) ".jpeg") as [E2 | N2].
  { rewrite E2. cbn -[params or_else].
    destruct (or_else_nonzero quality 95 ltac:(lia)) as [Hn Hq].
    exists (or_else quality 95). split; [|auto].
    apply lookup_union_Some_l. cbn -[or_else]. apply lookup_insert_eq. }
  cbn [orb].
  destruct (String.eqb_spec (lower suffix) ".png") as [E3 | N3].
  { rewrite E3. cbn -[params].
    rewrite lookup_union_r; [exact Hp|].
    cbn. rewrite lookup_insert_ne by discriminate. apply lookup_empty. }
  destruct (String.eqb_spec (lower suffix) ".webp") as [E4 | N4].
  { destruct (String.eqb_spec (lower suffix) ".avif") as [E5 | _]; [congruence|].
    destruct (or_else_nonzero quality 95 ltac:(lia)) as [Hn Hq].
    exists (or_else quality 95). split; [|auto].
    apply lookup_union_Some_l. cbn -[or_else]. apply lookup_insert_eq. }
  destruct (String.eqb_spec (lower suffix) ".avif") as [E5 | N5].
  { destruct (or_else_nonzero quality 90 ltac:(lia)) as [Hn Hq].
    exists (or_else quality 90). split; [|auto].
    apply lookup_union_Some_l. cbn -[or_else]. apply lookup_insert_eq. }
  exact Hp.
Qed.

(** X18. EXIF bytes are passed on unchanged, and only on request. For
    every extension and quality, the keyword arguments of [save_image]
    hold the key "exif" exactly when [keep_metadata] is set and the
    original EXIF bytes are present and non-empty, and its value is then
    those bytes. *)
Theorem save_image_exif_passthrough (suffix : string) (keep_metadata : bool)
    (original_exif : option (list Byte.byte)) (quality : option Z) :
  save_params suffix keep_metadata original_exif quality !! "exif"%string =
    match original_exif with
    | Some (b :: bs) => if keep_metadata then Some (Bytes (b :: bs)) else None
    | _ => None
    end.
Proof.
  unfold save_params, update.
  set (params := match original_exif with
                 | Some (b :: bs) =>
                     if keep_metadata
                     then <["exif"%string := Bytes (b :: bs)]> (∅ : gmap string value)
                     else ∅
                 | _ => ∅
                 end).
  assert (Hp : params !! "exif"%string =
               match original_exif with
               | Some (b :: bs) => if keep_metadata then Some (Bytes (b :: bs)) else None
               | _ => None
               end).
  { unfold params. destruct original_exif as [[|b bs]|]; try apply lookup_empty.
    destruct keep_metadata; [apply lookup_insert_eq | apply lookup_empty]. }
  assert (U : forall d : gmap string value,
              d !! "exif"%string = None -> (d ∪ params) !! "exif"%string = params !! "exif"%string).
  { intros d Hd. apply lookup_union_r. exact Hd. }
  destruct (String.eqb (lower suffix) ".jpg" || String.eqb (lower suffix) ".jpeg").
  { rewrite U; [exact Hp|]. cbn.
    rewrite !lookup_insert_ne by discriminate. apply lookup_empty. }
  destruct (String.eqb (lower suffix) ".png").
  { rewrite U; [exact Hp|]. cbn.
    rewrite !lookup_insert_ne by discriminate. apply lookup_empty. }
  destruct (String.eqb (lower suffix) ".webp").
  { rewrite U; [exact Hp|]. cbn.
    rewrite !lookup_insert_ne by discriminate. apply lookup_empty. }
  destruct (String.eqb (lower suffix) ".avif").
  { rewrite U; [exact Hp|]. cbn.
    rewrite !lookup_insert_ne by discriminate. apply lookup_empty. }
  exact Hp.
Qed.

(** A JPEG written with the quality 0 and with EXIF bytes to keep. *)
Example save_params_jpeg :
  save_params ".JPG" true (Some [Byte.xff; Byte.xe1]) (Some 0%Z) =
    list_to_map [("exif"%string, Bytes [Byte.xff; Byte.xe1]);
                 ("quality"%string, Int 95);
                 ("subsampling"%string, Int 0);
                 ("optimize"%string, Boolean true)].
Proof. vm_compute. reflexivity. Qed.

End InputOutput.

